(** * ScoreTracker: bracket generator, sport rule engine and match lifecycle

    A shallow embedding of
      - [shared/src/tournament-formats.ts] (round robin, single elimination,
        group + knockout generators),
      - [shared/src/sports.ts] (the per-sport scoring handlers),
      - the status gates of [server/src/routes/matches.ts],
    followed by the properties stated about them.

    Conventions.  JavaScript numbers that hold team indices, scores and
    period numbers are integers here ([Z]); counts that drive loops
    (team count, bracket size, round and match numbers) are [nat].
    [number | null] is [option]; an out-of-range array read ([undefined])
    is [None].  A string built from a character code is its sequence of
    UTF-16 code units ([JsString.t]); texts that the code only compares
    or passes on are [string]. *)

From Stdlib Require Import List ZArith Lia Bool Arith String Ascii Permutation.
From Stdlib Require Import DecimalString.
Import ListNotations.

Set Implicit Arguments.

(** ** JavaScript array primitives used by the sources *)

Module JsArray.

Section Ops.
Context {A : Type}.

(** [arr.pop()]: the removed last element (if any) and the shortened array. *)
Definition pop (arr : list A) : option A * list A :=
  match arr with
  | [] => (None, [])
  | x :: _ => (Some (last arr x), removelast arr)
  end.

(** [arr.splice(i, 0, x)]: insert [x] before position [i] (clamped to the
    length). *)
Definition splice_insert (i : nat) (x : A) (arr : list A) : list A :=
  firstn i arr ++ x :: skipn i arr.

(** [arr[i] = x] for [i] inside the array. *)
Fixpoint set_nth (i : nat) (x : A) (arr : list A) : list A :=
  match arr, i with
  | [], _ => []
  | _ :: tl, O => x :: tl
  | y :: tl, S j => y :: set_nth j x tl
  end.

(** [arr[i]] with an integer index: [undefined] below zero or past the end. *)
Definition get (arr : list A) (i : Z) : option A :=
  if (i <? 0)%Z then None else nth_error arr (Z.to_nat i).

(** [arr[i] = x] with an integer index that is known to be in range. *)
Definition set (arr : list A) (i : Z) (x : A) : list A :=
  if (i <? 0)%Z then arr else set_nth (Z.to_nat i) x arr.
End Ops.

End JsArray.

(** ** JavaScript strings built from character codes *)

Module JsString.

(** A JavaScript string as its sequence of UTF-16 code units. *)
Definition t : Type := list N.

(** A string literal made of ASCII characters. *)
Definition literal (s : string) : t :=
  map N_of_ascii (list_ascii_of_string s).

(** [String.fromCharCode(n)] for a non-negative integer [n]: the single
    code unit [n mod 2^16]. *)
Definition fromCharCode (n : nat) : t := [(N.of_nat n mod 65536)%N].

End JsString.

(** ** Tournament format generators ([tournament-formats.ts]) *)

Module TournamentFormats.
Import JsArray.

Inductive MatchStage : Type :=
  | GROUP | ROUND_OF_16 | QUARTERFINAL | SEMIFINAL | THIRD_PLACE | FINAL.

Record GeneratedMatch : Type := mkGeneratedMatch {
  homeTeamIndex : option Z;
  awayTeamIndex : option Z;
  round : nat;
  matchNumber : nat;
  stage : MatchStage;
  groupIndex : option nat
}.

Record GeneratedGroup : Type := mkGeneratedGroup {
  name : JsString.t;
  teamIndices : list Z
}.

Record GeneratedTournament : Type := mkGeneratedTournament {
  groups : list GeneratedGroup;
  matches : list GeneratedMatch
}.

(** *** Round robin (circle method) *)

(** The loop state of [generateRoundRobin]: the matches pushed so far, the
    running [matchNumber] and the (mutated) array [teamsWithBye]. *)
Record RRState : Type := mkRRState {
  rr_matches : list GeneratedMatch;
  rr_matchNumber : nat;
  rr_teams : list Z
}.

(** Body of the inner loop, [for (match = 0; match < matchesPerRound; ...)].
    The index [n - 1 - match] is never negative inside the loop, because
    [match < n / 2]. *)
Definition rr_match (n round : nat) (st : RRState) (match_ : nat) : RRState :=
  match nth_error (rr_teams st) match_,
        nth_error (rr_teams st) (n - 1 - match_) with
  | Some home, Some away =>
      if negb (home =? -1)%Z && negb (away =? -1)%Z then
        {| rr_matches := rr_matches st ++
             [ {| homeTeamIndex := Some home;
                  awayTeamIndex := Some away;
                  round := round + 1;
                  matchNumber := rr_matchNumber st;
                  stage := GROUP;
                  groupIndex := None |} ];
           rr_matchNumber := rr_matchNumber st + 1;
           rr_teams := rr_teams st |}
      else st
  | _, _ => st
  end.

(** "Rotate teams (keep first team fixed)": pop the last element, splice it
    in at index 1, write the first element back at index 0. *)
Definition rotate {A : Type} (teamsWithBye : list A) : list A :=
  match nth_error teamsWithBye 0 with
  | None => teamsWithBye
  | Some first =>
      match pop teamsWithBye with
      | (None, rest) => rest
      | (Some last_, rest) => set_nth 0 first (splice_insert 1 last_ rest)
      end
  end.

(** Body of the outer loop, [for (round = 0; round < rounds; round++)]. *)
Definition rr_round (n : nat) (st : RRState) (round : nat) : RRState :=
  let st' := fold_left (rr_match n round) (seq 0 (n / 2)) st in
  {| rr_matches := rr_matches st';
     rr_matchNumber := rr_matchNumber st';
     rr_teams := rotate (rr_teams st') |}.

Definition initialTeams (teamCount : nat) : list Z :=
  let teams := map Z.of_nat (seq 0 teamCount) in
  if teamCount mod 2 =? 1 then teams ++ [(-1)%Z] else teams.

(** [generateRoundRobin(teamCount)].  [n] is even, so [n / 2] is exact; for
    [teamCount = 0] the source has [rounds = -1] and the loop does not run,
    which the truncated [n - 1 = 0] reproduces. *)
Definition generateRoundRobin (teamCount : nat) : GeneratedTournament :=
  let teamsWithBye := initialTeams teamCount in
  let n := List.length teamsWithBye in
  let rounds := n - 1 in
  let st := fold_left (rr_round n) (seq 0 rounds)
              {| rr_matches := []; rr_matchNumber := 1;
                 rr_teams := teamsWithBye |} in
  {| groups := []; matches := rr_matches st |}.

(** *** Single elimination *)

(** [generateSeededBracket(size)].  The source recurses on [size / 2] until
    it meets 1 or 2.  For a size that is not a power of two the halving
    leaves the integers and never meets a base case (the call stack
    overflows); [None] stands for that outcome, and for running out of
    [fuel]. *)
Fixpoint generateSeededBracket_fuel (fuel size : nat) : option (list Z) :=
  match fuel with
  | O => None
  | S fuel' =>
      if size =? 1 then Some [0%Z]
      else if size =? 2 then Some [0%Z; 1%Z]
      else if (size =? 0) || Nat.odd size then None
      else
        match generateSeededBracket_fuel fuel' (size / 2) with
        | None => None
        | Some smaller =>
            Some (flat_map
                    (fun seed => [seed; (Z.of_nat size - 1 - seed)%Z])
                    smaller)
        end
  end.

(** The recursion depth is at most [log2 size + 1], so [S size] is always
    enough fuel. *)
Definition generateSeededBracket (size : nat) : option (list Z) :=
  generateSeededBracket_fuel (S size) size.

(** [getStageForRound(round, totalRounds)]; the difference is computed over
    the integers since it may be negative. *)
Definition getStageForRound (round totalRounds : nat) : MatchStage :=
  match (Z.of_nat totalRounds - Z.of_nat round)%Z with
  | 0%Z => FINAL
  | 1%Z => SEMIFINAL
  | 2%Z => QUARTERFINAL
  | 3%Z => ROUND_OF_16
  | _ => GROUP
  end.

(** [Math.pow(2, Math.ceil(Math.log2(teamCount)))] on integers:
    [log2 0 = -Infinity] gives bracket size 0. *)
Definition bracketSizeOf (teamCount : nat) : nat :=
  if teamCount =? 0 then 0 else 2 ^ Nat.log2_up teamCount.

(** A seeded position becomes a team index if it is below [teamCount]. *)
Definition slotTeam (teamCount : nat) (pos : option Z) : option Z :=
  match pos with
  | Some p => if (p <? Z.of_nat teamCount)%Z then Some p else None
  | None => None
  end.

(** First-round loop body: [for (i = 0; i < bracketSize / 2; i++)]. *)
Definition firstRoundMatch (teamCount rounds : nat) (seededPositions : list Z)
    (i : nat) : GeneratedMatch :=
  {| homeTeamIndex := slotTeam teamCount (nth_error seededPositions (i * 2));
     awayTeamIndex := slotTeam teamCount (nth_error seededPositions (i * 2 + 1));
     round := 1;
     matchNumber := i + 1;
     stage := getStageForRound 1 rounds;
     groupIndex := None |}.

(** Later rounds: [matchesInRound] placeholder matches per round, with the
    running match number.  [count] is the number of rounds still to emit. *)
Fixpoint laterRounds (count round rounds matchesInPrevRound matchNumber : nat)
    : list GeneratedMatch :=
  match count with
  | O => []
  | S count' =>
      let matchesInRound := matchesInPrevRound / 2 in
      map (fun i => {| homeTeamIndex := None;
                       awayTeamIndex := None;
                       round := round;
                       matchNumber := matchNumber + i;
                       stage := getStageForRound round rounds;
                       groupIndex := None |})
          (seq 0 matchesInRound)
      ++ laterRounds count' (round + 1) rounds matchesInRound
           (matchNumber + matchesInRound)
  end.

(** [generateSingleElimination(teamCount)].  The first loop runs while
    [i < bracketSize / 2] with real division, that is [(bracketSize + 1) / 2]
    times (once for bracket size 1).  [None]: the seeding recursion does not
    return (team count 0). *)
Definition generateSingleElimination (teamCount : nat)
    : option GeneratedTournament :=
  let bracketSize := bracketSizeOf teamCount in
  let rounds := Nat.log2_up bracketSize in
  match generateSeededBracket bracketSize with
  | None => None
  | Some seededPositions =>
      let firstCount := (bracketSize + 1) / 2 in
      let first := map (firstRoundMatch teamCount rounds seededPositions)
                       (seq 0 firstCount) in
      let later := laterRounds (rounds - 1) 2 rounds (bracketSize / 2)
                     (firstCount + 1) in
      Some {| groups := []; matches := first ++ later |}
  end.

(** *** Group stage + knockout *)

(** Snake-draft loop state: the groups built so far, [direction] and
    [groupIndex] (an integer: it leaves the range before it is turned back). *)
Record DraftState : Type := mkDraftState {
  d_groups : list GeneratedGroup;
  d_direction : Z;
  d_groupIndex : Z
}.

(** [group.teamIndices.push(teamIndex)] on the group object stored at
    [groups[groupIndex]]. *)
Definition pushTeam (gs : list GeneratedGroup) (groupIndex : Z) (teamIndex : Z)
    : list GeneratedGroup :=
  match get gs groupIndex with
  | Some group =>
      set gs groupIndex
        {| name := name group;
           teamIndices := teamIndices group ++ [teamIndex] |}
  | None => gs
  end.

(** Body of [for (const teamIndex of teamIndices)]. *)
Definition draftStep (groupCount : nat) (st : DraftState) (teamIndex : Z)
    : DraftState :=
  let gs := pushTeam (d_groups st) (d_groupIndex st) teamIndex in
  let groupIndex := (d_groupIndex st + d_direction st)%Z in
  if (groupIndex >=? Z.of_nat groupCount)%Z || (groupIndex <? 0)%Z then
    let direction := (d_direction st * -1)%Z in
    {| d_groups := gs; d_direction := direction;
       d_groupIndex := (groupIndex + direction)%Z |}
  else
    {| d_groups := gs; d_direction := d_direction st;
       d_groupIndex := groupIndex |}.

(** [`Group ${String.fromCharCode(65 + g)}`]. *)
Definition groupName (g : nat) : JsString.t :=
  JsString.literal "Group " ++ JsString.fromCharCode (65 + g).

Definition snakeDraft (teamCount groupCount : nat) : list GeneratedGroup :=
  let teamIndices := map Z.of_nat (seq 0 teamCount) in
  let empty := map (fun g => {| name := groupName g; teamIndices := [] |})
                   (seq 0 groupCount) in
  d_groups (fold_left (draftStep groupCount) teamIndices
              {| d_groups := empty; d_direction := 1; d_groupIndex := 0 |}).

(** [match.homeTeamIndex !== null ? groupTeams[match.homeTeamIndex] : null],
    followed by [?? null]. *)
Definition remapTeam (groupTeams : list Z) (idx : option Z) : option Z :=
  match idx with
  | Some i => get groupTeams i
  | None => None
  end.

(** One group's round robin, remapped to global indices; the running
    [matchNumber] is threaded through. *)
Definition groupStageStep (acc : list GeneratedMatch * nat)
    (g_group : nat * GeneratedGroup) : list GeneratedMatch * nat :=
  let '(ms, matchNumber) := acc in
  let '(g, group) := g_group in
  let groupTeams := teamIndices group in
  let groupMatches := generateRoundRobin (List.length groupTeams) in
  fold_left
    (fun (a : list GeneratedMatch * nat) (m : GeneratedMatch) =>
       let '(ms', mn) := a in
       (ms' ++ [ {| homeTeamIndex := remapTeam groupTeams (homeTeamIndex m);
                    awayTeamIndex := remapTeam groupTeams (awayTeamIndex m);
                    round := round m;
                    matchNumber := mn;
                    stage := GROUP;
                    groupIndex := Some g |} ],
        mn + 1))
    (matches groupMatches) (ms, matchNumber).

(** [Math.max(...matches.map((m) => m.round), 0)]. *)
Definition lastGroupRoundOf (ms : list GeneratedMatch) : nat :=
  fold_left Nat.max (map round ms) 0.

(** [generateGroupKnockout(teamCount, groupCount, advancingPerGroup)];
    [None] when the knockout bracket generator does not return. *)
Definition generateGroupKnockout (teamCount groupCount advancingPerGroup : nat)
    : option GeneratedTournament :=
  let gs := snakeDraft teamCount groupCount in
  let '(groupMs, matchNumber) :=
    fold_left groupStageStep (combine (seq 0 (List.length gs)) gs) ([], 1) in
  let knockoutTeams := groupCount * advancingPerGroup in
  match generateSingleElimination knockoutTeams with
  | None => None
  | Some knockoutBracket =>
      let lastGroupRound := lastGroupRoundOf groupMs in
      let '(allMs, _) :=
        fold_left
          (fun (a : list GeneratedMatch * nat) (m : GeneratedMatch) =>
             let '(ms', mn) := a in
             (ms' ++ [ {| homeTeamIndex := None;
                          awayTeamIndex := None;
                          round := lastGroupRound + round m;
                          matchNumber := mn;
                          stage := stage m;
                          groupIndex := groupIndex m |} ],
              mn + 1))
          (matches knockoutBracket) (groupMs, matchNumber) in
      Some {| groups := gs; matches := allMs |}
  end.

(** *** Dispatch on the tournament format *)

Inductive TournamentFormat : Type :=
  | ROUND_ROBIN | SINGLE_ELIMINATION | DOUBLE_ELIMINATION | GROUP_KNOCKOUT.

(** The optional [options] argument and its two optional fields. *)
Record GenerateOptions : Type := mkGenerateOptions {
  opt_groupCount : option nat;
  opt_advancingPerGroup : option nat
}.

(** [generateTournamentMatches(format, teamCount, options)].  The format is
    a closed enumeration here, so the source's [default:] branch (throw on
    an unknown format string) has no counterpart; [None] is the outcome of
    a bracket generator that does not return. *)
Definition generateTournamentMatches (format : TournamentFormat)
    (teamCount : nat) (options : option GenerateOptions)
    : option GeneratedTournament :=
  match format with
  | ROUND_ROBIN => Some (generateRoundRobin teamCount)
  | SINGLE_ELIMINATION => generateSingleElimination teamCount
  | DOUBLE_ELIMINATION => generateSingleElimination teamCount
  | GROUP_KNOCKOUT =>
      let groupCount :=
        match options with
        | Some {| opt_groupCount := Some g |} => g
        | _ => Nat.max 2 (teamCount / 4)
        end in
      let advancingPerGroup :=
        match options with
        | Some {| opt_advancingPerGroup := Some a |} => a
        | _ => 2
        end in
      generateGroupKnockout teamCount groupCount advancingPerGroup
  end.

End TournamentFormats.

(** ** Sport handlers ([sports.ts]) *)

Module Sports.
Import JsArray.

Inductive MatchStatus : Type :=
  | SCHEDULED | LIVE | PAUSED | COMPLETED | CANCELLED.

Inductive TeamSide : Type := HOME | AWAY.

(** The side named in a result, ['home' | 'away']. *)
Inductive Winner : Type := home | away.

Definition MatchStatus_eqb (a b : MatchStatus) : bool :=
  match a, b with
  | SCHEDULED, SCHEDULED | LIVE, LIVE | PAUSED, PAUSED
  | COMPLETED, COMPLETED | CANCELLED, CANCELLED => true
  | _, _ => false
  end.

Record SportConfig : Type := mkSportConfig {
  periods : Z;
  periodName : string;
  scoreIncrements : list Z;
  scoreLabels : list string;
  pointsToWinPeriod : option Z;
  canTie : bool
}.

Record MatchState : Type := mkMatchState {
  homeScore : Z;
  awayScore : Z;
  homePeriodScores : list Z;
  awayPeriodScores : list Z;
  currentPeriod : Z;
  status : MatchStatus
}.

(** Result of [shouldEndMatch]: [{ ended, winnerId }]. *)
Record MatchEnd : Type := mkMatchEnd {
  ended : bool;
  winner : option Winner
}.

(** [ScoreActionResult]; an absent optional field is [None] (for [winnerId]
    absent and [null] coincide). *)
Record ScoreActionResult : Type := mkScoreActionResult {
  valid : bool;
  newState : MatchState;
  message : option string;
  periodEnded : option bool;
  matchEnded : option bool;
  winnerId : option Winner
}.

(** A handler is its configuration plus the two methods that the concrete
    sports override; the other methods are shared by all handlers and are
    the functions below, which reach the overridable ones through the
    handler ([this]). *)
Record SportHandler : Type := mkSportHandler {
  config : SportConfig;
  shouldEndPeriod : MatchState -> bool;
  shouldEndMatch : MatchState -> MatchEnd
}.

Record Validation : Type := mkValidation {
  v_valid : bool;
  v_message : option string
}.

Definition validateAction (h : SportHandler) (state : MatchState)
    (_teamSide : TeamSide) (points : Z) : Validation :=
  if negb (MatchStatus_eqb (status state) LIVE) then
    {| v_valid := false; v_message := Some "Match is not live"%string |}
  else if negb (existsb (Z.eqb points) (scoreIncrements (config h))) then
    {| v_valid := false; v_message := Some "Invalid point value"%string |}
  else {| v_valid := true; v_message := None |}.

(** [while (scores.length <= periodIndex) scores = [...scores, 0]]. *)
Fixpoint extendLoop (fuel : nat) (scores : list Z) (periodIndex : Z) : list Z :=
  match fuel with
  | O => scores
  | S fuel' =>
      if (Z.of_nat (List.length scores) <=? periodIndex)%Z
      then extendLoop fuel' (scores ++ [0%Z]) periodIndex
      else scores
  end.

(** The loop appends at most [periodIndex + 1] zeros. *)
Definition extend (scores : list Z) (periodIndex : Z) : list Z :=
  extendLoop (Z.to_nat (periodIndex + 1)) scores periodIndex.

(** [scores[periodIndex] = f(scores[periodIndex])] guarded by
    [!== undefined]. *)
Definition updateBucket (scores : list Z) (periodIndex : Z) (f : Z -> Z)
    : list Z :=
  match get scores periodIndex with
  | Some cur => set scores periodIndex (f cur)
  | None => scores
  end.

Definition applyScore (h : SportHandler) (state : MatchState)
    (teamSide : TeamSide) (points : Z) : ScoreActionResult :=
  let validation := validateAction h state teamSide points in
  if negb (v_valid validation) then
    {| valid := false; newState := state;
       message := Some (match v_message validation with
                        | Some m => m
                        | None => "Invalid action"%string
                        end);
       periodEnded := None; matchEnded := None; winnerId := None |}
  else
    let periodIndex := (currentPeriod state - 1)%Z in
    let homeP := extend (homePeriodScores state) periodIndex in
    let awayP := extend (awayPeriodScores state) periodIndex in
    let newState :=
      match teamSide with
      | HOME =>
          {| homeScore := (homeScore state + points)%Z;
             awayScore := awayScore state;
             homePeriodScores :=
               updateBucket homeP periodIndex (fun cur => (cur + points)%Z);
             awayPeriodScores := awayP;
             currentPeriod := currentPeriod state;
             status := status state |}
      | AWAY =>
          {| homeScore := homeScore state;
             awayScore := (awayScore state + points)%Z;
             homePeriodScores := homeP;
             awayPeriodScores :=
               updateBucket awayP periodIndex (fun cur => (cur + points)%Z);
             currentPeriod := currentPeriod state;
             status := status state |}
      end in
    let periodEnded := shouldEndPeriod h newState in
    let matchResult := shouldEndMatch h newState in
    {| valid := true; newState := newState; message := None;
       periodEnded := Some periodEnded;
       matchEnded := Some (ended matchResult);
       winnerId := winner matchResult |}.

Definition undoScore (state : MatchState) (teamSide : TeamSide)
    (points period : Z) : MatchState :=
  let periodIndex := (period - 1)%Z in
  match teamSide with
  | HOME =>
      {| homeScore := Z.max 0 (homeScore state - points);
         awayScore := awayScore state;
         homePeriodScores :=
           updateBucket (homePeriodScores state) periodIndex
             (fun cur => Z.max 0 (cur - points));
         awayPeriodScores := awayPeriodScores state;
         currentPeriod := currentPeriod state;
         status := status state |}
  | AWAY =>
      {| homeScore := homeScore state;
         awayScore := Z.max 0 (awayScore state - points);
         homePeriodScores := homePeriodScores state;
         awayPeriodScores :=
           updateBucket (awayPeriodScores state) periodIndex
             (fun cur => Z.max 0 (cur - points));
         currentPeriod := currentPeriod state;
         status := status state |}
  end.

Definition nextPeriod (h : SportHandler) (state : MatchState) : MatchState :=
  if (currentPeriod state >=? periods (config h))%Z then state
  else
    {| homeScore := homeScore state;
       awayScore := awayScore state;
       homePeriodScores := homePeriodScores state ++ [0%Z];
       awayPeriodScores := awayPeriodScores state ++ [0%Z];
       currentPeriod := (currentPeriod state + 1)%Z;
       status := status state |}.

(** [createBaseSportHandler(config)]: neither a period nor the match ends
    by itself. *)
Definition createBaseSportHandler (cfg : SportConfig) : SportHandler :=
  {| config := cfg;
     shouldEndPeriod := fun _ => false;
     shouldEndMatch := fun _ => {| ended := false; winner := None |} |}.

(** *** Basketball *)

Definition basketballConfig : SportConfig :=
  {| periods := 4; periodName := "Quarter";
     scoreIncrements := [1; 2; 3]%Z;
     scoreLabels := ["Free Throw"; "2-Point"; "3-Point"]%string;
     pointsToWinPeriod := None; canTie := false |}.

Definition createBasketballHandler : SportHandler :=
  {| config := basketballConfig;
     shouldEndPeriod := fun _ => false;
     shouldEndMatch := fun state =>
       if (currentPeriod state >=? 4)%Z
          && negb (homeScore state =? awayScore state)%Z
       then {| ended := false;
               winner := Some (if (homeScore state >? awayScore state)%Z
                               then home else away) |}
       else {| ended := false; winner := None |} |}.

(** *** Volleyball *)

Definition volleyballConfig : SportConfig :=
  {| periods := 5; periodName := "Set";
     scoreIncrements := [1]%Z;
     scoreLabels := ["Point"]%string;
     pointsToWinPeriod := Some 25%Z; canTie := false |}.

(** [scores[i] ?? 0]. *)
Definition bucket (scores : list Z) (i : Z) : Z :=
  match get scores i with
  | Some v => v
  | None => 0%Z
  end.

Definition volleyball_shouldEndPeriod (state : MatchState) : bool :=
  let periodIndex := (currentPeriod state - 1)%Z in
  let homeSetScore := bucket (homePeriodScores state) periodIndex in
  let awaySetScore := bucket (awayPeriodScores state) periodIndex in
  let pointsToWin := if (currentPeriod state =? 5)%Z then 15%Z else 25%Z in
  let minDiff := 2%Z in
  let homeWins := (homeSetScore >=? pointsToWin)%Z
                  && (homeSetScore - awaySetScore >=? minDiff)%Z in
  let awayWins := (awaySetScore >=? pointsToWin)%Z
                  && (awaySetScore - homeSetScore >=? minDiff)%Z in
  homeWins || awayWins.

(** The counting loop [for (i = 0; i < state.currentPeriod; i++)]: the pair
    is [(homeSets, awaySets)]. *)
Definition countSets (state : MatchState) : nat * nat :=
  fold_left
    (fun (acc : nat * nat) (i : nat) =>
       let '(homeSets, awaySets) := acc in
       let homeSetScore := bucket (homePeriodScores state) (Z.of_nat i) in
       let awaySetScore := bucket (awayPeriodScores state) (Z.of_nat i) in
       if (homeSetScore >? awaySetScore)%Z then (homeSets + 1, awaySets)
       else if (awaySetScore >? homeSetScore)%Z then (homeSets, awaySets + 1)
       else acc)
    (seq 0 (Z.to_nat (currentPeriod state))) (0, 0).

Definition volleyball_shouldEndMatch (state : MatchState) : MatchEnd :=
  let '(homeSets, awaySets) := countSets state in
  if 3 <=? homeSets then {| ended := true; winner := Some home |}
  else if 3 <=? awaySets then {| ended := true; winner := Some away |}
  else {| ended := false; winner := None |}.

Definition createVolleyballHandler : SportHandler :=
  {| config := volleyballConfig;
     shouldEndPeriod := volleyball_shouldEndPeriod;
     shouldEndMatch := volleyball_shouldEndMatch |}.

(** *** Soccer *)

Definition soccerConfig : SportConfig :=
  {| periods := 2; periodName := "Half";
     scoreIncrements := [1]%Z;
     scoreLabels := ["Goal"]%string;
     pointsToWinPeriod := None; canTie := true |}.

Definition createSoccerHandler : SportHandler :=
  {| config := soccerConfig;
     shouldEndPeriod := fun _ => false;
     shouldEndMatch := fun state =>
       if (currentPeriod state >=? 2)%Z then
         if (homeScore state >? awayScore state)%Z
         then {| ended := false; winner := Some home |}
         else if (awayScore state >? homeScore state)%Z
         then {| ended := false; winner := Some away |}
         else {| ended := false; winner := None |}
       else {| ended := false; winner := None |} |}.

(** *** Available actions *)

Record AvailableAction : Type := mkAvailableAction {
  a_points : Z;
  a_label : string;
  a_teamSide : TeamSide
}.

(** Decimal rendering of an integer, as template literals do. *)
Definition string_of_Z (z : Z) : string :=
  NilZero.string_of_int (Z.to_int z).

(** [`${points} Point${points > 1 ? 's' : ''}`]. *)
Definition defaultLabel (points : Z) : string :=
  String.append (string_of_Z points)
    (String.append " Point" (if (points >? 1)%Z then "s" else "")).

(** [getAvailableActions(state)]: for every configured increment, in
    order, one action for HOME and one for AWAY. *)
Definition getAvailableActions (h : SportHandler) (state : MatchState)
    : list AvailableAction :=
  if negb (MatchStatus_eqb (status state) LIVE) then []
  else
    flat_map
      (fun i =>
         match nth_error (scoreIncrements (config h)) i with
         | None => []
         | Some points =>
             let label :=
               match nth_error (scoreLabels (config h)) i with
               | Some l => l
               | None => defaultLabel points
               end in
             [ {| a_points := points; a_label := label; a_teamSide := HOME |};
               {| a_points := points; a_label := label; a_teamSide := AWAY |} ]
         end)
      (seq 0 (List.length (scoreIncrements (config h)))).

(** *** Handler lookup *)

(** The fields of a [Sport] row that the handler lookup reads. *)
Record Sport : Type := mkSport {
  sp_slug : string;
  sp_periods : Z;
  sp_periodName : string;
  sp_scoreIncrements : list Z;
  sp_scoreLabels : list string;
  sp_pointsToWinPeriod : option Z;
  sp_canTie : bool
}.

(** [getSportHandler(sport)]: the built-in handlers by slug, otherwise the
    base handler over the row's own configuration. *)
Definition getSportHandler (sport : Sport) : SportHandler :=
  if String.eqb (sp_slug sport) "basketball" then createBasketballHandler
  else if String.eqb (sp_slug sport) "volleyball" then createVolleyballHandler
  else if String.eqb (sp_slug sport) "soccer" then createSoccerHandler
  else createBaseSportHandler
         {| periods := sp_periods sport;
            periodName := sp_periodName sport;
            scoreIncrements := sp_scoreIncrements sport;
            scoreLabels := sp_scoreLabels sport;
            pointsToWinPeriod := sp_pointsToWinPeriod sport;
            canTie := sp_canTie sport |}.

End Sports.

(** ** Status gates of the match routes ([routes/matches.ts]) *)

Module Lifecycle.
Import Sports.

(** The stored match row, restricted to the fields the lifecycle routes read
    or write. *)
Record Match : Type := mkMatch {
  m_status : MatchStatus;
  m_homeScore : Z;
  m_awayScore : Z;
  m_homePeriodScores : list Z;
  m_awayPeriodScores : list Z;
  m_currentPeriod : Z;
  m_homeTeamId : option string;
  m_awayTeamId : option string;
  m_winnerId : option string;
  m_startedAt : option Z;
  m_endedAt : option Z
}.

(** Outcome of the admin check: the password header is missing, does not
    match the tournament's hash, or matches. *)
Inductive Auth : Type := NoHeader | WrongPassword | GoodPassword.

(** The HTTP reply: status code with either the updated row or an error
    text. *)
Inductive Reply : Type :=
  | Ok (data : Match)
  | Failure (code : nat) (error : string).

(** A route maps the row found for [matchId] (if any) to a reply and the
    row stored afterwards. *)
Definition Outcome : Type := (Reply * option Match)%type.

Definition guarded (row : option Match) (auth : Auth)
    (k : Match -> Outcome) : Outcome :=
  match row with
  | None => (Failure 404 "Match not found", None)
  | Some m =>
      match auth with
      | NoHeader => (Failure 401 "Admin access required", Some m)
      | WrongPassword => (Failure 401 "Invalid password", Some m)
      | GoodPassword => k m
      end
  end.

Definition update (m' : Match) : Outcome := (Ok m', Some m').

(** [POST /api/matches/:matchId/start] *)
Definition startRoute (row : option Match) (auth : Auth) (now : Z) : Outcome :=
  guarded row auth (fun m =>
    if negb (MatchStatus_eqb (m_status m) SCHEDULED)
       && negb (MatchStatus_eqb (m_status m) PAUSED)
    then (Failure 400 "Match cannot be started", Some m)
    else update
      {| m_status := LIVE;
         m_homeScore := m_homeScore m; m_awayScore := m_awayScore m;
         m_homePeriodScores := m_homePeriodScores m;
         m_awayPeriodScores := m_awayPeriodScores m;
         m_currentPeriod := m_currentPeriod m;
         m_homeTeamId := m_homeTeamId m; m_awayTeamId := m_awayTeamId m;
         m_winnerId := m_winnerId m;
         m_startedAt := Some (match m_startedAt m with
                              | Some t => t
                              | None => now
                              end);
         m_endedAt := m_endedAt m |}).

(** [POST /api/matches/:matchId/pause] *)
Definition pauseRoute (row : option Match) (auth : Auth) : Outcome :=
  guarded row auth (fun m =>
    if negb (MatchStatus_eqb (m_status m) LIVE)
    then (Failure 400 "Match is not live", Some m)
    else update
      {| m_status := PAUSED;
         m_homeScore := m_homeScore m; m_awayScore := m_awayScore m;
         m_homePeriodScores := m_homePeriodScores m;
         m_awayPeriodScores := m_awayPeriodScores m;
         m_currentPeriod := m_currentPeriod m;
         m_homeTeamId := m_homeTeamId m; m_awayTeamId := m_awayTeamId m;
         m_winnerId := m_winnerId m;
         m_startedAt := m_startedAt m;
         m_endedAt := m_endedAt m |}).

(** [POST /api/matches/:matchId/end]: no status gate. *)
Definition endRoute (row : option Match) (auth : Auth) (now : Z) : Outcome :=
  guarded row auth (fun m =>
    let winnerId :=
      if (m_homeScore m >? m_awayScore m)%Z then m_homeTeamId m
      else if (m_awayScore m >? m_homeScore m)%Z then m_awayTeamId m
      else None in
    update
      {| m_status := COMPLETED;
         m_homeScore := m_homeScore m; m_awayScore := m_awayScore m;
         m_homePeriodScores := m_homePeriodScores m;
         m_awayPeriodScores := m_awayPeriodScores m;
         m_currentPeriod := m_currentPeriod m;
         m_homeTeamId := m_homeTeamId m; m_awayTeamId := m_awayTeamId m;
         m_winnerId := winnerId;
         m_startedAt := m_startedAt m;
         m_endedAt := Some now |}).

(** [POST /api/matches/:matchId/next-period]; [sportPeriods] is
    [match.tournament.sport.periods].  The only gate is on the period
    number. *)
Definition nextPeriodRoute (row : option Match) (auth : Auth)
    (sportPeriods : Z) : Outcome :=
  guarded row auth (fun m =>
    if (m_currentPeriod m >=? sportPeriods)%Z
    then (Failure 400 "Already at final period", Some m)
    else update
      {| m_status := m_status m;
         m_homeScore := m_homeScore m; m_awayScore := m_awayScore m;
         m_homePeriodScores := m_homePeriodScores m ++ [0%Z];
         m_awayPeriodScores := m_awayPeriodScores m ++ [0%Z];
         m_currentPeriod := (m_currentPeriod m + 1)%Z;
         m_homeTeamId := m_homeTeamId m; m_awayTeamId := m_awayTeamId m;
         m_winnerId := m_winnerId m;
         m_startedAt := m_startedAt m;
         m_endedAt := m_endedAt m |}).

(** *** Scoring and undo routes *)

(** A stored score event. *)
Record ScoreEventRow : Type := mkScoreEventRow {
  e_teamSide : TeamSide;
  e_points : Z;
  e_period : Z;
  e_action : string;
  e_undone : bool
}.

(** What the routes of one match read and write: the match row (if it
    exists) and the score events of that match in creation order (the
    newest last). *)
Record Store : Type := mkStore {
  s_match : option Match;
  s_events : list ScoreEventRow
}.

(** The request body of the score route after JSON decoding: a side (if
    the field holds one of the two sides), the points and the action
    label. *)
Record ScoreBody : Type := mkScoreBody {
  b_teamSide : option TeamSide;
  b_points : Z;
  b_action : string
}.

(** [AddScoreSchema.safeParse]: a side and positive points. *)
Definition parseAddScore (body : ScoreBody) : option (TeamSide * Z * string) :=
  match b_teamSide body with
  | Some side =>
      if (0 <? b_points body)%Z
      then Some (side, b_points body, b_action body)
      else None
  | None => None
  end.

(** The [MatchState] that the score and undo routes build from the row. *)
Definition stateOf (m : Match) : MatchState :=
  {| homeScore := m_homeScore m; awayScore := m_awayScore m;
     homePeriodScores := m_homePeriodScores m;
     awayPeriodScores := m_awayPeriodScores m;
     currentPeriod := m_currentPeriod m; status := m_status m |}.

(** The update shared by the two routes: only the two totals and the two
    period arrays are written. *)
Definition withScores (m : Match) (st : MatchState) : Match :=
  {| m_status := m_status m;
     m_homeScore := homeScore st; m_awayScore := awayScore st;
     m_homePeriodScores := homePeriodScores st;
     m_awayPeriodScores := awayPeriodScores st;
     m_currentPeriod := m_currentPeriod m;
     m_homeTeamId := m_homeTeamId m; m_awayTeamId := m_awayTeamId m;
     m_winnerId := m_winnerId m;
     m_startedAt := m_startedAt m; m_endedAt := m_endedAt m |}.

(** [POST /api/matches/:matchId/score].  [parseError] is the text of the
    schema error.  The reply carries the updated row; the created event is
    the last one of the store. *)
Definition scoreRoute (sport : Sport) (store : Store) (auth : Auth)
    (body : ScoreBody) (parseError : string) : Reply * Store :=
  match s_match store with
  | None => (Failure 404 "Match not found", store)
  | Some m =>
      match auth with
      | NoHeader => (Failure 401 "Admin access required", store)
      | WrongPassword => (Failure 401 "Invalid password", store)
      | GoodPassword =>
          match parseAddScore body with
          | None => (Failure 400 parseError, store)
          | Some (teamSide, points, action) =>
              let handler := getSportHandler sport in
              let result := applyScore handler (stateOf m) teamSide points in
              if negb (valid result) then
                (Failure 400 (match message result with
                              | Some msg => msg
                              | None => "Invalid action"
                              end), store)
              else
                let scoreEvent :=
                  {| e_teamSide := teamSide; e_points := points;
                     e_period := m_currentPeriod m; e_action := action;
                     e_undone := false |} in
                let updated := withScores m (newState result) in
                (Ok updated,
                 {| s_match := Some updated;
                    s_events := s_events store ++ [scoreEvent] |})
          end
      end
  end.

(** The newest event that is not undone, with its position: the query
    [where: { undone: false }, orderBy: { createdAt: 'desc' }, take: 1]. *)
Fixpoint lastActive (events : list ScoreEventRow) (pos : nat)
    : option (nat * ScoreEventRow) :=
  match events with
  | [] => None
  | e :: rest =>
      match lastActive rest (S pos) with
      | Some found => Some found
      | None => if e_undone e then None else Some (pos, e)
      end
  end.

(** [prisma.scoreEvent.update({ data: { undone: true } })] on the event at
    position [pos]. *)
Fixpoint markUndone (events : list ScoreEventRow) (pos : nat)
    : list ScoreEventRow :=
  match events, pos with
  | [], _ => []
  | e :: rest, O =>
      {| e_teamSide := e_teamSide e; e_points := e_points e;
         e_period := e_period e; e_action := e_action e;
         e_undone := true |} :: rest
  | e :: rest, S pos' => e :: markUndone rest pos'
  end.

(** [POST /api/matches/:matchId/undo]. *)
Definition undoRoute (sport : Sport) (store : Store) (auth : Auth)
    : Reply * Store :=
  match s_match store with
  | None => (Failure 404 "Match not found", store)
  | Some m =>
      match auth with
      | NoHeader => (Failure 401 "Admin access required", store)
      | WrongPassword => (Failure 401 "Invalid password", store)
      | GoodPassword =>
          match lastActive (s_events store) 0 with
          | None => (Failure 400 "No score events to undo", store)
          | Some (pos, lastEvent) =>
              let newState :=
                undoScore (stateOf m) (e_teamSide lastEvent)
                  (e_points lastEvent) (e_period lastEvent) in
              let updated := withScores m newState in
              (Ok updated,
               {| s_match := Some updated;
                  s_events := markUndone (s_events store) pos |})
          end
      end
  end.

(** *** The router *)

Inductive Request : Type :=
  | Start (now : Z)
  | Pause
  | End_ (now : Z)
  | Score (body : ScoreBody) (parseError : string)
  | Undo
  | NextPeriod.

Definition liftOutcome (store : Store) (o : Outcome) : Reply * Store :=
  (fst o, {| s_match := snd o; s_events := s_events store |}).

(** One request against one of the six POST routes of a match. *)
Definition handle (sport : Sport) (auth : Auth) (store : Store)
    (req : Request) : Reply * Store :=
  match req with
  | Start now => liftOutcome store (startRoute (s_match store) auth now)
  | Pause => liftOutcome store (pauseRoute (s_match store) auth)
  | End_ now => liftOutcome store (endRoute (s_match store) auth now)
  | Score body parseError => scoreRoute sport store auth body parseError
  | Undo => undoRoute sport store auth
  | NextPeriod =>
      liftOutcome store (nextPeriodRoute (s_match store) auth (sp_periods sport))
  end.

(** A run of requests, each against the store left by the previous one. *)
Definition handleAll (sport : Sport) (store : Store)
    (reqs : list (Auth * Request)) : Store :=
  fold_left (fun st ar => snd (handle sport (fst ar) st (snd ar))) reqs store.

(** *** The update and delete routes, and the whole router *)

(** The fields of a parsed [UpdateMatchSchema] body that are columns of
    [Match].  A field the body leaves out is [None]; a team id may be set
    to [null] ([Some None]).  The schema's other fields (groupId,
    scheduledAt, stage, round, matchNumber) are columns outside [Match]. *)
Record UpdateData : Type := mkUpdateData {
  d_homeTeamId : option (option string);
  d_awayTeamId : option (option string);
  d_status : option MatchStatus
}.

(** [PUT /api/matches/:matchId].  [parsed] is the outcome of
    [UpdateMatchSchema.safeParse]: [None] when it fails, with [parseError]
    as its message.  [dbAccepts] tells whether [prisma.match.update]
    succeeds; when it throws (a team id that does not exist), the [catch]
    block answers 500.  There is no gate on the status. *)
Definition updateRoute (row : option Match) (auth : Auth)
    (parsed : option UpdateData) (parseError : string) (dbAccepts : bool)
    : Outcome :=
  guarded row auth (fun m =>
    match parsed with
    | None => (Failure 400 parseError, Some m)
    | Some data =>
        if dbAccepts then
          update
            {| m_status := match d_status data with
                           | Some s => s
                           | None => m_status m
                           end;
               m_homeScore := m_homeScore m; m_awayScore := m_awayScore m;
               m_homePeriodScores := m_homePeriodScores m;
               m_awayPeriodScores := m_awayPeriodScores m;
               m_currentPeriod := m_currentPeriod m;
               m_homeTeamId := match d_homeTeamId data with
                               | Some v => v
                               | None => m_homeTeamId m
                               end;
               m_awayTeamId := match d_awayTeamId data with
                               | Some v => v
                               | None => m_awayTeamId m
                               end;
               m_winnerId := m_winnerId m;
               m_startedAt := m_startedAt m;
               m_endedAt := m_endedAt m |}
        else (Failure 500 "Failed to update match", Some m)
    end).

(** What the router answers: a reply of one of the routes above, or the
    delete route's [{ success: true }] or error code. *)
Inductive RouterReply : Type :=
  | MatchReply (r : Reply)
  | Deleted
  | NotDeleted (code : nat).

(** Modelled from the spec: the delete operation
    ([DELETE /api/matches/:matchId]), whose route is missing from
    [routes/matches.ts].  The spec allows it only while the status is
    SCHEDULED; the codes are those the route's tests expect (404 for a
    missing match, 401 without admin access, 400 for any other status),
    with the guards in the order of the other routes.  Score events are
    never deleted, so the log stays. *)
Definition deleteRoute (store : Store) (auth : Auth) : RouterReply * Store :=
  match s_match store with
  | None => (NotDeleted 404, store)
  | Some m =>
      match auth with
      | NoHeader | WrongPassword => (NotDeleted 401, store)
      | GoodPassword =>
          if MatchStatus_eqb (m_status m) SCHEDULED
          then (Deleted, {| s_match := None; s_events := s_events store |})
          else (NotDeleted 400, store)
      end
  end.

(** The requests that address one match and may write: the six POST
    routes, the update route and the delete route. *)
Inductive RouterRequest : Type :=
  | Post (req : Request)
  | Put (parsed : option UpdateData) (parseError : string) (dbAccepts : bool)
  | Delete.

Definition route (sport : Sport) (auth : Auth) (store : Store)
    (rreq : RouterRequest) : RouterReply * Store :=
  match rreq with
  | Post req =>
      let r := handle sport auth store req in (MatchReply (fst r), snd r)
  | Put parsed parseError dbAccepts =>
      let r := liftOutcome store
                 (updateRoute (s_match store) auth parsed parseError
                    dbAccepts) in
      (MatchReply (fst r), snd r)
  | Delete => deleteRoute store auth
  end.


End Lifecycle.

(** * Properties *)

Unset Implicit Arguments.

Import JsArray TournamentFormats Sports Lifecycle.

(** ** Vocabulary used by the statements *)

(** The team indices present in a match. *)
Definition teamsOf (m : GeneratedMatch) : list Z :=
  match homeTeamIndex m, awayTeamIndex m with
  | Some h, Some a => [h; a]
  | Some h, None => [h]
  | None, Some a => [a]
  | None, None => []
  end.

(** The match pairs the indices [i] and [j], whichever is home. *)
Definition playsPair (i j : Z) (m : GeneratedMatch) : bool :=
  match homeTeamIndex m, awayTeamIndex m with
  | Some h, Some a => ((h =? i)%Z && (a =? j)%Z) || ((h =? j)%Z && (a =? i)%Z)
  | _, _ => false
  end.

Definition inRound (r : nat) (m : GeneratedMatch) : bool := round m =? r.

(** A bye: a first-round match with exactly one team present. *)
Definition isByeMatch (m : GeneratedMatch) : bool :=
  (round m =? 1) && (List.length (teamsOf m) =? 1).

Definition byeMatches (t : GeneratedTournament) : list GeneratedMatch :=
  filter isByeMatch (matches t).

Definition isGroupStage (m : GeneratedMatch) : bool :=
  match stage m with GROUP => true | _ => false end.

Definition eliminationOf5 : GeneratedTournament :=
  match generateSingleElimination 5 with
  | Some t => t
  | None => {| groups := []; matches := [] |}
  end.

(** The point target of a period: 25, and 15 in period 5. *)
Definition periodTarget (period : Z) : Z :=
  if (period =? 5)%Z then 15%Z else 25%Z.

(** [mine] has reached the target of [period] and leads [theirs] by two. *)
Definition winsPeriod (period mine theirs : Z) : Prop :=
  (periodTarget period <= mine)%Z /\ (2 <= mine - theirs)%Z.

Definition volleyballAt (homeP awayP : list Z) (period : Z) : MatchState :=
  {| homeScore := fold_right Z.add 0%Z homeP;
     awayScore := fold_right Z.add 0%Z awayP;
     homePeriodScores := homeP; awayPeriodScores := awayP;
     currentPeriod := period; status := LIVE |}.

(** Side [w] has won set number [i + 1] by the rule of the set: target
    reached with a two-point lead. *)
Definition setWonBy (w : Winner) (state : MatchState) (i : nat) : bool :=
  let h := bucket (homePeriodScores state) (Z.of_nat i) in
  let a := bucket (awayPeriodScores state) (Z.of_nat i) in
  let target := periodTarget (Z.of_nat i + 1) in
  match w with
  | home => (target <=? h)%Z && (2 <=? h - a)%Z
  | away => (target <=? a)%Z && (2 <=? a - h)%Z
  end.

(** Number of sets won by [w] among the periods played so far. *)
Definition setsWonBy (w : Winner) (state : MatchState) : nat :=
  List.length (filter (setWonBy w state)
                 (seq 0 (Z.to_nat (currentPeriod state)))).

(** Home has won two sets, 25-20 each; the third set has just begun. *)
Definition thirdSetOpen (homeThird : Z) : MatchState :=
  volleyballAt [25%Z; 25%Z; homeThird] [20%Z; 20%Z; 0%Z] 3.

(** A volleyball match that was ended after three sets: it is COMPLETED and
    its period number (3) is below the sport's five periods. *)
Definition completedAfterThreeSets : Match :=
  {| m_status := COMPLETED;
     m_homeScore := 75; m_awayScore := 60;
     m_homePeriodScores := [25; 25; 25]%Z;
     m_awayPeriodScores := [20; 20; 20]%Z;
     m_currentPeriod := 3;
     m_homeTeamId := Some "team-a"%string;
     m_awayTeamId := Some "team-b"%string;
     m_winnerId := Some "team-a"%string;
     m_startedAt := Some 100%Z; m_endedAt := Some 200%Z |}.

Definition sumScores (scores : list Z) : Z := fold_right Z.add 0%Z scores.

(** Each side's total equals the sum of its period buckets. *)
Definition totalsMatchBuckets (s : MatchState) : Prop :=
  homeScore s = sumScores (homePeriodScores s) /\
  awayScore s = sumScores (awayPeriodScores s).

(** What the score route records for an accepted score: side, points and
    the period in which it was applied. *)
Record ScoreEvent : Type := mkScoreEvent {
  ev_teamSide : TeamSide;
  ev_points : Z;
  ev_period : Z
}.

(** A run of [applyScore] calls, each on the state returned by the previous
    one.  [None] if some call is rejected; otherwise the final state and the
    log of events, most recent first. *)
Fixpoint applyAll (h : SportHandler) (state : MatchState)
    (actions : list (TeamSide * Z)) : option (MatchState * list ScoreEvent) :=
  match actions with
  | [] => Some (state, [])
  | (side, points) :: rest =>
      let r := applyScore h state side points in
      if valid r then
        match applyAll h (newState r) rest with
        | Some (final, events) =>
            Some (final,
                  events ++ [ {| ev_teamSide := side; ev_points := points;
                                 ev_period := currentPeriod state |} ])
        | None => None
        end
      else None
  end.

(** [undoScore] for every logged event, in the order of the log. *)
Definition undoAll (state : MatchState) (events : list ScoreEvent)
    : MatchState :=
  fold_left
    (fun st e => undoScore st (ev_teamSide e) (ev_points e) (ev_period e))
    events state.

(** Scores and buckets are not negative (as the match schema requires). *)
Definition nonNegative (s : MatchState) : Prop :=
  (0 <= homeScore s)%Z /\ (0 <= awayScore s)%Z /\
  Forall (fun v => 0 <= v)%Z (homePeriodScores s) /\
  Forall (fun v => 0 <= v)%Z (awayPeriodScores s).

(** Both period arrays already reach the current period. *)
Definition bucketsReachPeriod (s : MatchState) : Prop :=
  (currentPeriod s <= Z.of_nat (List.length (homePeriodScores s)))%Z /\
  (currentPeriod s <= Z.of_nat (List.length (awayPeriodScores s)))%Z.

(** A freshly created live match: no score, empty period arrays, period 1. *)
Definition freshLiveMatch : MatchState :=
  {| homeScore := 0; awayScore := 0;
     homePeriodScores := []; awayPeriodScores := [];
     currentPeriod := 1; status := LIVE |}.

(** The seeding order in the words of the specification, indexed by the
    exponent: [seedOrder e] is seed(2^e), the order for [2^e] first-round
    pairings in a bracket of [2^(e+1)] slots.  seed(1) = [0,1]; seed(2k)
    emits, for every entry [s] of seed(k), [s] and then
    [bracketSize - 1 - s]. *)
Fixpoint seedOrder (e : nat) : list Z :=
  match e with
  | O => [0; 1]%Z
  | S e' =>
      flat_map (fun s => [s; (Z.of_nat (2 ^ S (S e')) - 1 - s)%Z])
               (seedOrder e')
  end.


(** The part of a generated match that the round-robin properties speak
    about: home index, away index and round. *)
Definition pairingOf (m : GeneratedMatch) : option Z * option Z * nat :=
  (homeTeamIndex m, awayTeamIndex m, round m).

(** The pairings pushed by one pass of the inner loop over the array
    [teams]. *)
Definition roundPairings (n round : nat) (teams : list Z)
    : list (option Z * option Z * nat) :=
  flat_map
    (fun k =>
       match nth_error teams k, nth_error teams (n - 1 - k) with
       | Some h, Some a =>
           if negb (h =? -1)%Z && negb (a =? -1)%Z
           then [(Some h, Some a, round + 1)] else []
       | _, _ => []
       end)
    (seq 0 (n / 2)).

(** Content of array slot [i] at the start: a team, or the bye marker. *)
Definition slotValue (teamCount i : nat) : Z :=
  if i <? teamCount then Z.of_nat i else (-1)%Z.

(** The initial slot number found at position [p] after [r] rotations of an
    array with positions [0 .. M]: position 0 is fixed, the others turn. *)
Definition posAfter (M r p : nat) : nat :=
  if p =? 0 then 0 else if p <=? r then M - r + p else p - r.

(** One cell of the schedule over slot numbers: the pairing of positions
    [k] and [M - k] in round [r], dropped when it touches the bye slot. *)
Definition scheduleCell (teamCount M r k : nat) : list (nat * nat * nat) :=
  let a := posAfter M r k in
  let b := posAfter M r (M - k) in
  if (a <? teamCount) && (b <? teamCount) then [(a, b, r + 1)] else [].

Definition schedule (teamCount M : nat) : list (nat * nat * nat) :=
  flat_map (fun r => flat_map (scheduleCell teamCount M r) (seq 0 (S M / 2)))
           (seq 0 M).

Definition liftPairing (c : nat * nat * nat) : option Z * option Z * nat :=
  let '(a, b, r) := c in (Some (Z.of_nat a), Some (Z.of_nat b), r).

(** A pairing as an unordered pair: smaller index first. *)
Definition unordered (c : nat * nat * nat) : nat * nat :=
  let '(a, b, _) := c in (Nat.min a b, Nat.max a b).

(** All pairs [(x, y)] with [x < y < n]. *)
Fixpoint allPairs (n : nat) : list (nat * nat) :=
  match n with
  | O => []
  | S k => allPairs k ++ map (fun x => (x, k)) (seq 0 k)
  end.

(** [teamsOf], [playsPair] and [inRound] read off a pairing. *)
Definition teamsOfPairing (t : option Z * option Z * nat) : list Z :=
  let '(home_, away_, _) := t in
  match home_, away_ with
  | Some h, Some a => [h; a]
  | Some h, None => [h]
  | None, Some a => [a]
  | None, None => []
  end.

Definition playsPairPairing (i j : Z) (t : option Z * option Z * nat) : bool :=
  let '(home_, away_, _) := t in
  match home_, away_ with
  | Some h, Some a => ((h =? i)%Z && (a =? j)%Z) || ((h =? j)%Z && (a =? i)%Z)
  | _, _ => false
  end.

Definition inRoundPairing (r : nat) (t : option Z * option Z * nat) : bool :=
  let '(_, _, round_) := t in round_ =? r.

(** The same on slot numbers. *)
Definition playsPairSlots (x y : nat) (c : nat * nat * nat) : bool :=
  let '(a, b, _) := c in ((a =? x) && (b =? y)) || ((a =? y) && (b =? x)).

Definition slotsOf (c : nat * nat * nat) : list nat :=
  let '(a, b, _) := c in [a; b].

Definition inRoundSlots (r : nat) (c : nat * nat * nat) : bool :=
  let '(_, _, round_) := c in round_ =? r.

(** The order that the seeding step consumes to build [seedOrder e]: the
    order of the bracket of half the size ([[0]] below the smallest
    bracket). *)
Definition smallerOrder (e : nat) : list Z :=
  match e with
  | O => [0%Z]
  | S e' => seedOrder e'
  end.

(** [isByeMatch] read off a pairing. *)
Definition isByePairing (t : option Z * option Z * nat) : bool :=
  (snd t =? 1) && (List.length (teamsOfPairing t) =? 1).

Definition isFinalStage (m : GeneratedMatch) : bool :=
  match stage m with FINAL => true | _ => false end.

(** What every match pushed by the round-robin loops looks like, and how
    the running match number follows the list. *)
Definition rrWellFormed (st : RRState) : Prop :=
  rr_matchNumber st = 1 + List.length (rr_matches st) /\
  map matchNumber (rr_matches st) = seq 1 (List.length (rr_matches st)) /\
  Forall (fun m => stage m = GROUP /\ groupIndex m = None) (rr_matches st).

(** Number of teams drafted into group [g] (0 if there is no such group). *)
Definition groupSize (gs : list GeneratedGroup) (g : nat) : nat :=
  match nth_error gs g with
  | Some group => List.length (teamIndices group)
  | None => 0
  end.

(** The state kept by the snake draft over [G] groups once the teams [ts]
    are drafted: [G] named groups that hold exactly [ts]; a direction of
    +1 or -1 and a group index inside the range; and sizes that follow the
    sweep: the groups already passed in the current sweep hold one team
    more than the others. *)
Definition draftInvariant (G : nat) (ts : list Z) (st : DraftState) : Prop :=
  List.length (d_groups st) = G /\
  map name (d_groups st) = map groupName (seq 0 G) /\
  Permutation (flat_map teamIndices (d_groups st)) ts /\
  (d_direction st = 1 \/ d_direction st = -1)%Z /\
  (0 <= d_groupIndex st < Z.of_nat G)%Z /\
  exists m, forall g, g < G ->
    groupSize (d_groups st) g
    = m + (if (d_direction st =? 1)%Z
           then (if (Z.of_nat g <? d_groupIndex st)%Z then 1 else 0)
           else (if (d_groupIndex st <? Z.of_nat g)%Z then 1 else 0)).

(** The list pushed by a loop that appends [f matchNumber m] for every [m]
    and increments the running match number. *)
Fixpoint numbered (f : nat -> GeneratedMatch -> GeneratedMatch) (mn : nat)
    (l : list GeneratedMatch) : list GeneratedMatch :=
  match l with
  | [] => []
  | m :: l' => f mn m :: numbered f (S mn) l'
  end.

(** A round-robin match of a group, remapped to global indices, as the
    group loop pushes it. *)
Definition regroup (g : nat) (groupTeams : list Z) (mn : nat)
    (m : GeneratedMatch) : GeneratedMatch :=
  {| homeTeamIndex := remapTeam groupTeams (homeTeamIndex m);
     awayTeamIndex := remapTeam groupTeams (awayTeamIndex m);
     round := round m;
     matchNumber := mn;
     stage := GROUP;
     groupIndex := Some g |}.

(** A knockout placeholder as the last loop pushes it. *)
Definition knockoutPlaceholder (lastGroupRound mn : nat) (m : GeneratedMatch)
    : GeneratedMatch :=
  {| homeTeamIndex := None;
     awayTeamIndex := None;
     round := lastGroupRound + round m;
     matchNumber := mn;
     stage := stage m;
     groupIndex := groupIndex m |}.

(** All group-stage matches, group after group, numbered from [mn]. *)
Fixpoint groupStage (mn : nat) (ggs : list (nat * GeneratedGroup))
    : list GeneratedMatch :=
  match ggs with
  | [] => []
  | (g, group) :: rest =>
      let ms := matches (generateRoundRobin (List.length (teamIndices group))) in
      numbered (regroup g (teamIndices group)) mn ms
      ++ groupStage (mn + List.length ms) rest
  end.
(** The options accepted by the generate route's schema: a group count and
    a number advancing per group, when given, are at least 1. *)
Definition optionsValid (options : option GenerateOptions) : Prop :=
  match options with
  | None => True
  | Some o =>
      match opt_groupCount o with Some g => 1 <= g | None => True end /\
      match opt_advancingPerGroup o with Some a => 1 <= a | None => True end
  end.

(** Both period arrays have exactly one entry per period played so far. *)
Definition periodArraysAligned (s : MatchState) : Prop :=
  Z.of_nat (List.length (homePeriodScores s)) = currentPeriod s /\
  Z.of_nat (List.length (awayPeriodScores s)) = currentPeriod s.

(** The points credited to [side] when [scorer] scores [points]. *)
Definition creditTo (side scorer : TeamSide) (points : Z) : Z :=
  match side, scorer with
  | HOME, HOME | AWAY, AWAY => points
  | _, _ => 0%Z
  end.

(** An event with its undone flag set. *)
Definition undone (e : ScoreEventRow) : ScoreEventRow :=
  {| e_teamSide := e_teamSide e; e_points := e_points e;
     e_period := e_period e; e_action := e_action e; e_undone := true |}.

(** The event a successful score request stores. *)
Definition eventOf (side : TeamSide) (points period : Z) (action : string)
    : ScoreEventRow :=
  {| e_teamSide := side; e_points := points; e_period := period;
     e_action := action; e_undone := false |}.

(** The status of the stored match, if there is one. *)
Definition statusOf (store : Store) : option MatchStatus :=
  option_map m_status (s_match store).

(** One event is the other up to the undone flag, which is never reset. *)
Definition sameEventLater (e e' : ScoreEventRow) : Prop :=
  e_teamSide e' = e_teamSide e /\ e_points e' = e_points e /\
  e_period e' = e_period e /\ e_action e' = e_action e /\
  (e_undone e = true -> e_undone e' = true).
(** The requests that write the status column. *)
Definition statusChange (req : Request) (old new : MatchStatus) : Prop :=
  match req with
  | Start _ => (old = SCHEDULED \/ old = PAUSED) /\ new = LIVE
  | Pause => old = LIVE /\ new = PAUSED
  | End_ _ => new = COMPLETED
  | Score _ _ | Undo | NextPeriod => False
  end.

(** The reply to a request that is turned away before its route looks at
    the match: no match row, or no valid admin password. *)
Definition refusal (row : option Match) (auth : Auth) : Reply :=
  match row with
  | None => Failure 404 "Match not found"
  | Some _ =>
      match auth with
      | NoHeader => Failure 401 "Admin access required"
      | _ => Failure 401 "Invalid password"
      end
  end.





(** The router requests that write the status column, with the status
    they write: start, pause and end as above, and an update that is
    stored and carries a status. *)
Definition routerStatusChange (rreq : RouterRequest) (old new : MatchStatus)
    : Prop :=
  match rreq with
  | Post req => statusChange req old new
  | Put (Some data) _ true => d_status data = Some new
  | Put _ _ _ | Delete => False
  end.


(** ** Degenerate round robins (C10) *)

(** C10.  For [teamCount = 0] and [teamCount = 1] the round-robin generator
    returns a tournament with no match and no group.  (The generator is a
    total function: nothing in it can throw.) *)
Theorem C10_roundRobin_degenerate :
  generateRoundRobin 0 = {| groups := []; matches := [] |} /\
  generateRoundRobin 1 = {| groups := []; matches := [] |}.
Proof. split; reflexivity. Qed.

(** ** Byes of the five-team bracket (C5) *)

(** C5, as stated, does not hold: the five-team bracket has three byes, but
    one of them belongs to team index 2, so not every bye team is 0 or 1. *)
Lemma C5_byes_not_all_top_two :
  ~ (List.length (byeMatches eliminationOf5) = 3 /\
     forall m, In m (byeMatches eliminationOf5) ->
               teamsOf m = [0%Z] \/ teamsOf m = [1%Z]).
Proof.
  intros [_ H].
  assert (Hin : In {| homeTeamIndex := Some 2%Z; awayTeamIndex := None;
                      round := 1; matchNumber := 4; stage := QUARTERFINAL;
                      groupIndex := None |} (byeMatches eliminationOf5)).
  { vm_compute. right; right; left; reflexivity. }
  destruct (H _ Hin) as [E | E]; discriminate E.
Qed.

(** C5, amended.  [generateSingleElimination(5)] returns a bracket with
    exactly three byes, and the teams that receive them are the indices
    0, 1 and 2 (in match order), the three lowest seeds. *)
Theorem C5_byes_of_five_teams :
  generateSingleElimination 5 = Some eliminationOf5 /\
  List.length (byeMatches eliminationOf5) = 3 /\
  map teamsOf (byeMatches eliminationOf5) = [[0%Z]; [1%Z]; [2%Z]].
Proof. repeat split. Qed.

(** ** Group + knockout for eight teams (C8) *)

(** C8.  [generateGroupKnockout(8, 2, 2)] returns two groups of four team
    indices; team 0 is placed in the first group and team 1 in the second,
    and no group holds both; its match list is twelve group-stage matches
    followed by exactly three knockout matches, two semifinals and the
    final. *)
Theorem C8_groupKnockout_8_2_2 :
  exists t groupMs knockoutMs,
    generateGroupKnockout 8 2 2 = Some t /\
    map (fun g => List.length (teamIndices g)) (groups t) = [4; 4] /\
    (exists gA gB,
       groups t = [gA; gB] /\
       In 0%Z (teamIndices gA) /\ In 1%Z (teamIndices gB)) /\
    (forall g, In g (groups t) ->
               ~ (In 0%Z (teamIndices g) /\ In 1%Z (teamIndices g))) /\
    matches t = groupMs ++ knockoutMs /\
    List.length groupMs = 12 /\
    forallb isGroupStage groupMs = true /\
    List.length (filter isGroupStage (matches t)) = 12 /\
    map stage knockoutMs = [SEMIFINAL; SEMIFINAL; FINAL].
Proof.
  destruct (generateGroupKnockout 8 2 2) as [t|] eqn:E; [|discriminate E].
  exists t, (firstn 12 (matches t)), (skipn 12 (matches t)).
  vm_compute in E. injection E as <-.
  split; [reflexivity|]. split; [reflexivity|].
  split.
  { do 2 eexists. split; [reflexivity|]. cbn. split; [now left | now left]. }
  repeat split.
  intros g [<- | [<- | []]] [H0 H1]; simpl in H0, H1;
    repeat (destruct H0 as [H0 | H0]; try discriminate H0);
    repeat (destruct H1 as [H1 | H1]; try discriminate H1);
    try contradiction.
Qed.

(** ** Volleyball: end of a set (C7) *)

(** C7.  The volleyball handler reports the end of the period exactly when
    one side's bucket of the current period (0 if missing) has reached the
    period's target, 25 or 15 in period 5, with a lead of at least two;
    home at 25 against 20 in period 1 ends the period. *)
Theorem C7_volleyball_shouldEndPeriod :
  (forall state,
     let h := bucket (homePeriodScores state) (currentPeriod state - 1) in
     let a := bucket (awayPeriodScores state) (currentPeriod state - 1) in
     shouldEndPeriod createVolleyballHandler state = true <->
     winsPeriod (currentPeriod state) h a \/
     winsPeriod (currentPeriod state) a h) /\
  shouldEndPeriod createVolleyballHandler
    (volleyballAt [25%Z] [20%Z] 1) = true.
Proof.
  split; [|reflexivity].
  intros state h a. subst h a.
  unfold winsPeriod, periodTarget. simpl.
  unfold volleyball_shouldEndPeriod.
  rewrite orb_true_iff, !andb_true_iff, !Z.geb_le.
  reflexivity.
Qed.

(** ** Volleyball: end of the match (C6) *)

(** C6, behaviour of the code at the failing input.  With two sets won and
    the first rally of the third set scored by home, [shouldEndMatch]
    already answers [{ended: true, winnerId: 'home'}]: the counting loop
    counts the unfinished current set as won by whoever leads in it.
    [applyScore] passes this verdict on as [matchEnded]. *)
Theorem C6_shouldEndMatch_counts_open_set :
  setsWonBy home (thirdSetOpen 1) = 2 /\
  setsWonBy away (thirdSetOpen 1) = 0 /\
  countSets (thirdSetOpen 1) = (3, 0) /\
  shouldEndMatch createVolleyballHandler (thirdSetOpen 1)
    = {| ended := true; winner := Some home |} /\
  newState (applyScore createVolleyballHandler (thirdSetOpen 0) HOME 1)
    = thirdSetOpen 1 /\
  matchEnded (applyScore createVolleyballHandler (thirdSetOpen 0) HOME 1)
    = Some true.
Proof. repeat split. Qed.

(** The count kept by [shouldEndMatch] is never below the number of sets
    really won, so three sets won do end the match. *)
Lemma countSets_step_fst (state : MatchState) (l : list nat) (acc : nat * nat) :
  fst (fold_left
    (fun (acc : nat * nat) (i : nat) =>
       let '(homeSets, awaySets) := acc in
       let homeSetScore := bucket (homePeriodScores state) (Z.of_nat i) in
       let awaySetScore := bucket (awayPeriodScores state) (Z.of_nat i) in
       if (homeSetScore >? awaySetScore)%Z then (homeSets + 1, awaySets)
       else if (awaySetScore >? homeSetScore)%Z then (homeSets, awaySets + 1)
       else acc) l acc)
  >= fst acc + List.length (filter (setWonBy home state) l).
Proof.
  revert acc. induction l as [|i l IH]; intros [hs as_]; [simpl; lia|].
  cbn [fold_left filter fst].
  assert (Hw : setWonBy home state i = true ->
               (bucket (homePeriodScores state) (Z.of_nat i) >?
                bucket (awayPeriodScores state) (Z.of_nat i))%Z = true).
  { unfold setWonBy. rewrite andb_true_iff, !Z.leb_le. lia. }
  destruct (_ >? _)%Z.
  - specialize (IH (hs + 1, as_)). cbn [fst] in IH.
    destruct (setWonBy home state i); cbn [List.length]; lia.
  - destruct (setWonBy home state i); [discriminate (Hw eq_refl)|].
    destruct (_ >? _)%Z;
      [specialize (IH (hs, as_ + 1)) | specialize (IH (hs, as_))];
      cbn [fst] in IH; lia.
Qed.

Lemma countSets_home_ge (state : MatchState) :
  setsWonBy home state <= fst (countSets state).
Proof. exact (countSets_step_fst state _ (0, 0)). Qed.

Lemma three_sets_won_end_match (state : MatchState) :
  3 <= setsWonBy home state ->
  shouldEndMatch createVolleyballHandler state
    = {| ended := true; winner := Some home |}.
Proof.
  intros H. pose proof (countSets_home_ge state) as Hc.
  simpl. unfold volleyball_shouldEndMatch.
  destruct (countSets state) as [hs as_]. cbn [fst] in Hc.
  destruct (Nat.leb_spec 3 hs); [reflexivity | lia].
Qed.

(** ** Status gates of the lifecycle routes (C4) *)

(** C4, as stated, does not hold for the advance-period operation: on a
    COMPLETED match whose period number is below the sport's period count
    the route succeeds and rewrites the stored row. *)
Lemma C4_nextPeriod_accepts_completed :
  m_status completedAfterThreeSets = COMPLETED /\
  exists m',
    nextPeriodRoute (Some completedAfterThreeSets) GoodPassword 5
      = (Ok m', Some m') /\
    m' <> completedAfterThreeSets /\
    m_currentPeriod m' = 4%Z.
Proof.
  split; [reflexivity|].
  eexists. split; [reflexivity|]. split; [discriminate | reflexivity].
Qed.

(** C4, amended.  For an authenticated admin and a COMPLETED match: start
    and pause are refused with a 400 error and the stored row stays as it
    was; advance-period is refused (400, row untouched) exactly when the
    period number has reached the sport's period count, and otherwise
    succeeds.  The end operation has no status gate: it succeeds from every
    status, in particular from every non-terminal one, and stores
    COMPLETED. *)
Theorem C4_status_gates (m : Match) (now sportPeriods : Z) :
  m_status m = COMPLETED ->
  startRoute (Some m) GoodPassword now
    = (Failure 400 "Match cannot be started", Some m) /\
  pauseRoute (Some m) GoodPassword
    = (Failure 400 "Match is not live", Some m) /\
  ((sportPeriods <= m_currentPeriod m)%Z ->
   nextPeriodRoute (Some m) GoodPassword sportPeriods
     = (Failure 400 "Already at final period", Some m)) /\
  ((m_currentPeriod m < sportPeriods)%Z ->
   exists m', nextPeriodRoute (Some m) GoodPassword sportPeriods
                = (Ok m', Some m') /\
              m_status m' = COMPLETED /\
              m_currentPeriod m' = (m_currentPeriod m + 1)%Z) /\
  (forall other : Match,
   exists m', endRoute (Some other) GoodPassword now = (Ok m', Some m') /\
              m_status m' = COMPLETED /\ m_endedAt m' = Some now).
Proof.
  intros Hst. unfold startRoute, pauseRoute, nextPeriodRoute, endRoute.
  cbn [guarded]. rewrite Hst. cbn [MatchStatus_eqb negb andb].
  repeat split.
  - intros Hp. destruct (Z.geb_spec (m_currentPeriod m) sportPeriods);
      [reflexivity | lia].
  - intros Hp. destruct (Z.geb_spec (m_currentPeriod m) sportPeriods);
      [lia|].
    eexists. unfold update. split; [reflexivity|].
    split; reflexivity.
  - intros other. eexists. unfold update. split; [reflexivity|].
    split; reflexivity.
Qed.

Lemma C4_status_gates_witness :
  m_status completedAfterThreeSets = COMPLETED /\
  startRoute (Some completedAfterThreeSets) GoodPassword 300
    = (Failure 400 "Match cannot be started", Some completedAfterThreeSets).
Proof.
  split; [reflexivity|].
  exact (proj1 (C4_status_gates completedAfterThreeSets 300 5 eq_refl)).
Defined.

(** ** Facts about the array primitives *)

Section ArrayFacts.
Context {A : Type}.

Lemma nth_error_set_nth_eq (l : list A) (i : nat) (x : A) :
  i < List.length l -> nth_error (set_nth i x l) i = Some x.
Proof.
  revert i. induction l as [|y l IH]; intros [|i] H; simpl in *;
    try lia; try reflexivity.
  apply IH. lia.
Qed.

Lemma set_nth_set_nth (l : list A) (i : nat) (x y : A) :
  set_nth i y (set_nth i x l) = set_nth i y l.
Proof.
  revert i. induction l as [|z l IH]; intros [|i]; simpl; try reflexivity.
  now rewrite IH.
Qed.

Lemma set_nth_same (l : list A) (i : nat) (x : A) :
  nth_error l i = Some x -> set_nth i x l = l.
Proof.
  revert i. induction l as [|z l IH]; intros [|i] H; simpl in *;
    try discriminate; try congruence.
  now rewrite (IH i H).
Qed.

Lemma length_set_nth (l : list A) (i : nat) (x : A) :
  List.length (set_nth i x l) = List.length l.
Proof.
  revert i. induction l as [|z l IH]; intros [|i]; simpl; auto.
Qed.

Lemma Forall_set_nth (P : A -> Prop) (l : list A) (i : nat) (x : A) :
  Forall P l -> P x -> Forall P (set_nth i x l).
Proof.
  intros Hl Hx. revert i.
  induction Hl as [|z l Hz Hl IH]; intros [|i]; simpl; auto.
Qed.

Lemma get_Some_lt (l : list A) (i : Z) (x : A) :
  get l i = Some x ->
  (0 <= i)%Z /\ Z.to_nat i < List.length l /\
  nth_error l (Z.to_nat i) = Some x.
Proof.
  unfold get. destruct (Z.ltb_spec i 0); [discriminate|].
  intros H'. repeat split; auto.
  apply nth_error_Some. congruence.
Qed.

Lemma get_in_range (l : list A) (i : Z) :
  (0 <= i < Z.of_nat (List.length l))%Z -> exists x, get l i = Some x.
Proof.
  intros H. unfold get. destruct (Z.ltb_spec i 0); [lia|].
  destruct (nth_error l (Z.to_nat i)) eqn:E; [eauto|].
  apply nth_error_None in E. lia.
Qed.
End ArrayFacts.

(** ** Facts about the scoring engine *)

Lemma sumScores_app (l l' : list Z) :
  sumScores (l ++ l') = (sumScores l + sumScores l')%Z.
Proof. induction l as [|x l IH]; simpl; [reflexivity | rewrite IH; lia]. Qed.

Lemma sumScores_repeat0 (k : nat) : sumScores (repeat 0%Z k) = 0%Z.
Proof. induction k; simpl; auto. Qed.

Lemma sumScores_set_nth (l : list Z) (i : nat) (old x : Z) :
  nth_error l i = Some old ->
  sumScores (set_nth i x l) = (sumScores l - old + x)%Z.
Proof.
  revert i. induction l as [|y l IH]; intros [|i] H; simpl in *;
    try discriminate.
  - injection H as ->. lia.
  - rewrite (IH i H). lia.
Qed.

Lemma extendLoop_closed (periodIndex : Z) (fuel : nat) (scores : list Z) :
  Z.to_nat (periodIndex + 1) - List.length scores <= fuel ->
  extendLoop fuel scores periodIndex =
  scores ++ repeat 0%Z (Z.to_nat (periodIndex + 1) - List.length scores).
Proof.
  revert scores. induction fuel as [|fuel IH]; intros scores H; simpl.
  - replace (Z.to_nat (periodIndex + 1) - List.length scores) with 0 by lia.
    now rewrite app_nil_r.
  - destruct (Z.leb_spec (Z.of_nat (List.length scores)) periodIndex).
    + rewrite IH by (rewrite length_app; simpl; lia).
      rewrite length_app. simpl.
      replace (Z.to_nat (periodIndex + 1) - List.length scores)
        with (S (Z.to_nat (periodIndex + 1) - (List.length scores + 1)))
        by lia.
      simpl. now rewrite <- app_assoc.
    + replace (Z.to_nat (periodIndex + 1) - List.length scores) with 0 by lia.
      now rewrite app_nil_r.
Qed.

(** The padding loop appends zeros up to length [periodIndex + 1]. *)
Lemma extend_closed (scores : list Z) (periodIndex : Z) :
  extend scores periodIndex =
  scores ++ repeat 0%Z (Z.to_nat (periodIndex + 1) - List.length scores).
Proof. unfold extend. apply extendLoop_closed. lia. Qed.

Lemma extend_long_enough (scores : list Z) (periodIndex : Z) :
  (periodIndex < Z.of_nat (List.length scores))%Z ->
  extend scores periodIndex = scores.
Proof.
  intros H. rewrite extend_closed.
  replace (Z.to_nat (periodIndex + 1) - List.length scores) with 0 by lia.
  apply app_nil_r.
Qed.

Lemma sumScores_extend (scores : list Z) (periodIndex : Z) :
  sumScores (extend scores periodIndex) = sumScores scores.
Proof.
  rewrite extend_closed, sumScores_app, sumScores_repeat0. lia.
Qed.

Lemma length_extend (scores : list Z) (periodIndex : Z) :
  (periodIndex < Z.of_nat (List.length (extend scores periodIndex)))%Z.
Proof. rewrite extend_closed, length_app, repeat_length. lia. Qed.

Lemma sumScores_updateBucket (scores : list Z) (i : Z) (f : Z -> Z) :
  (0 <= i < Z.of_nat (List.length scores))%Z ->
  exists cur, get scores i = Some cur /\
    sumScores (updateBucket scores i f) = (sumScores scores - cur + f cur)%Z.
Proof.
  intros H. destruct (get_in_range scores i H) as [cur Hc].
  exists cur. split; [exact Hc|].
  unfold updateBucket. rewrite Hc. unfold set.
  destruct (get_Some_lt _ _ _ Hc) as (H0 & _ & Hn).
  destruct (Z.ltb_spec i 0); [lia|].
  now apply sumScores_set_nth.
Qed.

(** Undoing an update of a bucket restores the array. *)
Lemma updateBucket_undo (scores : list Z) (i : Z) (f g : Z -> Z) :
  (forall cur, get scores i = Some cur -> g (f cur) = cur) ->
  updateBucket (updateBucket scores i f) i g = scores.
Proof.
  intros Hgf. unfold updateBucket at 2.
  destruct (get scores i) as [cur|] eqn:Hc.
  - destruct (get_Some_lt _ _ _ Hc) as (H0 & Hlt & Hn).
    unfold updateBucket, get, set.
    destruct (Z.ltb_spec i 0); [lia|].
    rewrite nth_error_set_nth_eq by exact Hlt.
    rewrite set_nth_set_nth, (Hgf cur eq_refl).
    now apply set_nth_same.
  - unfold updateBucket. now rewrite Hc.
Qed.

Lemma Forall_updateBucket (P : Z -> Prop) (scores : list Z) (i : Z)
    (f : Z -> Z) :
  Forall P scores -> (forall cur, P cur -> P (f cur)) ->
  Forall P (updateBucket scores i f).
Proof.
  intros HP Hf. unfold updateBucket.
  destruct (get scores i) as [cur|] eqn:Hc; [|exact HP].
  destruct (get_Some_lt _ _ _ Hc) as (H0 & Hlt & Hn).
  unfold set. destruct (Z.ltb_spec i 0); [lia|].
  apply Forall_set_nth; [exact HP|].
  apply Hf. rewrite Forall_forall in HP. apply HP.
  eapply nth_error_In; eassumption.
Qed.

Lemma length_updateBucket (scores : list Z) (i : Z) (f : Z -> Z) :
  List.length (updateBucket scores i f) = List.length scores.
Proof.
  unfold updateBucket. destruct (get scores i); [|reflexivity].
  unfold set. destruct (i <? 0)%Z; [reflexivity | apply length_set_nth].
Qed.

(** A successful [applyScore] has passed [validateAction]. *)
Lemma applyScore_valid_inv (h : SportHandler) (state : MatchState)
    (side : TeamSide) (points : Z) :
  valid (applyScore h state side points) = true ->
  status state = LIVE /\ In points (scoreIncrements (config h)).
Proof.
  unfold applyScore, validateAction.
  destruct (status state); cbn; try discriminate.
  destruct (existsb (Z.eqb points) (scoreIncrements (config h))) eqn:E;
    cbn; try discriminate.
  intros _. split; [reflexivity|].
  apply existsb_exists in E. destruct E as (x & Hin & Heq).
  apply Z.eqb_eq in Heq. now subst.
Qed.

(** The state computed by a successful [applyScore]. *)
Lemma applyScore_newState (h : SportHandler) (state : MatchState)
    (side : TeamSide) (points : Z) :
  valid (applyScore h state side points) = true ->
  newState (applyScore h state side points) =
  let periodIndex := (currentPeriod state - 1)%Z in
  let homeP := extend (homePeriodScores state) periodIndex in
  let awayP := extend (awayPeriodScores state) periodIndex in
  match side with
  | HOME =>
      {| homeScore := (homeScore state + points)%Z;
         awayScore := awayScore state;
         homePeriodScores :=
           updateBucket homeP periodIndex (fun cur => (cur + points)%Z);
         awayPeriodScores := awayP;
         currentPeriod := currentPeriod state;
         status := status state |}
  | AWAY =>
      {| homeScore := homeScore state;
         awayScore := (awayScore state + points)%Z;
         homePeriodScores := homeP;
         awayPeriodScores :=
           updateBucket awayP periodIndex (fun cur => (cur + points)%Z);
         currentPeriod := currentPeriod state;
         status := status state |}
  end.
Proof.
  unfold applyScore.
  destruct (negb (v_valid (validateAction h state side points)));
    [discriminate | reflexivity].
Qed.

(** ** Totals and bucket sums (C9) *)

(** C9.  In a match state whose period number is at least 1 (as the data
    model requires) and whose totals equal the sums of the period buckets,
    the state returned by a successful [applyScore] and the state returned
    by [nextPeriod] have totals equal to the bucket sums again. *)
Theorem C9_totals_equal_bucket_sums (h : SportHandler) (state : MatchState)
    (side : TeamSide) (points : Z) :
  (1 <= currentPeriod state)%Z ->
  totalsMatchBuckets state ->
  (valid (applyScore h state side points) = true ->
   totalsMatchBuckets (newState (applyScore h state side points))) /\
  totalsMatchBuckets (nextPeriod h state).
Proof.
  intros Hp [Hh Ha]. split.
  - intros Hv. rewrite (applyScore_newState _ _ _ _ Hv). cbv zeta.
    set (i := (currentPeriod state - 1)%Z).
    pose proof (length_extend (homePeriodScores state) i) as Lh.
    pose proof (length_extend (awayPeriodScores state) i) as La.
    destruct side; split; cbn [homeScore awayScore homePeriodScores
                                 awayPeriodScores];
      rewrite ?sumScores_extend; try assumption.
    + destruct (sumScores_updateBucket (extend (homePeriodScores state) i) i
                  (fun cur => (cur + points)%Z)) as (cur & _ & ->); [lia|].
      rewrite sumScores_extend. lia.
    + destruct (sumScores_updateBucket (extend (awayPeriodScores state) i) i
                  (fun cur => (cur + points)%Z)) as (cur & _ & ->); [lia|].
      rewrite sumScores_extend. lia.
  - unfold nextPeriod.
    destruct (currentPeriod state >=? periods (config h))%Z;
      [split; assumption|].
    split; cbn; rewrite sumScores_app; simpl; lia.
Qed.

Lemma C9_totals_equal_bucket_sums_witness :
  totalsMatchBuckets
    (newState (applyScore createVolleyballHandler freshLiveMatch HOME 1)) /\
  totalsMatchBuckets (nextPeriod createVolleyballHandler freshLiveMatch).
Proof.
  destruct (C9_totals_equal_bucket_sums createVolleyballHandler
              freshLiveMatch HOME 1) as [Happly Hnext].
  - simpl. lia.
  - split; reflexivity.
  - split; [apply Happly; reflexivity | exact Hnext].
Defined.

(** ** Score then undo (C2) *)

(** C2, as stated, does not hold: on a fresh match (empty period arrays,
    period 1) one accepted score followed by its undo leaves both period
    arrays one entry longer than they were. *)
Lemma C2_undo_leaves_padding :
  exists final events,
    applyAll createVolleyballHandler freshLiveMatch [(HOME, 1%Z)]
      = Some (final, events) /\
    undoAll final events <> freshLiveMatch /\
    homePeriodScores (undoAll final events) = [0%Z] /\
    awayPeriodScores (undoAll final events) = [0%Z].
Proof.
  do 2 eexists. split; [reflexivity|].
  split; [discriminate | split; reflexivity].
Qed.

(** One accepted score followed by its undo. *)
Lemma undoScore_applyScore (h : SportHandler) (state : MatchState)
    (side : TeamSide) (points : Z) :
  nonNegative state -> bucketsReachPeriod state -> (0 <= points)%Z ->
  valid (applyScore h state side points) = true ->
  let state' := newState (applyScore h state side points) in
  undoScore state' side points (currentPeriod state) = state /\
  nonNegative state' /\ bucketsReachPeriod state' /\
  currentPeriod state' = currentPeriod state.
Proof.
  intros (Hh & Ha & Fh & Fa) [Lh La] Hpts Hv. cbv zeta.
  rewrite (applyScore_newState _ _ _ _ Hv). cbv zeta.
  rewrite !extend_long_enough by lia.
  destruct state as [hs as_ hp ap cp st]. cbn in *.
  destruct side; unfold undoScore, nonNegative, bucketsReachPeriod; cbn;
    rewrite ?length_updateBucket;
    (split; [f_equal; try lia | ]).
  - apply updateBucket_undo.
    intros cur Hc. destruct (get_Some_lt _ _ _ Hc) as (_ & _ & Hn).
    apply nth_error_In in Hn. rewrite Forall_forall in Fh.
    specialize (Fh _ Hn). cbn in Fh. lia.
  - repeat split; try lia; try assumption.
    apply Forall_updateBucket; [assumption | intros; lia].
  - apply updateBucket_undo.
    intros cur Hc. destruct (get_Some_lt _ _ _ Hc) as (_ & _ & Hn).
    apply nth_error_In in Hn. rewrite Forall_forall in Fa.
    specialize (Fa _ Hn). cbn in Fa. lia.
  - repeat split; try lia; try assumption.
    apply Forall_updateBucket; [assumption | intros; lia].
Qed.

(** C2, amended.  Take a match state with non-negative scores whose two
    period arrays already have an entry for the current period, and a sport
    whose score increments are not negative.  After any run of accepted
    [applyScore] calls, undoing the logged events (same side, points and
    period), most recent first, returns exactly the initial state: both
    totals and every entry of both period arrays. *)
Theorem C2_undo_restores_state (h : SportHandler)
    (actions : list (TeamSide * Z)) :
  Forall (fun v => 0 <= v)%Z (scoreIncrements (config h)) ->
  forall (state final : MatchState) (events : list ScoreEvent),
  nonNegative state -> bucketsReachPeriod state ->
  applyAll h state actions = Some (final, events) ->
  undoAll final events = state.
Proof.
  intros Hinc. induction actions as [|[side points] rest IH];
    intros state final events Hnn Hlen Hrun; simpl in Hrun.
  - injection Hrun as <- <-. reflexivity.
  - destruct (valid (applyScore h state side points)) eqn:Hv;
      [|discriminate].
    destruct (applyAll h (newState (applyScore h state side points)) rest)
      as [[final' events']|] eqn:Hrest; [|discriminate].
    injection Hrun as <- <-.
    assert (Hpts : (0 <= points)%Z).
    { destruct (applyScore_valid_inv _ _ _ _ Hv) as [_ Hin].
      rewrite Forall_forall in Hinc. exact (Hinc _ Hin). }
    destruct (undoScore_applyScore h state side points Hnn Hlen Hpts Hv)
      as (Hundo & Hnn' & Hlen' & _).
    unfold undoAll. rewrite fold_left_app. cbn [fold_left].
    fold (undoAll final' events').
    rewrite (IH _ _ _ Hnn' Hlen' Hrest). exact Hundo.
Qed.

Lemma C2_undo_restores_state_witness :
  let start := volleyballAt [3%Z] [2%Z] 1 in
  exists final events,
    applyAll createVolleyballHandler start [(HOME, 1%Z); (AWAY, 1%Z)]
      = Some (final, events) /\
    undoAll final events = start.
Proof.
  cbv zeta. do 2 eexists. split; [reflexivity|].
  apply (C2_undo_restores_state createVolleyballHandler
           [(HOME, 1%Z); (AWAY, 1%Z)]).
  - repeat constructor; cbn; lia.
  - unfold nonNegative; cbn. repeat split; try lia; repeat constructor; lia.
  - unfold bucketsReachPeriod; cbn. lia.
  - reflexivity.
Defined.

(** ** Facts about lists *)

Section ListFacts.
Context {A B : Type}.

(** A flattened family of duplicate-free, pairwise disjoint lists has no
    duplicate. *)
Lemma NoDup_flat_map (f : A -> list B) (l : list A) :
  NoDup l ->
  (forall x, In x l -> NoDup (f x)) ->
  (forall x y b, In x l -> In y l -> In b (f x) -> In b (f y) -> x = y) ->
  NoDup (flat_map f l).
Proof.
  induction l as [|x l IH]; intros Hl Hf Hd; simpl; [constructor|].
  inversion Hl as [|? ? Hx Hl']; subst.
  apply NoDup_app.
  - apply Hf. now left.
  - apply IH; auto.
    + intros y Hy. apply Hf. now right.
    + intros y z b Hy Hz. apply Hd; now right.
  - intros b Hb Hb'. apply in_flat_map in Hb'. destruct Hb' as (y & Hy & Hby).
    assert (x = y) by (apply (Hd x y b); auto; [now left | now right]).
    subst. contradiction.
Qed.

(** Reading a list that was flattened from two-element chunks. *)
Lemma nth_error_flat_map_pairs (f g : A -> B) (l : list A) (i : nat) :
  nth_error (flat_map (fun s => [f s; g s]) l) (i * 2)
    = option_map f (nth_error l i) /\
  nth_error (flat_map (fun s => [f s; g s]) l) (i * 2 + 1)
    = option_map g (nth_error l i).
Proof.
  revert i. induction l as [|x l IH]; intros [|i]; simpl; auto.
Qed.

Lemma length_flat_map_pairs (f g : A -> B) (l : list A) :
  List.length (flat_map (fun s => [f s; g s]) l) = 2 * List.length l.
Proof. induction l as [|x l IH]; simpl; lia. Qed.
End ListFacts.

(** ** Seeding of the elimination bracket (C3) *)

Lemma pow2_pos (e : nat) : 0 < 2 ^ e.
Proof. induction e; simpl; lia. Qed.

Lemma length_seedOrder (e : nat) : List.length (seedOrder e) = 2 ^ S e.
Proof.
  induction e as [|e IH]; [reflexivity|].
  cbn [seedOrder]. rewrite length_flat_map_pairs, IH.
  rewrite (Nat.pow_succ_r' 2 (S e)). lia.
Qed.

Lemma seedOrder_range (e : nat) :
  Forall (fun s => 0 <= s < Z.of_nat (2 ^ S e))%Z (seedOrder e).
Proof.
  induction e as [|e IH]; [repeat constructor; simpl; lia|].
  cbn [seedOrder]. apply Forall_flat_map.
  eapply Forall_impl; [|exact IH].
  intros s Hs. cbn beta in Hs.
  rewrite (Nat.pow_succ_r' 2 (S e)), Nat2Z.inj_mul.
  repeat constructor; lia.
Qed.

Lemma seedOrder_NoDup (e : nat) : NoDup (seedOrder e).
Proof.
  induction e as [|e IH].
  - repeat constructor; simpl; intuition discriminate.
  - cbn [seedOrder].
    pose proof (seedOrder_range e) as Hr. rewrite Forall_forall in Hr.
    assert (Hp : Z.of_nat (2 ^ S (S e)) = (2 * Z.of_nat (2 ^ S e))%Z)
      by (rewrite (Nat.pow_succ_r' 2 (S e)); lia).
    apply NoDup_flat_map; [exact IH | |].
    + intros s Hs. specialize (Hr s Hs). cbn beta in Hr.
      generalize dependent (Z.of_nat (2 ^ S (S e))).
      generalize dependent (Z.of_nat (2 ^ S e)). intros.
      repeat constructor; cbn [In]; [|tauto]. intros [E | []]. lia.
    + intros s s' b Hs Hs' Hb Hb'.
      pose proof (Hr s Hs) as R. pose proof (Hr s' Hs') as R'.
      cbn beta in R, R'. cbn [In] in Hb, Hb'.
      generalize dependent (Z.of_nat (2 ^ S (S e))).
      generalize dependent (Z.of_nat (2 ^ S e)). intros.
      destruct Hb as [<- | [<- | []]]; destruct Hb' as [E | [E | []]]; lia.
Qed.


(** With enough fuel the source's recursion returns the specified order. *)
Lemma generateSeededBracket_fuel_pow2 (e fuel : nat) :
  e < fuel ->
  generateSeededBracket_fuel fuel (2 ^ S e) = Some (seedOrder e).
Proof.
  revert fuel. induction e as [|e IH]; intros [|fuel] H; try lia.
  - reflexivity.
  - cbn [generateSeededBracket_fuel].
    pose proof (pow2_pos e) as Hpos.
    assert (E : 2 ^ S (S e) = 4 * 2 ^ e) by (rewrite !Nat.pow_succ_r'; lia).
    destruct (Nat.eqb_spec (2 ^ S (S e)) 1); [lia|].
    destruct (Nat.eqb_spec (2 ^ S (S e)) 2); [lia|].
    destruct (Nat.eqb_spec (2 ^ S (S e)) 0); [lia|].
    assert (Hodd : Nat.odd (2 ^ S (S e)) = false).
    { rewrite E. replace (4 * 2 ^ e) with (2 * (2 * 2 ^ e)) by lia.
      apply Nat.odd_even. }
    rewrite Hodd. cbn [orb].
    assert (Hhalf : 2 ^ S (S e) / 2 = 2 ^ S e).
    { rewrite (Nat.pow_succ_r' 2 (S e)), Nat.mul_comm. apply Nat.div_mul. lia. }
    rewrite Hhalf, IH by lia. reflexivity.
Qed.

Lemma generateSeededBracket_pow2 (e : nat) :
  generateSeededBracket (2 ^ S e) = Some (seedOrder e).
Proof.
  apply generateSeededBracket_fuel_pow2.
  pose proof (Nat.pow_gt_lin_r 2 (S e)). lia.
Qed.

Lemma laterRounds_placeholders (count : nat) :
  forall round rounds matchesInPrevRound matchNumber m,
  In m (laterRounds count round rounds matchesInPrevRound matchNumber) ->
  round <= TournamentFormats.round m /\ teamsOf m = [].
Proof.
  induction count as [|count IH]; intros r rs mp mn m Hin; simpl in Hin;
    [contradiction|].
  apply in_app_or in Hin. destruct Hin as [Hin | Hin].
  - apply in_map_iff in Hin. destruct Hin as (i & <- & _). split; auto.
  - apply IH in Hin. destruct Hin. split; [lia | assumption].
Qed.




(** The shape of the bracket returned for three or more teams. *)
Lemma generateSingleElimination_shape (teamCount : nat) :
  3 <= teamCount ->
  exists e,
    1 <= e /\ bracketSizeOf teamCount = 2 ^ S e /\
    generateSingleElimination teamCount =
      Some {| groups := [];
              matches :=
                map (firstRoundMatch teamCount (S e) (seedOrder e))
                    (seq 0 (2 ^ e))
                ++ laterRounds e 2 (S e) (2 ^ e) (2 ^ e + 1) |}.
Proof.
  intros H.
  assert (Hk : 2 <= Nat.log2_up teamCount).
  { change 2 with (Nat.log2_up 3). now apply Nat.log2_up_le_mono. }
  destruct (Nat.log2_up teamCount) as [|e] eqn:Ek; [lia|].
  exists e. split; [lia|].
  assert (Hb : bracketSizeOf teamCount = 2 ^ S e).
  { unfold bracketSizeOf. destruct (Nat.eqb_spec teamCount 0); [lia|].
    now rewrite Ek. }
  split; [exact Hb|].
  unfold generateSingleElimination. rewrite Hb, generateSeededBracket_pow2.
  rewrite Nat.log2_up_pow2 by lia.
  assert (E1 : (2 ^ S e + 1) / 2 = 2 ^ e).
  { rewrite Nat.pow_succ_r'. rewrite (Nat.mul_comm 2), Nat.div_add_l by lia.
    rewrite (Nat.div_small 1 2) by lia. lia. }
  assert (E2 : 2 ^ S e / 2 = 2 ^ e).
  { rewrite Nat.pow_succ_r', Nat.mul_comm. apply Nat.div_mul. lia. }
  rewrite E1, E2. replace (S e - 1) with e by lia. reflexivity.
Qed.



(** ** Round robin: the loops unrolled *)

Section MoreListFacts.
Context {A B C : Type}.

Lemma flat_map_ext_in (f g : A -> list B) (l : list A) :
  (forall x, In x l -> f x = g x) -> flat_map f l = flat_map g l.
Proof.
  induction l as [|x l IH]; intros H; simpl; [reflexivity|].
  rewrite (H x) by now left. f_equal. apply IH. intros; apply H; now right.
Qed.

Lemma map_flat_map (g : B -> C) (f : A -> list B) (l : list A) :
  map g (flat_map f l) = flat_map (fun x => map g (f x)) l.
Proof.
  induction l as [|x l IH]; simpl; [reflexivity|].
  now rewrite map_app, IH.
Qed.

Lemma flat_map_filter_flat_map (g : B -> list C) (p : B -> bool)
    (f : A -> list B) (l : list A) :
  flat_map g (filter p (flat_map f l))
  = flat_map (fun x => flat_map g (filter p (f x))) l.
Proof.
  induction l as [|x l IH]; simpl; [reflexivity|].
  now rewrite filter_app, flat_map_app, IH.
Qed.

Lemma flat_map_filter_map (g : B -> list C) (g' : A -> list C)
    (p : B -> bool) (p' : A -> bool) (f : A -> B) (l : list A) :
  (forall x, g (f x) = g' x) -> (forall x, p (f x) = p' x) ->
  flat_map g (filter p (map f l)) = flat_map g' (filter p' l).
Proof.
  intros Hg Hp. induction l as [|x l IH]; simpl; [reflexivity|].
  rewrite Hp. destruct (p' x); simpl; now rewrite ?Hg, IH.
Qed.

Lemma length_filter_map (p : B -> bool) (p' : A -> bool) (f : A -> B)
    (l : list A) :
  (forall x, p (f x) = p' x) ->
  List.length (filter p (map f l)) = List.length (filter p' l).
Proof.
  intros Hp. induction l as [|x l IH]; simpl; [reflexivity|].
  rewrite Hp. destruct (p' x); simpl; now rewrite IH.
Qed.

Lemma NoDup_map_injective (f : A -> B) (l : list A) :
  (forall x y, f x = f y -> x = y) -> NoDup l -> NoDup (map f l).
Proof.
  intros Hf Hl. induction Hl as [|x l Hx Hl IH]; simpl; constructor; auto.
  intros Hin. apply in_map_iff in Hin. destruct Hin as (y & Hy & Hin).
  apply Hf in Hy. now subst.
Qed.
End MoreListFacts.

Lemma rr_match_fold (n r : nat) (ks : list nat) :
  forall st,
  let st' := fold_left (rr_match n r) ks st in
  rr_teams st' = rr_teams st /\
  map pairingOf (rr_matches st')
  = map pairingOf (rr_matches st) ++
    flat_map
      (fun k =>
         match nth_error (rr_teams st) k,
               nth_error (rr_teams st) (n - 1 - k) with
         | Some h, Some a =>
             if negb (h =? -1)%Z && negb (a =? -1)%Z
             then [(Some h, Some a, r + 1)] else []
         | _, _ => []
         end) ks.
Proof.
  induction ks as [|k ks IH]; intros st; cbn zeta.
  - simpl. now rewrite app_nil_r.
  - cbn [fold_left flat_map].
    destruct (IH (rr_match n r st k)) as [Ht Hm]. cbn zeta in Ht, Hm.
    assert (Hstep : rr_teams (rr_match n r st k) = rr_teams st /\
              map pairingOf (rr_matches (rr_match n r st k))
              = map pairingOf (rr_matches st) ++
                match nth_error (rr_teams st) k,
                      nth_error (rr_teams st) (n - 1 - k) with
                | Some h, Some a =>
                    if negb (h =? -1)%Z && negb (a =? -1)%Z
                    then [(Some h, Some a, r + 1)] else []
                | _, _ => []
                end).
    { unfold rr_match.
      destruct (nth_error (rr_teams st) k) as [h|];
        destruct (nth_error (rr_teams st) (n - 1 - k)) as [a|];
        try (now rewrite app_nil_r).
      destruct (negb (h =? -1)%Z && negb (a =? -1)%Z); cbn.
      - now rewrite map_app.
      - now rewrite app_nil_r. }
    destruct Hstep as [Ht' Hm'].
    rewrite Ht, Ht'. split; [reflexivity|].
    rewrite Hm, Hm', Ht', <- app_assoc. reflexivity.
Qed.

Lemma rr_round_fold (n : nat) (st0 : RRState) (R : nat) :
  let st := fold_left (rr_round n) (seq 0 R) st0 in
  rr_teams st = Nat.iter R rotate (rr_teams st0) /\
  map pairingOf (rr_matches st)
  = map pairingOf (rr_matches st0) ++
    flat_map (fun r => roundPairings n r (Nat.iter r rotate (rr_teams st0)))
             (seq 0 R).
Proof.
  induction R as [|R [IHt IHm]]; cbn zeta.
  - simpl. now rewrite app_nil_r.
  - rewrite seq_S, fold_left_app, flat_map_app. cbn [fold_left Nat.add].
    set (st := fold_left (rr_round n) (seq 0 R) st0) in *.
    unfold rr_round. cbn [rr_teams rr_matches].
    destruct (rr_match_fold n R (seq 0 (n / 2)) st) as [Ht Hm].
    cbn zeta in Ht, Hm.
    rewrite Ht, Hm, IHt, IHm. split; [reflexivity|].
    cbn [flat_map]. rewrite app_nil_r, <- app_assoc. reflexivity.
Qed.

(** ** Round robin: the rotation in closed form *)

Lemma rotate_snoc {A : Type} (x y : A) (l : list A) :
  rotate (x :: l ++ [y]) = x :: y :: l.
Proof.
  unfold rotate, pop, splice_insert. cbn [nth_error].
  change (x :: l ++ [y]) with ((x :: l) ++ [y]).
  rewrite last_last, removelast_last. reflexivity.
Qed.

Lemma rotate_map {A B : Type} (f : A -> B) (l : list A) :
  rotate (map f l) = map f (rotate l).
Proof.
  destruct l as [|x l]; [reflexivity|].
  destruct (exists_last (l := x :: l)) as (l' & y & E); [discriminate|].
  destruct l' as [|x' l'].
  - injection E as -> ->. reflexivity.
  - injection E as <- ->. cbn [map]. rewrite map_app. cbn [map].
    now rewrite !rotate_snoc.
Qed.

Lemma iter_rotate_map {A B : Type} (f : A -> B) (l : list A) (r : nat) :
  Nat.iter r rotate (map f l) = map f (Nat.iter r rotate l).
Proof.
  induction r as [|r IH]; [reflexivity|].
  now rewrite !Nat.iter_succ, IH, rotate_map.
Qed.

(** After [r] rotations the last [r] slots have moved in front of the
    others, behind slot 0. *)
Lemma iter_rotate_seq (M r : nat) :
  r <= M ->
  Nat.iter r rotate (seq 0 (S M)) = 0 :: seq (S M - r) r ++ seq 1 (M - r).
Proof.
  induction r as [|r IH]; intros H.
  - cbn [Nat.iter nat_rect seq app]. now rewrite Nat.sub_0_r.
  - rewrite Nat.iter_succ, IH by lia.
    replace (M - r) with (S (M - S r)) by lia.
    rewrite seq_S, app_assoc, rotate_snoc.
    replace (1 + (M - S r)) with (M - r) by lia.
    replace (S M - S r) with (M - r) by lia.
    replace (S M - r) with (S (M - r)) by lia.
    reflexivity.
Qed.

Lemma nth_error_rotated (M r p : nat) :
  r <= M -> p <= M ->
  nth_error (0 :: seq (S M - r) r ++ seq 1 (M - r)) p
  = Some (posAfter M r p).
Proof.
  intros Hr Hp. unfold posAfter. destruct p as [|p]; [reflexivity|].
  cbn [nth_error Nat.eqb].
  destruct (Nat.leb_spec (S p) r).
  - rewrite nth_error_app1 by (rewrite length_seq; lia).
    rewrite nth_error_seq. destruct (Nat.ltb_spec p r); [|lia].
    f_equal. lia.
  - rewrite nth_error_app2 by (rewrite length_seq; lia).
    rewrite length_seq, nth_error_seq.
    destruct (Nat.ltb_spec (p - r) (M - r)); [|lia].
    f_equal. lia.
Qed.

Lemma initialTeams_slots (teamCount : nat) :
  initialTeams teamCount
  = map (slotValue teamCount) (seq 0 (teamCount + teamCount mod 2)).
Proof.
  unfold initialTeams.
  assert (Hmap : map Z.of_nat (seq 0 teamCount)
                 = map (slotValue teamCount) (seq 0 teamCount)).
  { apply map_ext_in. intros i Hi. apply in_seq in Hi. unfold slotValue.
    destruct (Nat.ltb_spec i teamCount); [reflexivity | lia]. }
  pose proof (Nat.mod_upper_bound teamCount 2) as Hm.
  destruct (Nat.eqb_spec (teamCount mod 2) 1) as [E | E].
  - rewrite E, Nat.add_1_r, seq_S, map_app, Hmap. cbn [map Nat.add].
    unfold slotValue at 3. rewrite Nat.ltb_irrefl. reflexivity.
  - replace (teamCount mod 2) with 0 by lia.
    now rewrite Nat.add_0_r.
Qed.

(** The generated matches are, pairing by pairing, the schedule over slot
    numbers. *)
Lemma roundRobin_schedule (teamCount h : nat) :
  teamCount + teamCount mod 2 = S (2 * h + 1) ->
  map pairingOf (matches (generateRoundRobin teamCount))
  = map liftPairing (schedule teamCount (2 * h + 1)).
Proof.
  intros HN. set (M := 2 * h + 1) in *.
  unfold generateRoundRobin. cbv zeta. cbn [matches].
  rewrite initialTeams_slots, length_map, length_seq, HN.
  replace (S M - 1) with M by lia.
  match goal with
  | |- context [fold_left (rr_round (S M)) (seq 0 M) ?st0] =>
      destruct (rr_round_fold (S M) st0 M) as [_ Hm]
  end.
  cbv zeta in Hm. rewrite Hm. cbn [rr_matches rr_teams map app].
  unfold schedule. rewrite map_flat_map.
  apply flat_map_ext_in. intros r Hr. apply in_seq in Hr.
  rewrite iter_rotate_map, iter_rotate_seq by lia.
  unfold roundPairings. rewrite map_flat_map.
  apply flat_map_ext_in. intros k Hk. apply in_seq in Hk.
  assert (Hk' : k <= h).
  { assert (S M / 2 = S h); [|lia].
    unfold M. replace (S (2 * h + 1)) with (S h * 2) by lia.
    apply Nat.div_mul. lia. }
  replace (S M - 1 - k) with (M - k) by lia.
  rewrite !nth_error_map, !nth_error_rotated by lia. cbn [option_map].
  unfold scheduleCell, slotValue. cbv zeta.
  destruct (Nat.ltb_spec (posAfter M r k) teamCount);
    destruct (Nat.ltb_spec (posAfter M r (M - k)) teamCount);
    cbn [andb negb map liftPairing];
    repeat match goal with
           | |- context [(Z.of_nat ?a =? -1)%Z] =>
               destruct (Z.eqb_spec (Z.of_nat a) (-1)); [lia|]
           end;
    cbn [andb negb]; reflexivity.
Qed.

(** ** Round robin: arithmetic of the circle *)

Ltac split_posAfter :=
  unfold posAfter in *;
  repeat match goal with
         | H : context [?a =? ?b] |- _ => destruct (Nat.eqb_spec a b)
         | |- context [?a =? ?b] => destruct (Nat.eqb_spec a b)
         | H : context [?a <=? ?b] |- _ => destruct (Nat.leb_spec a b)
         | |- context [?a <=? ?b] => destruct (Nat.leb_spec a b)
         end.

Lemma posAfter_le (M r p : nat) : r < M -> p <= M -> posAfter M r p <= M.
Proof. intros; split_posAfter; lia. Qed.

Lemma posAfter_inj (M r p p' : nat) :
  r < M -> p <= M -> p' <= M ->
  posAfter M r p = posAfter M r p' -> p = p'.
Proof. intros; split_posAfter; lia. Qed.

(** The two positions paired in a round hold different slots. *)
Lemma pairing_distinct (h r k : nat) :
  r < 2 * h + 1 -> k <= h ->
  posAfter (2 * h + 1) r k <> posAfter (2 * h + 1) r (2 * h + 1 - k).
Proof.
  intros Hr Hk E. apply posAfter_inj in E; lia.
Qed.

(** No unordered pair is scheduled twice: the round and the position are
    determined by the pair. *)
Lemma pairing_inj (h r r' k k' : nat) :
  r < 2 * h + 1 -> r' < 2 * h + 1 -> k <= h -> k' <= h ->
  Nat.min (posAfter (2 * h + 1) r k) (posAfter (2 * h + 1) r (2 * h + 1 - k))
  = Nat.min (posAfter (2 * h + 1) r' k')
            (posAfter (2 * h + 1) r' (2 * h + 1 - k')) ->
  Nat.max (posAfter (2 * h + 1) r k) (posAfter (2 * h + 1) r (2 * h + 1 - k))
  = Nat.max (posAfter (2 * h + 1) r' k')
            (posAfter (2 * h + 1) r' (2 * h + 1 - k')) ->
  r = r' /\ k = k'.
Proof.
  intros Hr Hr' Hk Hk' Hmin Hmax. split_posAfter; lia.
Qed.

(** ** Round robin: counting pairs *)

Lemma in_allPairs (n x y : nat) : In (x, y) (allPairs n) <-> x < y < n.
Proof.
  induction n as [|n IH]; cbn [allPairs]; [simpl; lia|].
  rewrite in_app_iff, IH, in_map_iff. split.
  - intros [H | (z & E & Hz)]; [lia|].
    injection E as <- <-. apply in_seq in Hz. lia.
  - intros H. destruct (Nat.eq_dec y n) as [-> | Hne]; [right | left; lia].
    exists x. split; [reflexivity | apply in_seq; lia].
Qed.

Lemma length_allPairs (n : nat) : 2 * List.length (allPairs n) = n * (n - 1).
Proof.
  induction n as [|n IH]; [reflexivity|].
  cbn [allPairs]. rewrite length_app, length_map, length_seq.
  replace (S n - 1) with n by lia. destruct n as [|n]; [reflexivity|].
  replace (S n - 1) with n in IH by lia. nia.
Qed.

Lemma NoDup_allPairs (n : nat) : NoDup (allPairs n).
Proof.
  induction n as [|n IH]; cbn [allPairs]; [constructor|].
  apply NoDup_app; [exact IH | |].
  - apply NoDup_map_injective; [|apply seq_NoDup].
    intros x y E. now injection E.
  - intros [x y] H1 H2. apply in_allPairs in H1.
    apply in_map_iff in H2. destruct H2 as (z & E & _).
    injection E as _ <-. lia.
Qed.

Lemma length_flat_map_const {A B : Type} (f : A -> list B) (c : nat)
    (l : list A) :
  (forall x, In x l -> List.length (f x) = c) ->
  List.length (flat_map f l) = c * List.length l.
Proof.
  induction l as [|x l IH]; intros H; simpl; [lia|].
  rewrite length_app, (H x), IH by (try (now left); intros; apply H; now right).
  lia.
Qed.

Lemma half_of_even (h : nat) : S (2 * h + 1) / 2 = S h.
Proof.
  replace (S (2 * h + 1)) with (S h * 2) by lia. apply Nat.div_mul. lia.
Qed.

(** Membership in the schedule, cell by cell. *)
Lemma in_schedule (teamCount h : nat) (c : nat * nat * nat) :
  In c (schedule teamCount (2 * h + 1)) <->
  exists r k,
    r < 2 * h + 1 /\ k <= h /\
    posAfter (2 * h + 1) r k < teamCount /\
    posAfter (2 * h + 1) r (2 * h + 1 - k) < teamCount /\
    c = (posAfter (2 * h + 1) r k,
         posAfter (2 * h + 1) r (2 * h + 1 - k), r + 1).
Proof.
  unfold schedule. rewrite half_of_even, in_flat_map. split.
  - intros (r & Hr & Hc). apply in_flat_map in Hc.
    destruct Hc as (k & Hk & Hc). apply in_seq in Hr, Hk.
    unfold scheduleCell in Hc. cbv zeta in Hc.
    destruct (Nat.ltb_spec (posAfter (2 * h + 1) r k) teamCount);
      destruct (Nat.ltb_spec (posAfter (2 * h + 1) r (2 * h + 1 - k))
                  teamCount); cbn [andb] in Hc; try contradiction.
    destruct Hc as [<- | []]. exists r, k. repeat split; lia.
  - intros (r & k & Hr & Hk & Ha & Hb & ->).
    exists r. split; [apply in_seq; lia|].
    apply in_flat_map. exists k. split; [apply in_seq; lia|].
    unfold scheduleCell. cbv zeta.
    apply Nat.ltb_lt in Ha, Hb. rewrite Ha, Hb. now left.
Qed.

Lemma length_scheduleCell (teamCount M r k : nat) :
  List.length (scheduleCell teamCount M r k) <= 1.
Proof.
  unfold scheduleCell. cbv zeta. destruct (_ && _); simpl; lia.
Qed.

Lemma in_scheduleCell (teamCount M r k : nat) (c : nat * nat * nat) :
  In c (scheduleCell teamCount M r k) ->
  posAfter M r k < teamCount /\ posAfter M r (M - k) < teamCount /\
  c = (posAfter M r k, posAfter M r (M - k), r + 1).
Proof.
  unfold scheduleCell. cbv zeta.
  destruct (Nat.ltb_spec (posAfter M r k) teamCount);
    destruct (Nat.ltb_spec (posAfter M r (M - k)) teamCount);
    cbn [andb]; try contradiction.
  intros [<- | []]. auto.
Qed.

Lemma NoDup_short {A : Type} (l : list A) : List.length l <= 1 -> NoDup l.
Proof.
  destruct l as [|x [|y l]]; simpl; intros H; try lia;
    repeat constructor; simpl; tauto.
Qed.

(** No unordered pair occurs twice in the schedule. *)
Lemma NoDup_schedule_pairs (teamCount h : nat) :
  NoDup (map unordered (schedule teamCount (2 * h + 1))).
Proof.
  unfold schedule. rewrite half_of_even, map_flat_map.
  apply NoDup_flat_map; [apply seq_NoDup | |].
  - intros r Hr. apply in_seq in Hr. rewrite map_flat_map.
    apply NoDup_flat_map; [apply seq_NoDup | |].
    + intros k _. apply NoDup_short. rewrite length_map.
      apply length_scheduleCell.
    + intros k k' p Hk Hk' Hp Hp'. apply in_seq in Hk, Hk'.
      apply in_map_iff in Hp, Hp'.
      destruct Hp as (c & <- & Hc). destruct Hp' as (c' & E & Hc').
      apply in_scheduleCell in Hc, Hc'.
      destruct Hc as (_ & _ & ->). destruct Hc' as (_ & _ & ->).
      cbn [unordered] in E. injection E as Emin Emax.
      symmetry in Emin, Emax.
      destruct (pairing_inj h r r k k'); try assumption; lia.
  - intros r r' p Hr Hr' Hp Hp'. apply in_seq in Hr, Hr'.
    rewrite map_flat_map in Hp, Hp'. apply in_flat_map in Hp, Hp'.
    destruct Hp as (k & Hk & Hp). destruct Hp' as (k' & Hk' & Hp').
    apply in_seq in Hk, Hk'. apply in_map_iff in Hp, Hp'.
    destruct Hp as (c & <- & Hc). destruct Hp' as (c' & E & Hc').
    apply in_scheduleCell in Hc, Hc'.
    destruct Hc as (_ & _ & ->). destruct Hc' as (_ & _ & ->).
    cbn [unordered] in E. injection E as Emin Emax.
    symmetry in Emin, Emax.
    destruct (pairing_inj h r r' k k'); try assumption; lia.
Qed.

Lemma length_full_schedule (h : nat) :
  List.length (schedule (S (2 * h + 1)) (2 * h + 1)) = S h * (2 * h + 1).
Proof.
  unfold schedule. rewrite half_of_even.
  rewrite (length_flat_map_const _ (S h)), length_seq; [reflexivity|].
  intros r Hr. apply in_seq in Hr.
  rewrite (length_flat_map_const _ 1), length_seq; [lia|].
  intros k Hk. apply in_seq in Hk. unfold scheduleCell. cbv zeta.
  pose proof (posAfter_le (2 * h + 1) r k).
  pose proof (posAfter_le (2 * h + 1) r (2 * h + 1 - k)).
  destruct (Nat.ltb_spec (posAfter (2 * h + 1) r k) (S (2 * h + 1))); [|lia].
  destruct (Nat.ltb_spec (posAfter (2 * h + 1) r (2 * h + 1 - k))
              (S (2 * h + 1))); [|lia].
  reflexivity.
Qed.

(** Every scheduled pairing is an unordered pair of distinct slots. *)
Lemma schedule_pairs_in_range (teamCount h : nat) (p : nat * nat) :
  In p (map unordered (schedule teamCount (2 * h + 1))) ->
  fst p < snd p < teamCount.
Proof.
  intros Hp. apply in_map_iff in Hp. destruct Hp as (c & <- & Hc).
  apply in_schedule in Hc. destruct Hc as (r & k & Hr & Hk & Ha & Hb & ->).
  pose proof (pairing_distinct h r k Hr Hk). cbn [unordered fst snd]. lia.
Qed.

(** Pigeonhole: the full schedule (no slot is a bye) has as many pairings
    as there are pairs and repeats none, so it contains every pair. *)
Lemma full_schedule_covers (h x y : nat) :
  x < y <= 2 * h + 1 ->
  In (x, y) (map unordered (schedule (S (2 * h + 1)) (2 * h + 1))).
Proof.
  intros Hxy.
  apply (NoDup_length_incl (NoDup_schedule_pairs (S (2 * h + 1)) h)
           (l' := allPairs (S (2 * h + 1)))).
  - rewrite length_map, length_full_schedule.
    pose proof (length_allPairs (S (2 * h + 1))) as L.
    replace (S (2 * h + 1) - 1) with (2 * h + 1) in L by lia. nia.
  - intros [a b] Hp. apply schedule_pairs_in_range in Hp.
    apply in_allPairs. exact Hp.
  - apply in_allPairs. lia.
Qed.

(** With [teamCount] real teams among the slots, the schedule contains
    exactly the pairs of teams. *)
Lemma schedule_covers (teamCount h x y : nat) :
  teamCount <= S (2 * h + 1) ->
  (In (x, y) (map unordered (schedule teamCount (2 * h + 1)))
   <-> x < y < teamCount).
Proof.
  intros Htc. split.
  - intros H. apply schedule_pairs_in_range in H. exact H.
  - intros Hxy.
    assert (Hfull : In (x, y)
              (map unordered (schedule (S (2 * h + 1)) (2 * h + 1))))
      by (apply full_schedule_covers; lia).
    apply in_map_iff in Hfull. destruct Hfull as (c & E & Hc).
    apply in_schedule in Hc. destruct Hc as (r & k & Hr & Hk & _ & _ & ->).
    cbn [unordered] in E. injection E as Emin Emax.
    apply in_map_iff.
    exists (posAfter (2 * h + 1) r k,
            posAfter (2 * h + 1) r (2 * h + 1 - k), r + 1).
    split; [cbn [unordered]; f_equal; assumption|].
    apply in_schedule. exists r, k.
    change (h + (h + 0) + 1) with (2 * h + 1) in Emin, Emax.
    split; [exact Hr|]. split; [exact Hk|].
    split; [lia|]. split; [lia | reflexivity].
Qed.

Lemma length_filter_count_occ {A B : Type}
    (dec : forall x y : B, {x = y} + {x <> y})
    (p : A -> bool) (g : A -> B) (v : B) (l : list A) :
  (forall c, p c = true <-> g c = v) ->
  List.length (filter p l) = count_occ dec (map g l) v.
Proof.
  intros H. induction l as [|c l IH]; simpl; [reflexivity|].
  destruct (p c) eqn:E; destruct (dec (g c) v) as [Hv | Hv]; simpl.
  - now rewrite IH.
  - apply H in E. contradiction.
  - apply H in Hv. congruence.
  - exact IH.
Qed.

Lemma pair_eq_dec (p q : nat * nat) : {p = q} + {p <> q}.
Proof. decide equality; apply Nat.eq_dec. Qed.

(** The number of matches between two teams, read on the schedule. *)
Lemma playsPair_count (teamCount h x y : nat) :
  teamCount + teamCount mod 2 = S (2 * h + 1) ->
  x < y ->
  List.length (filter (playsPair (Z.of_nat x) (Z.of_nat y))
                 (matches (generateRoundRobin teamCount)))
  = count_occ pair_eq_dec
      (map unordered (schedule teamCount (2 * h + 1))) (x, y).
Proof.
  intros HN Hxy.
  rewrite <- (length_filter_map
                (playsPairPairing (Z.of_nat x) (Z.of_nat y))
                (playsPair (Z.of_nat x) (Z.of_nat y)) pairingOf)
    by reflexivity.
  rewrite (roundRobin_schedule teamCount h HN).
  rewrite (length_filter_map
             (playsPairPairing (Z.of_nat x) (Z.of_nat y))
             (playsPairSlots x y) liftPairing).
  - apply length_filter_count_occ. intros [[a b] r].
    cbn [playsPairSlots unordered].
    rewrite orb_true_iff, !andb_true_iff, !Nat.eqb_eq. split.
    + intros H. f_equal; lia.
    + intros E. injection E as Emin Emax. lia.
  - intros [[a b] r]. cbn [liftPairing playsPairPairing playsPairSlots].
    repeat match goal with
           | |- context [(Z.of_nat ?u =? Z.of_nat ?v)%Z] =>
               destruct (Z.eqb_spec (Z.of_nat u) (Z.of_nat v));
               destruct (Nat.eqb_spec u v); try lia
           end; reflexivity.
Qed.

(** The teams playing in a given round, read on the schedule. *)
Lemma teams_of_round (teamCount h rnd : nat) :
  teamCount + teamCount mod 2 = S (2 * h + 1) ->
  flat_map teamsOf
    (filter (inRound rnd) (matches (generateRoundRobin teamCount)))
  = map Z.of_nat
      (flat_map slotsOf
         (filter (inRoundSlots rnd) (schedule teamCount (2 * h + 1)))).
Proof.
  intros HN.
  rewrite <- (flat_map_filter_map teamsOfPairing teamsOf
                (inRoundPairing rnd) (inRound rnd) pairingOf)
    by reflexivity.
  rewrite (roundRobin_schedule teamCount h HN).
  rewrite (flat_map_filter_map teamsOfPairing
             (fun c => map Z.of_nat (slotsOf c))
             (inRoundPairing rnd) (inRoundSlots rnd) liftPairing).
  - now rewrite map_flat_map.
  - intros [[a b] r]. reflexivity.
  - intros [[a b] r]. reflexivity.
Qed.

Lemma in_round_cell (teamCount M rnd r k z : nat) :
  In z (flat_map slotsOf
          (filter (inRoundSlots rnd) (scheduleCell teamCount M r k))) ->
  r + 1 = rnd /\ (z = posAfter M r k \/ z = posAfter M r (M - k)).
Proof.
  unfold scheduleCell. cbv zeta. destruct (_ && _); [|contradiction].
  cbn [filter inRoundSlots].
  destruct (Nat.eqb_spec (r + 1) rnd); [|contradiction].
  cbn [flat_map slotsOf app In]. intuition.
Qed.

(** Within a round no slot is paired twice. *)
Lemma NoDup_round_slots (teamCount h rnd : nat) :
  NoDup (flat_map slotsOf
           (filter (inRoundSlots rnd) (schedule teamCount (2 * h + 1)))).
Proof.
  unfold schedule. rewrite half_of_even, flat_map_filter_flat_map.
  apply NoDup_flat_map; [apply seq_NoDup | |].
  - intros r Hr. apply in_seq in Hr. rewrite flat_map_filter_flat_map.
    apply NoDup_flat_map; [apply seq_NoDup | |].
    + intros k Hk. apply in_seq in Hk.
      unfold scheduleCell. cbv zeta. destruct (_ && _); [|constructor].
      cbn [filter inRoundSlots]. destruct (r + 1 =? rnd); [|constructor].
      cbn [flat_map slotsOf app].
      pose proof (pairing_distinct h r k).
      repeat constructor; cbn [In]; [|tauto]. intros [E | []]. lia.
    + intros k k' z Hk Hk' Hz Hz'. apply in_seq in Hk, Hk'.
      apply in_round_cell in Hz, Hz'.
      destruct Hz as [_ Hz]. destruct Hz' as [_ Hz'].
      assert (forall p p', p <= 2 * h + 1 -> p' <= 2 * h + 1 ->
                posAfter (2 * h + 1) r p = posAfter (2 * h + 1) r p' ->
                p = p') as Hinj
        by (intros p p' Hp Hp'; apply posAfter_inj; lia).
      destruct Hz as [-> | ->]; destruct Hz' as [E | E];
        apply Hinj in E; lia.
  - intros r r' z Hr Hr' Hz Hz'.
    rewrite flat_map_filter_flat_map in Hz, Hz'.
    apply in_flat_map in Hz, Hz'.
    destruct Hz as (k & _ & Hz). destruct Hz' as (k' & _ & Hz').
    apply in_round_cell in Hz, Hz'. lia.
Qed.

(** ** Round robin (C1) *)

(** C1.  For every team count [n >= 2] the round robin has [n(n-1)/2]
    matches; every pair of distinct team indices below [n] is the home/away
    pair of exactly one match; and among the matches of any one round no
    team index occurs twice. *)
Theorem C1_roundRobin (n : nat) :
  2 <= n ->
  let ms := matches (generateRoundRobin n) in
  List.length ms = n * (n - 1) / 2 /\
  (forall i j : Z,
     (0 <= i < j)%Z -> (j < Z.of_nat n)%Z ->
     List.length (filter (playsPair i j) ms) = 1) /\
  (forall r, NoDup (flat_map teamsOf (filter (inRound r) ms))).
Proof.
  intros Hn ms.
  assert (exists h, n + n mod 2 = S (2 * h + 1)) as [h HN].
  { pose proof (Nat.div_mod_eq n 2) as E.
    pose proof (Nat.mod_upper_bound n 2) as B.
    exists ((n + n mod 2) / 2 - 1).
    assert (Hd : (n + n mod 2) / 2 = n / 2 + n mod 2).
    { destruct (Nat.eq_dec (n mod 2) 0) as [E0 | E0].
      - rewrite E0, !Nat.add_0_r. reflexivity.
      - replace (n mod 2) with 1 in * by lia.
        replace (n + 1) with ((n / 2 + 1) * 2) by lia.
        apply Nat.div_mul. lia. }
    rewrite Hd. lia. }
  assert (Htc : n <= S (2 * h + 1)) by lia.
  pose proof (NoDup_schedule_pairs n h) as Hnd.
  split; [|split].
  - assert (Hperm : Permutation (map unordered (schedule n (2 * h + 1)))
                                (allPairs n)).
    { apply NoDup_Permutation; [exact Hnd | apply NoDup_allPairs|].
      intros [x y]. rewrite (schedule_covers n h x y Htc).
      symmetry. apply in_allPairs. }
    apply Permutation_length in Hperm. rewrite length_map in Hperm.
    unfold ms.
    rewrite <- (length_map pairingOf), (roundRobin_schedule n h HN),
      length_map, Hperm.
    pose proof (length_allPairs n) as L. rewrite <- L.
    rewrite Nat.mul_comm. symmetry. apply Nat.div_mul. lia.
  - intros i j Hij Hj. unfold ms.
    rewrite <- (Z2Nat.id i), <- (Z2Nat.id j) by lia.
    rewrite (playsPair_count n h (Z.to_nat i) (Z.to_nat j) HN) by lia.
    apply (proj1 (NoDup_count_occ' pair_eq_dec _) Hnd).
    apply (schedule_covers n h _ _ Htc). lia.
  - intros r. unfold ms. rewrite (teams_of_round n h r HN).
    apply NoDup_map_injective; [intros x y; lia|].
    apply NoDup_round_slots.
Qed.

Lemma C1_roundRobin_witness :
  let ms := matches (generateRoundRobin 5) in
  List.length ms = 10 /\
  List.length (filter (playsPair 1 3) ms) = 1 /\
  NoDup (flat_map teamsOf (filter (inRound 2) ms)).
Proof.
  cbv zeta.
  destruct (C1_roundRobin 5 ltac:(lia)) as (Hlen & Hpair & Hround).
  split; [exact Hlen|]. split; [apply Hpair; lia | apply Hround].
Defined.

(** ** More facts about lists *)

Section FilterFacts.
Context {A B : Type}.

Lemma filter_none (p : A -> bool) (l : list A) :
  (forall x, In x l -> p x = false) -> filter p l = [].
Proof.
  induction l as [|x l IH]; intros H; simpl; [reflexivity|].
  rewrite (H x) by now left. apply IH. intros; apply H; now right.
Qed.

Lemma filter_all (p : A -> bool) (l : list A) :
  (forall x, In x l -> p x = true) -> filter p l = l.
Proof.
  induction l as [|x l IH]; intros H; simpl; [reflexivity|].
  rewrite (H x) by now left. f_equal. apply IH. intros; apply H; now right.
Qed.

Lemma Permutation_filter (p : A -> bool) (l l' : list A) :
  Permutation l l' -> Permutation (filter p l) (filter p l').
Proof.
  induction 1 as [|x l l' _ IH|x y l|l l' l'' _ IH1 _ IH2]; simpl.
  - constructor.
  - destruct (p x); [now constructor | assumption].
  - destruct (p x), (p y); try reflexivity. apply perm_swap.
  - now transitivity (filter p l').
Qed.

Lemma flat_map_as_filter (f : A -> list A) (q : A -> bool) (l : list A) :
  (forall x, In x l -> f x = if q x then [x] else []) ->
  flat_map f l = filter q l.
Proof.
  induction l as [|x l IH]; intros H; simpl; [reflexivity|].
  rewrite (H x) by now left. rewrite IH by (intros; apply H; now right).
  now destruct (q x).
Qed.

Lemma map_seq_nth_error (f : nat -> B) (g : A -> B) (l : list A) :
  (forall i x, nth_error l i = Some x -> f i = g x) ->
  map f (seq 0 (List.length l)) = map g l.
Proof.
  intros H. apply nth_error_ext. intros i.
  rewrite !nth_error_map, nth_error_seq.
  destruct (Nat.ltb_spec i (List.length l)) as [Hi | Hi].
  - destruct (nth_error l i) as [x|] eqn:E.
    + cbn. now rewrite (H i x E).
    + apply nth_error_None in E. lia.
  - apply nth_error_None in Hi. now rewrite Hi.
Qed.
End FilterFacts.

Lemma filter_below_seq (n c : nat) :
  filter (fun x => (x <? Z.of_nat c)%Z) (map Z.of_nat (seq 0 n))
  = map Z.of_nat (seq 0 (Nat.min n c)).
Proof.
  induction n as [|n IH]; [reflexivity|].
  rewrite seq_S, map_app, filter_app, IH. cbn [map filter Nat.add].
  destruct (Z.ltb_spec (Z.of_nat n) (Z.of_nat c)).
  - replace (Nat.min (S n) c) with (S (Nat.min n c)) by lia.
    rewrite seq_S, map_app. cbn [map Nat.add].
    replace (Nat.min n c) with n by lia. reflexivity.
  - replace (Nat.min (S n) c) with (Nat.min n c) by lia.
    now rewrite app_nil_r.
Qed.

(** ** The seeding order is a permutation *)

Lemma seedOrder_perm (e : nat) :
  Permutation (seedOrder e) (map Z.of_nat (seq 0 (2 ^ S e))).
Proof.
  apply NoDup_Permutation_bis; [apply seedOrder_NoDup | |].
  - rewrite length_map, length_seq, length_seedOrder. lia.
  - intros s Hs.
    pose proof (proj1 (Forall_forall _ _) (seedOrder_range e) s Hs) as R.
    cbn beta in R. apply in_map_iff. exists (Z.to_nat s).
    split; [lia | apply in_seq; lia].
Qed.

Lemma smallerOrder_perm (e : nat) :
  Permutation (smallerOrder e) (map Z.of_nat (seq 0 (2 ^ e))).
Proof. destruct e as [|e]; [reflexivity | apply seedOrder_perm]. Qed.

Lemma length_smallerOrder (e : nat) : List.length (smallerOrder e) = 2 ^ e.
Proof.
  rewrite (Permutation_length (smallerOrder_perm e)).
  now rewrite length_map, length_seq.
Qed.

Lemma smallerOrder_range (e : nat) (s : Z) :
  In s (smallerOrder e) -> (0 <= s < Z.of_nat (2 ^ e))%Z.
Proof.
  intros Hs. apply (Permutation_in _ (smallerOrder_perm e)) in Hs.
  apply in_map_iff in Hs. destruct Hs as (x & <- & Hx).
  apply in_seq in Hx. lia.
Qed.

Lemma seedOrder_unfold (e : nat) :
  seedOrder e
  = flat_map (fun s => [s; (Z.of_nat (2 ^ S e) - 1 - s)%Z]) (smallerOrder e).
Proof. destruct e; reflexivity. Qed.

(** The first round, pairing by pairing, over the smaller order. *)
Lemma firstRound_pairings (teamCount rounds e : nat) :
  map pairingOf
    (map (firstRoundMatch teamCount rounds (seedOrder e)) (seq 0 (2 ^ e)))
  = map (fun s => (slotTeam teamCount (Some s),
                   slotTeam teamCount
                     (Some (Z.of_nat (2 ^ S e) - 1 - s)%Z), 1))
        (smallerOrder e).
Proof.
  rewrite map_map, <- (length_smallerOrder e).
  apply map_seq_nth_error. intros i s Hs.
  unfold pairingOf, firstRoundMatch.
  cbn [homeTeamIndex awayTeamIndex round].
  rewrite seedOrder_unfold.
  destruct (nth_error_flat_map_pairs (fun s : Z => s)
              (fun s : Z => (Z.of_nat (2 ^ S e) - 1 - s)%Z)
              (smallerOrder e) i) as [H0 H1].
  cbv beta in H0, H1. rewrite H0, H1, Hs. reflexivity.
Qed.

(** The bracket returned for two or more teams. *)
Lemma elimination_shape (teamCount : nat) :
  2 <= teamCount ->
  exists e,
    2 ^ e < teamCount <= 2 ^ S e /\
    bracketSizeOf teamCount = 2 ^ S e /\
    generateSingleElimination teamCount =
      Some {| groups := [];
              matches :=
                map (firstRoundMatch teamCount (S e) (seedOrder e))
                    (seq 0 (2 ^ e))
                ++ laterRounds e 2 (S e) (2 ^ e) (2 ^ e + 1) |}.
Proof.
  intros H.
  pose proof (Nat.log2_up_spec teamCount ltac:(lia)) as Hspec.
  assert (Hk : 1 <= Nat.log2_up teamCount).
  { change 1 with (Nat.log2_up 2). now apply Nat.log2_up_le_mono. }
  destruct (Nat.log2_up teamCount) as [|e] eqn:Ek; [lia|].
  cbn [Nat.pred] in Hspec.
  exists e. split; [exact Hspec|].
  assert (Hb : bracketSizeOf teamCount = 2 ^ S e).
  { unfold bracketSizeOf. destruct (Nat.eqb_spec teamCount 0); [lia|].
    now rewrite Ek. }
  split; [exact Hb|].
  unfold generateSingleElimination. rewrite Hb, generateSeededBracket_pow2.
  rewrite Nat.log2_up_pow2 by lia.
  assert (E1 : (2 ^ S e + 1) / 2 = 2 ^ e).
  { rewrite Nat.pow_succ_r'. rewrite (Nat.mul_comm 2), Nat.div_add_l by lia.
    rewrite (Nat.div_small 1 2) by lia. lia. }
  assert (E2 : 2 ^ S e / 2 = 2 ^ e).
  { rewrite Nat.pow_succ_r', Nat.mul_comm. apply Nat.div_mul. lia. }
  rewrite E1, E2. replace (S e - 1) with e by lia. reflexivity.
Qed.

Lemma half_pow2 (c : nat) : 2 ^ S c / 2 = 2 ^ c.
Proof. rewrite Nat.pow_succ_r', Nat.mul_comm. apply Nat.div_mul. lia. Qed.

(** Numbers, rounds and sizes of the placeholder rounds. *)
Lemma laterRounds_numbers (count : nat) :
  forall r rs mn,
  map matchNumber (laterRounds count r rs (2 ^ count) mn)
  = seq mn (2 ^ count - 1).
Proof.
  induction count as [|c IH]; intros r rs mn; [reflexivity|].
  cbn [laterRounds]. rewrite half_pow2, map_app, map_map. cbn [matchNumber].
  rewrite IH.
  assert (E : forall k s, map (fun i => mn + i) (seq s k) = seq (mn + s) k).
  { induction k as [|k IHk]; intros s; simpl; [reflexivity|].
    f_equal. rewrite IHk. f_equal. lia. }
  rewrite E, Nat.add_0_r, <- seq_app. f_equal.
  pose proof (pow2_pos c). rewrite Nat.pow_succ_r'. lia.
Qed.

Lemma laterRounds_round_count (count : nat) :
  forall r rs mn rnd,
  List.length (filter (inRound rnd) (laterRounds count r rs (2 ^ count) mn))
  = if (r <=? rnd) && (rnd <? r + count) then 2 ^ (r + count - 1 - rnd)
    else 0.
Proof.
  induction count as [|c IH]; intros r rs mn rnd.
  - cbn [laterRounds filter List.length].
    destruct (Nat.leb_spec r rnd), (Nat.ltb_spec rnd (r + 0));
      cbn [andb]; try reflexivity; lia.
  - cbn [laterRounds]. rewrite half_pow2, filter_app, length_app, IH.
    destruct (Nat.eq_dec rnd r) as [-> | Hne].
    + rewrite filter_all
        by (intros m Hm; apply in_map_iff in Hm; destruct Hm as (i & <- & _);
            apply Nat.eqb_refl).
      rewrite length_map, length_seq.
      destruct (Nat.leb_spec r r), (Nat.ltb_spec r (r + S c)),
        (Nat.leb_spec (r + 1) r); cbn [andb]; try lia.
      replace (r + S c - 1 - r) with c by lia. lia.
    + rewrite filter_none
        by (intros m Hm; apply in_map_iff in Hm; destruct Hm as (i & <- & _);
            apply Nat.eqb_neq; cbn; lia).
      cbn [List.length].
      destruct (Nat.leb_spec r rnd), (Nat.ltb_spec rnd (r + S c)),
        (Nat.leb_spec (r + 1) rnd), (Nat.ltb_spec rnd (r + 1 + c));
        cbn [andb]; try lia.
      rewrite ?Nat.add_0_l. f_equal. lia.
Qed.

Lemma laterRounds_rounds (count : nat) :
  forall r rs mp mn m,
  In m (laterRounds count r rs mp mn) ->
  r <= round m < r + count /\ stage m = getStageForRound (round m) rs.
Proof.
  induction count as [|c IH]; intros r rs mp mn m Hin; simpl in Hin;
    [contradiction|].
  apply in_app_or in Hin. destruct Hin as [Hin | Hin].
  - apply in_map_iff in Hin. destruct Hin as (i & <- & _). cbn. split; [lia|].
    reflexivity.
  - apply IH in Hin. destruct Hin as [Hr Hs]. split; [lia | exact Hs].
Qed.

Lemma firstRound_filter_round (teamCount rounds : nat) (seeded : list Z)
    (n : nat) (later : list GeneratedMatch) :
  (forall m, In m later -> 2 <= round m) ->
  filter (inRound 1)
    (map (firstRoundMatch teamCount rounds seeded) (seq 0 n) ++ later)
  = map (firstRoundMatch teamCount rounds seeded) (seq 0 n).
Proof.
  intros Hl. rewrite filter_app, filter_all, (filter_none _ later).
  - apply app_nil_r.
  - intros m Hm. apply Nat.eqb_neq. specialize (Hl m Hm). lia.
  - intros m Hm. apply in_map_iff in Hm. destruct Hm as (i & <- & _).
    reflexivity.
Qed.

(** ** Single elimination: when it returns, sizes, numbering *)

(** The single-elimination generator returns a bracket exactly for a
    positive team count; for team count 0 the seeding recursion never
    reaches a base case. *)
Theorem generateSingleElimination_returns_iff (teamCount : nat) :
  generateSingleElimination teamCount <> None <-> 1 <= teamCount.
Proof.
  split.
  - intros H. destruct teamCount; [exfalso; apply H; reflexivity | lia].
  - intros H. destruct (Nat.eq_dec teamCount 1) as [-> | Hne]; [discriminate|].
    destruct (elimination_shape teamCount ltac:(lia)) as (e & _ & _ & ->).
    discriminate.
Qed.

(** For two or more teams the bracket has one match less than slots, and
    the matches are numbered 1, 2, 3, ... in list order. *)
Theorem singleElimination_size_and_numbers (teamCount : nat) :
  2 <= teamCount ->
  exists t,
    generateSingleElimination teamCount = Some t /\
    List.length (matches t) = bracketSizeOf teamCount - 1 /\
    map matchNumber (matches t) = seq 1 (List.length (matches t)).
Proof.
  intros H. destruct (elimination_shape teamCount H) as (e & _ & Hb & Hg).
  eexists. split; [exact Hg|]. cbn [matches].
  assert (Hnum : map matchNumber
            (map (firstRoundMatch teamCount (S e) (seedOrder e)) (seq 0 (2 ^ e))
             ++ laterRounds e 2 (S e) (2 ^ e) (2 ^ e + 1))
          = seq 1 (2 ^ S e - 1)).
  { rewrite map_app, map_map, laterRounds_numbers. cbn [firstRoundMatch matchNumber].
    assert (E : map (fun i => i + 1) (seq 0 (2 ^ e)) = seq 1 (2 ^ e)).
    { rewrite <- seq_shift. apply map_ext. intros; lia. }
    rewrite E, (Nat.add_comm (2 ^ e) 1), <- seq_app. f_equal.
    pose proof (pow2_pos e). rewrite Nat.pow_succ_r'. lia. }
  assert (Hlen : List.length
            (map (firstRoundMatch teamCount (S e) (seedOrder e)) (seq 0 (2 ^ e))
             ++ laterRounds e 2 (S e) (2 ^ e) (2 ^ e + 1)) = 2 ^ S e - 1).
  { rewrite <- (length_map matchNumber), Hnum. apply length_seq. }
  split; [rewrite Hlen, Hb; reflexivity|].
  rewrite Hlen. exact Hnum.
Qed.

Lemma singleElimination_size_and_numbers_witness :
  exists t,
    generateSingleElimination 6 = Some t /\
    List.length (matches t) = bracketSizeOf 6 - 1.
Proof.
  destruct (singleElimination_size_and_numbers 6 ltac:(lia))
    as (t & Hg & Hlen & _).
  exists t. split; assumption.
Defined.

(** ** Single elimination: rounds, first round, byes, final *)

(** Round [r] of the bracket (1 <= r <= rounds) holds [2^(rounds - r)]
    matches: each round has half the matches of the round before, down to
    the single match of the last round. *)
Theorem singleElimination_round_sizes (teamCount r : nat) :
  2 <= teamCount ->
  exists t rounds,
    generateSingleElimination teamCount = Some t /\
    bracketSizeOf teamCount = 2 ^ rounds /\
    (1 <= r <= rounds ->
     List.length (filter (inRound r) (matches t)) = 2 ^ (rounds - r)) /\
    (r = 0 \/ rounds < r -> filter (inRound r) (matches t) = []).
Proof.
  intros H. destruct (elimination_shape teamCount H) as (e & _ & Hb & Hg).
  eexists. exists (S e). split; [exact Hg|]. split; [exact Hb|].
  cbn [matches].
  set (first := map (firstRoundMatch teamCount (S e) (seedOrder e))
                    (seq 0 (2 ^ e))).
  set (later := laterRounds e 2 (S e) (2 ^ e) (2 ^ e + 1)).
  assert (Hfirst : forall m, In m first -> round m = 1).
  { intros m Hm. apply in_map_iff in Hm. destruct Hm as (i & <- & _).
    reflexivity. }
  pose proof (laterRounds_round_count e 2 (S e) (2 ^ e + 1) r) as Hl.
  fold later in Hl.
  split.
  - intros Hr. rewrite filter_app, length_app, Hl.
    destruct (Nat.eq_dec r 1) as [-> | Hne].
    + rewrite filter_all
        by (intros m Hm; apply Nat.eqb_eq; now apply Hfirst).
      unfold first. rewrite length_map, length_seq.
      destruct (Nat.leb_spec 2 1), (Nat.ltb_spec 1 (2 + e)); cbn [andb];
        try lia.
      all: try (replace (S e - 1) with e by lia); try lia.
    + rewrite filter_none
        by (intros m Hm; apply Nat.eqb_neq; rewrite (Hfirst m Hm); lia).
      destruct (Nat.leb_spec 2 r), (Nat.ltb_spec r (2 + e)); cbn [andb];
        try lia.
      cbn [List.length Nat.add]. f_equal; lia.
  - intros Hr. rewrite filter_app.
    rewrite filter_none
      by (intros m Hm; apply Nat.eqb_neq; rewrite (Hfirst m Hm); lia).
    apply length_zero_iff_nil. rewrite app_nil_l, Hl.
    destruct (Nat.leb_spec 2 r), (Nat.ltb_spec r (2 + e)); cbn [andb];
      try reflexivity; lia.
Qed.

Lemma singleElimination_round_sizes_witness :
  exists t rounds,
    generateSingleElimination 5 = Some t /\
    bracketSizeOf 5 = 2 ^ rounds /\
    List.length (filter (inRound 2) (matches t)) = 2 ^ (rounds - 2).
Proof.
  destruct (singleElimination_round_sizes 5 2 ltac:(lia))
    as (t & rounds & Hg & Hb & Hr & _).
  exists t, rounds. split; [exact Hg|]. split; [exact Hb|].
  apply Hr. assert (rounds = 3); [|lia].
  apply (Nat.pow_inj_r 2); [lia|]. rewrite <- Hb. reflexivity.
Defined.

(** Teams of a slot pair are the positions below the team count. *)
Lemma teamsOfPairing_slots (teamCount : nat) (a b : Z) (r : nat) :
  teamsOfPairing (slotTeam teamCount (Some a), slotTeam teamCount (Some b), r)
  = filter (fun p => (p <? Z.of_nat teamCount)%Z) [a; b].
Proof.
  cbn. destruct (a <? Z.of_nat teamCount)%Z, (b <? Z.of_nat teamCount)%Z;
    reflexivity.
Qed.

Lemma flat_map_map {A B C : Type} (f : B -> list C) (g : A -> B)
    (l : list A) :
  flat_map f (map g l) = flat_map (fun x => f (g x)) l.
Proof. induction l as [|x l IH]; simpl; [reflexivity | now rewrite IH]. Qed.

Lemma firstRound_teams (teamCount rounds e : nat) :
  flat_map teamsOf
    (map (firstRoundMatch teamCount rounds (seedOrder e)) (seq 0 (2 ^ e)))
  = filter (fun p => (p <? Z.of_nat teamCount)%Z) (seedOrder e).
Proof.
  change teamsOf with (fun m => teamsOfPairing (pairingOf m)).
  rewrite <- (flat_map_map teamsOfPairing pairingOf).
  rewrite firstRound_pairings, seedOrder_unfold.
  induction (smallerOrder e) as [|s l IH]; [reflexivity|].
  cbn [map flat_map]. rewrite filter_app, <- IH, teamsOfPairing_slots.
  reflexivity.
Qed.

(** Every team plays in exactly one first-round match, and nothing else
    appears there: the team indices of the first round, listed match by
    match, are a rearrangement of [0 .. teamCount - 1]. *)
Theorem singleElimination_first_round_teams (teamCount : nat) :
  2 <= teamCount ->
  exists t,
    generateSingleElimination teamCount = Some t /\
    Permutation (flat_map teamsOf (filter (inRound 1) (matches t)))
                (map Z.of_nat (seq 0 teamCount)).
Proof.
  intros H. destruct (elimination_shape teamCount H) as (e & Hbound & _ & Hg).
  eexists. split; [exact Hg|]. cbn [matches].
  rewrite firstRound_filter_round
    by (intros m Hm; apply laterRounds_rounds in Hm; lia).
  rewrite firstRound_teams.
  rewrite (Permutation_filter _ _ _ (seedOrder_perm e)), filter_below_seq.
  replace (Nat.min (2 ^ S e) teamCount) with teamCount by lia.
  reflexivity.
Qed.

Lemma singleElimination_first_round_teams_witness :
  exists t,
    generateSingleElimination 5 = Some t /\
    Permutation (flat_map teamsOf (filter (inRound 1) (matches t)))
                (map Z.of_nat (seq 0 5)).
Proof. exact (singleElimination_first_round_teams 5 ltac:(lia)). Defined.

Lemma isByeMatch_pairing (m : GeneratedMatch) :
  isByeMatch m = isByePairing (pairingOf m).
Proof. reflexivity. Qed.

(** The byes go exactly to the lowest seeds: for two or more teams the bye
    matches (first-round matches with one team) are as many as the bracket
    has slots beyond the team count, and their teams are the indices
    [0 .. bracketSize - teamCount - 1]. *)
Theorem singleElimination_byes (teamCount : nat) :
  2 <= teamCount ->
  exists t,
    generateSingleElimination teamCount = Some t /\
    List.length (byeMatches t) = bracketSizeOf teamCount - teamCount /\
    Permutation (flat_map teamsOf (byeMatches t))
                (map Z.of_nat (seq 0 (bracketSizeOf teamCount - teamCount))).
Proof.
  intros H. destruct (elimination_shape teamCount H) as (e & Hbound & Hb & Hg).
  eexists. split; [exact Hg|]. unfold byeMatches. cbn [matches].
  set (first := map (firstRoundMatch teamCount (S e) (seedOrder e))
                    (seq 0 (2 ^ e))).
  set (later := laterRounds e 2 (S e) (2 ^ e) (2 ^ e + 1)).
  assert (Hlater : filter isByeMatch later = []).
  { apply filter_none. intros m Hm.
    apply laterRounds_placeholders in Hm. destruct Hm as [_ Ht].
    unfold isByeMatch. rewrite Ht. apply andb_false_r. }
  rewrite filter_app, Hlater, app_nil_r.
  assert (Hpow : 2 ^ S e = 2 * 2 ^ e) by apply Nat.pow_succ_r'.
  set (c := 2 ^ S e - teamCount).
  (* the byes and their teams, over the smaller order *)
  assert (Hbyes : map teamsOf (filter isByeMatch first)
                  = map (fun s => [s])
                      (filter (fun s => (s <? Z.of_nat c)%Z) (smallerOrder e))).
  { assert (E : map teamsOf (filter isByeMatch first)
                = map teamsOfPairing (filter isByePairing (map pairingOf first))).
    { clear. induction first as [|m l IH]; [reflexivity|].
      cbn [map filter]. rewrite isByeMatch_pairing.
      destruct (isByePairing (pairingOf m)); cbn [map]; now rewrite IH. }
    rewrite E. unfold first. rewrite firstRound_pairings.
    pose proof (smallerOrder_range e) as Hr.
    induction (smallerOrder e) as [|s l IH]; [reflexivity|].
    assert (Hs : (0 <= s < Z.of_nat (2 ^ e))%Z) by (apply Hr; now left).
    specialize (IH (fun x Hx => Hr x (or_intror Hx))).
    assert (Hslot : isByePairing
              (slotTeam teamCount (Some s),
               slotTeam teamCount (Some (Z.of_nat (2 ^ S e) - 1 - s)%Z), 1)
              = (s <? Z.of_nat c)%Z /\
            ((s <? Z.of_nat c)%Z = true ->
             teamsOfPairing
               (slotTeam teamCount (Some s),
                slotTeam teamCount (Some (Z.of_nat (2 ^ S e) - 1 - s)%Z), 1)
             = [s])).
    { unfold isByePairing. cbn [snd Nat.eqb andb].
      rewrite teamsOfPairing_slots. cbn [filter].
      destruct (Z.ltb_spec s (Z.of_nat teamCount)); [|lia].
      destruct (Z.ltb_spec (Z.of_nat (2 ^ S e) - 1 - s) (Z.of_nat teamCount));
        destruct (Z.ltb_spec s (Z.of_nat c)); try lia;
        cbn [List.length Nat.eqb]; split; try reflexivity; discriminate. }
    destruct Hslot as [Hbye Hteam].
    cbn [map filter]. rewrite Hbye.
    destruct (s <? Z.of_nat c)%Z; cbn [map]; [|exact IH].
    rewrite Hteam by reflexivity. f_equal. exact IH. }
  assert (Hperm : Permutation
            (filter (fun s => (s <? Z.of_nat c)%Z) (smallerOrder e))
            (map Z.of_nat (seq 0 c))).
  { rewrite (Permutation_filter _ _ _ (smallerOrder_perm e)), filter_below_seq.
    replace (Nat.min (2 ^ e) c) with c by lia. reflexivity. }
  rewrite Hb. fold c. split.
  - rewrite <- (length_map teamsOf), Hbyes, length_map.
    rewrite (Permutation_length Hperm). now rewrite length_map, length_seq.
  - rewrite flat_map_concat_map, Hbyes, <- flat_map_concat_map.
    assert (E : forall l : list Z, flat_map (fun s => [s]) l = l)
      by (induction l; simpl; congruence).
    rewrite E. exact Hperm.
Qed.

Lemma singleElimination_byes_witness :
  exists t,
    generateSingleElimination 5 = Some t /\
    List.length (byeMatches t) = bracketSizeOf 5 - 5.
Proof.
  destruct (singleElimination_byes 5 ltac:(lia)) as (t & Hg & Hlen & _).
  exists t. split; assumption.
Defined.

Lemma getStageForRound_final (r rounds : nat) :
  getStageForRound r rounds = FINAL <-> r = rounds.
Proof.
  unfold getStageForRound.
  destruct (Z.of_nat rounds - Z.of_nat r)%Z as [|p|p] eqn:E.
  - split; [lia | reflexivity].
  - split; [|lia].
    destruct p as [[p|p|]|[p|p|]|]; discriminate.
  - split; [discriminate | lia].
Qed.

(** The placeholder rounds end with the single match of the last round. *)
Lemma laterRounds_split (c : nat) :
  forall r rs mn,
  exists before final,
    laterRounds (S c) r rs (2 ^ S c) mn = before ++ [final] /\
    round final = r + c /\
    (forall m, In m before -> round m < r + c).
Proof.
  induction c as [|c IH]; intros r rs mn.
  - exists [], {| homeTeamIndex := None; awayTeamIndex := None; round := r;
                 matchNumber := mn + 0;
                 stage := getStageForRound r rs; groupIndex := None |}.
    split; [reflexivity|]. split; [cbn; lia | intros m []].
  - destruct (IH (r + 1) rs (mn + 2 ^ S c)) as (before & final & E & Hr & Hb).
    change (laterRounds (S (S c)) r rs (2 ^ S (S c)) mn)
      with (map (fun i => {| homeTeamIndex := None; awayTeamIndex := None;
                             round := r; matchNumber := mn + i;
                             stage := getStageForRound r rs;
                             groupIndex := None |})
                (seq 0 (2 ^ S (S c) / 2))
            ++ laterRounds (S c) (r + 1) rs (2 ^ S (S c) / 2)
                 (mn + 2 ^ S (S c) / 2)).
    rewrite half_pow2, E.
    eexists (_ ++ before), final. split; [now rewrite app_assoc|].
    split; [lia|].
    intros m Hm. apply in_app_or in Hm. destruct Hm as [Hm | Hm].
    + apply in_map_iff in Hm. destruct Hm as (i & <- & _). cbn. lia.
    + specialize (Hb m Hm). lia.
Qed.

(** For three or more teams the last match of the list is the final: it is
    the only match of stage FINAL, it is in the last round, and both of its
    sides are still to be decided. *)
Theorem singleElimination_final (teamCount : nat) :
  3 <= teamCount ->
  exists t rounds before final,
    generateSingleElimination teamCount = Some t /\
    bracketSizeOf teamCount = 2 ^ rounds /\
    matches t = before ++ [final] /\
    stage final = FINAL /\ round final = rounds /\
    homeTeamIndex final = None /\ awayTeamIndex final = None /\
    (forall m, In m before -> stage m <> FINAL /\ round m < rounds).
Proof.
  intros H.
  destruct (generateSingleElimination_shape teamCount H) as (e & He & Hb & Hg).
  destruct e as [|e]; [lia|].
  destruct (laterRounds_split e 2 (S (S e)) (2 ^ S e + 1))
    as (before & final & E & Hr & Hbefore).
  assert (Hin : In final (laterRounds (S e) 2 (S (S e)) (2 ^ S e)
                            (2 ^ S e + 1)))
    by (rewrite E; apply in_or_app; right; now left).
  destruct (laterRounds_rounds _ _ _ _ _ _ Hin) as [_ Hst].
  destruct (laterRounds_placeholders _ _ _ _ _ _ Hin) as [_ Hteams].
  assert (Hnone : homeTeamIndex final = None /\ awayTeamIndex final = None).
  { unfold teamsOf in Hteams.
    destruct (homeTeamIndex final), (awayTeamIndex final);
      try discriminate. auto. }
  eexists. exists (S (S e)).
  exists (map (firstRoundMatch teamCount (S (S e)) (seedOrder (S e)))
              (seq 0 (2 ^ S e)) ++ before), final.
  split; [exact Hg|]. split; [exact Hb|].
  split; [cbn [matches]; rewrite E; apply app_assoc|].
  split; [rewrite Hst; apply getStageForRound_final; lia|].
  split; [lia|]. split; [apply Hnone|]. split; [apply Hnone|].
  intros m Hm.
  assert (Hm' : round m < S (S e) /\
                stage m = getStageForRound (round m) (S (S e))).
  { apply in_app_or in Hm. destruct Hm as [Hm | Hm].
    - apply in_map_iff in Hm. destruct Hm as (i & <- & _). cbn. split; [lia|].
      reflexivity.
    - split; [specialize (Hbefore m Hm); lia|].
      apply (laterRounds_rounds (S e) 2 (S (S e)) (2 ^ S e) (2 ^ S e + 1)).
      rewrite E. apply in_or_app. now left. }
  destruct Hm' as [Hlt Hstage]. split; [|exact Hlt].
  rewrite Hstage. intros Hf. apply getStageForRound_final in Hf. lia.
Qed.

Lemma singleElimination_final_witness :
  exists t before final,
    generateSingleElimination 5 = Some t /\
    matches t = before ++ [final] /\ stage final = FINAL /\
    homeTeamIndex final = None /\ awayTeamIndex final = None.
Proof.
  destruct (singleElimination_final 5 ltac:(lia))
    as (t & rounds & before & final & Hg & _ & Hm & Hs & _ & Hh & Ha & _).
  exists t, before, final. repeat split; assumption.
Defined.

(** ** Round robin: shape of the generated matches *)

Lemma rr_match_wellFormed (n r : nat) (st : RRState) (k : nat) :
  rrWellFormed st -> rrWellFormed (rr_match n r st k).
Proof.
  intros (Hn & Hs & Hf). unfold rr_match.
  destruct (nth_error (rr_teams st) k) as [a|]; [|now repeat split].
  destruct (nth_error (rr_teams st) (n - 1 - k)) as [b|]; [|now repeat split].
  destruct (negb (a =? -1)%Z && negb (b =? -1)%Z); [|now repeat split].
  unfold rrWellFormed. cbn [rr_matches rr_matchNumber].
  rewrite length_app, map_app, Hs, Hn. cbn [List.length map matchNumber].
  split; [lia|]. split.
  - rewrite Nat.add_1_r, seq_S. reflexivity.
  - apply Forall_app. split; [exact Hf|]. repeat constructor.
Qed.

Lemma rr_round_wellFormed (n : nat) (st : RRState) (r : nat) :
  rrWellFormed st -> rrWellFormed (rr_round n st r).
Proof.
  intros H. unfold rr_round.
  assert (Hfold : forall ks st', rrWellFormed st' ->
            rrWellFormed (fold_left (rr_match n r) ks st')).
  { induction ks as [|k ks IH]; intros st' H'; [exact H'|].
    cbn [fold_left]. apply IH. now apply rr_match_wellFormed. }
  specialize (Hfold (seq 0 (n / 2)) st H).
  destruct Hfold as (Hn & Hs & Hf). now repeat split.
Qed.

Lemma even_padding (n : nat) :
  1 <= n -> exists h, n + n mod 2 = S (2 * h + 1).
Proof.
  intros Hn.
  pose proof (Nat.div_mod_eq n 2) as E.
  pose proof (Nat.mod_upper_bound n 2) as B.
  exists ((n + n mod 2) / 2 - 1).
  assert (Hd : (n + n mod 2) / 2 = n / 2 + n mod 2).
  { destruct (Nat.eq_dec (n mod 2) 0) as [E0 | E0].
    - rewrite E0, !Nat.add_0_r. reflexivity.
    - replace (n mod 2) with 1 in * by lia.
      replace (n + 1) with ((n / 2 + 1) * 2) by lia.
      apply Nat.div_mul. lia. }
  rewrite Hd. lia.
Qed.

(** Every round-robin match is a group-stage match without group tag
    between two different team indices below the team count, in a round
    between 1 and the number of rounds ([n - 1], or [n] for odd [n]); the
    matches are numbered 1, 2, 3, ... in list order. *)
Theorem roundRobin_matches_wellformed (n : nat) :
  let ms := matches (generateRoundRobin n) in
  map matchNumber ms = seq 1 (List.length ms) /\
  forall m, In m ms ->
    stage m = GROUP /\ groupIndex m = None /\
    1 <= round m <= n - 1 + n mod 2 /\
    exists a b : nat,
      homeTeamIndex m = Some (Z.of_nat a) /\
      awayTeamIndex m = Some (Z.of_nat b) /\
      a < n /\ b < n /\ a <> b.
Proof.
  intros ms.
  assert (Hwf : rrWellFormed
            (fold_left (rr_round (List.length (initialTeams n)))
               (seq 0 (List.length (initialTeams n) - 1))
               {| rr_matches := []; rr_matchNumber := 1;
                  rr_teams := initialTeams n |})).
  { generalize (seq 0 (List.length (initialTeams n) - 1)).
    assert (H0 : rrWellFormed {| rr_matches := []; rr_matchNumber := 1;
                                 rr_teams := initialTeams n |})
      by (repeat split; constructor).
    revert H0. generalize {| rr_matches := []; rr_matchNumber := 1;
                             rr_teams := initialTeams n |}.
    intros st H0 l. revert st H0.
    induction l as [|r l IH]; intros st H0; [exact H0|].
    cbn [fold_left]. apply IH. now apply rr_round_wellFormed. }
  destruct Hwf as (_ & Hnum & Hst).
  split; [exact Hnum|].
  intros m Hm.
  pose proof (proj1 (Forall_forall _ _) Hst m Hm) as [Hs Hg].
  split; [exact Hs|]. split; [exact Hg|].
  destruct n as [|n']; [contradiction|].
  destruct (even_padding (S n') ltac:(lia)) as [h HN].
  assert (Hp : In (pairingOf m) (map liftPairing (schedule (S n') (2 * h + 1)))).
  { rewrite <- (roundRobin_schedule (S n') h HN). now apply in_map. }
  apply in_map_iff in Hp. destruct Hp as (c & Hc & Hin).
  apply in_schedule in Hin.
  destruct Hin as (r & k & Hr & Hk & Ha & Hb & ->).
  pose proof (pairing_distinct h r k Hr Hk) as Hd.
  unfold pairingOf in Hc. cbn [liftPairing] in Hc.
  injection Hc as Hhome Haway Hround.
  split; [lia|].
  exists (posAfter (2 * h + 1) r k), (posAfter (2 * h + 1) r (2 * h + 1 - k)).
  repeat split; auto.
Qed.

(** ** Round robin: size of the rounds *)

Lemma filter_round_flat_map (F : nat -> list (nat * nat * nat)) (rnd : nat) :
  (forall r c, In c (F r) -> snd c = r + 1) ->
  forall M,
  filter (inRoundSlots rnd) (flat_map F (seq 0 M))
  = if (1 <=? rnd) && (rnd <=? M) then F (rnd - 1) else [].
Proof.
  intros HF. induction M as [|M IH].
  - cbn [seq flat_map filter].
    destruct (Nat.leb_spec 1 rnd), (Nat.leb_spec rnd 0); cbn [andb];
      try reflexivity; lia.
  - rewrite seq_S, flat_map_app, filter_app, IH. cbn [flat_map Nat.add].
    rewrite app_nil_r.
    destruct (Nat.eq_dec rnd (S M)) as [-> | Hne].
    + rewrite filter_all.
      * destruct (Nat.leb_spec 1 (S M)), (Nat.leb_spec (S M) M),
          (Nat.leb_spec (S M) (S M)); cbn [andb]; try lia.
        replace (S M - 1) with M by lia. reflexivity.
      * intros [[a b] r'] Hc. apply HF in Hc. cbn in Hc. cbn.
        apply Nat.eqb_eq. lia.
    + rewrite (filter_none _ (F M)).
      * rewrite app_nil_r.
        destruct (Nat.leb_spec 1 rnd), (Nat.leb_spec rnd M),
          (Nat.leb_spec rnd (S M)); cbn [andb]; try reflexivity; lia.
      * intros [[a b] r'] Hc. apply HF in Hc. cbn in Hc. cbn.
        apply Nat.eqb_neq. lia.
Qed.

Lemma filter_round_schedule (teamCount M rnd : nat) :
  filter (inRoundSlots rnd) (schedule teamCount M)
  = if (1 <=? rnd) && (rnd <=? M)
    then flat_map (scheduleCell teamCount M (rnd - 1)) (seq 0 (S M / 2))
    else [].
Proof.
  unfold schedule. apply filter_round_flat_map.
  intros r c Hc. apply in_flat_map in Hc. destruct Hc as (k & _ & Hc).
  apply in_scheduleCell in Hc. destruct Hc as (_ & _ & ->). reflexivity.
Qed.

(** A round cannot hold more matches than half the teams. *)
Lemma round_length_bound (teamCount h r : nat) :
  r < 2 * h + 1 ->
  2 * List.length
        (flat_map (scheduleCell teamCount (2 * h + 1) r)
                  (seq 0 (S (2 * h + 1) / 2)))
  <= teamCount.
Proof.
  intros Hr.
  pose proof (NoDup_round_slots teamCount h (r + 1)) as Hnd.
  rewrite filter_round_schedule in Hnd.
  destruct (Nat.leb_spec 1 (r + 1)); [|lia].
  destruct (Nat.leb_spec (r + 1) (2 * h + 1)); [|lia].
  cbn [andb] in Hnd. replace (r + 1 - 1) with r in Hnd by lia.
  set (cells := flat_map (scheduleCell teamCount (2 * h + 1) r)
                         (seq 0 (S (2 * h + 1) / 2))) in *.
  assert (Hlen : List.length (flat_map slotsOf cells)
                 = 2 * List.length cells).
  { apply length_flat_map_const. intros [[a b] r'] _. reflexivity. }
  rewrite <- Hlen.
  apply Nat.le_trans with (List.length (seq 0 teamCount));
    [|rewrite length_seq; lia].
  apply NoDup_incl_length; [exact Hnd|].
  intros z Hz. apply in_flat_map in Hz. destruct Hz as ([[a b] r'] & Hc & Hz).
  unfold cells in Hc. apply in_flat_map in Hc. destruct Hc as (k & _ & Hc).
  apply in_scheduleCell in Hc. destruct Hc as (Ha & Hb & E).
  assert (Ea : a = posAfter (2 * h + 1) r k) by congruence.
  assert (Eb : b = posAfter (2 * h + 1) r (2 * h + 1 - k)) by congruence.
  clear E. subst a b. apply in_seq.
  cbn [slotsOf In] in Hz. destruct Hz as [<- | [<- | []]]; lia.
Qed.

Lemma length_schedule (n h : nat) :
  n <= S (2 * h + 1) ->
  2 * List.length (schedule n (2 * h + 1)) = n * (n - 1).
Proof.
  intros Htc.
  assert (Hperm : Permutation (map unordered (schedule n (2 * h + 1)))
                              (allPairs n)).
  { apply NoDup_Permutation;
      [apply NoDup_schedule_pairs | apply NoDup_allPairs|].
    intros [x y]. rewrite (schedule_covers n h x y Htc).
    symmetry. apply in_allPairs. }
  apply Permutation_length in Hperm. rewrite length_map in Hperm.
  rewrite Hperm. apply length_allPairs.
Qed.

(** Terms that never exceed [H] and add up to [H] each are all [H]. *)
Lemma all_at_bound (f : nat -> nat) (H : nat) (l : list nat) :
  (forall x, In x l -> f x <= H) ->
  list_sum (map f l) = H * List.length l ->
  forall x, In x l -> f x = H.
Proof.
  intros Hb.
  assert (Hle : forall l', (forall x, In x l' -> f x <= H) ->
                list_sum (map f l') <= H * List.length l').
  { induction l' as [|y l' IH]; intros Hb'; cbn [map list_sum fold_right List.length];
      [lia|].
    pose proof (Hb' y (or_introl eq_refl)) as Hy.
    specialize (IH (fun x Hx => Hb' x (or_intror Hx))).
    unfold list_sum in IH. nia. }
  induction l as [|y l IH]; intros Hs x Hx; [contradiction|].
  cbn [map list_sum fold_right List.length] in Hs.
  unfold list_sum in Hle, IH.
  pose proof (Hb y (or_introl eq_refl)) as Hy.
  pose proof (Hle l (fun x Hx => Hb x (or_intror Hx))) as Hl.
  destruct Hx as [<- | Hx]; [nia|].
  apply IH; [intros; apply Hb; now right | nia | exact Hx].
Qed.

(** Every round of the round robin, from 1 to the last one ([n - 1], or
    [n] for odd [n]), holds exactly [n / 2] matches (rounded down), and no
    match carries another round number. *)
Theorem roundRobin_round_sizes (n rnd : nat) :
  2 <= n ->
  let ms := matches (generateRoundRobin n) in
  (1 <= rnd <= n - 1 + n mod 2 ->
   List.length (filter (inRound rnd) ms) = n / 2) /\
  (rnd = 0 \/ n - 1 + n mod 2 < rnd -> filter (inRound rnd) ms = []).
Proof.
  intros Hn ms.
  destruct (even_padding n ltac:(lia)) as [h HN].
  assert (Hlen : List.length (filter (inRound rnd) ms)
                 = List.length (filter (inRoundSlots rnd)
                                  (schedule n (2 * h + 1)))).
  { unfold ms.
    rewrite <- (length_filter_map (inRoundPairing rnd) (inRound rnd) pairingOf)
      by reflexivity.
    rewrite (roundRobin_schedule n h HN).
    apply length_filter_map. intros [[a b] r]. reflexivity. }
  rewrite filter_round_schedule in Hlen.
  pose proof (Nat.div_mod_eq n 2) as Ediv.
  pose proof (Nat.mod_upper_bound n 2 ltac:(lia)) as Bmod.
  split.
  - intros Hr.
    destruct (Nat.leb_spec 1 rnd); [|lia].
    destruct (Nat.leb_spec rnd (2 * h + 1)); [|lia].
    cbn [andb] in Hlen. rewrite Hlen.
    set (len := fun r => List.length
                  (flat_map (scheduleCell n (2 * h + 1) r)
                            (seq 0 (S (2 * h + 1) / 2)))).
    change (len (rnd - 1) = n / 2).
    apply (all_at_bound len (n / 2) (seq 0 (2 * h + 1))).
    + intros r Hr'. apply in_seq in Hr'.
      pose proof (round_length_bound n h r ltac:(lia)) as Hb.
      fold (len r) in Hb. lia.
    + pose proof (length_schedule n h ltac:(lia)) as Htot.
      unfold schedule in Htot. rewrite length_flat_map in Htot.
      fold len in Htot. rewrite length_seq. nia.
    + apply in_seq. lia.
  - intros Hr.
    apply length_zero_iff_nil. rewrite Hlen.
    destruct (Nat.leb_spec 1 rnd), (Nat.leb_spec rnd (2 * h + 1));
      cbn [andb]; try reflexivity; lia.
Qed.

Lemma roundRobin_round_sizes_witness :
  List.length (filter (inRound 3) (matches (generateRoundRobin 5))) = 5 / 2.
Proof.
  apply (roundRobin_round_sizes 5 3 ltac:(lia)). cbn. lia.
Defined.

(** ** Snake draft *)

Lemma nth_error_set_nth {A : Type} (l : list A) (i g : nat) (x : A) :
  nth_error (set_nth i x l) g
  = if (g =? i) && (i <? List.length l) then Some x else nth_error l g.
Proof.
  revert i g. induction l as [|y l IH]; intros i g.
  - assert (E : set_nth i x [] = []) by (destruct i; reflexivity).
    rewrite E. cbn [List.length]. rewrite Nat.ltb_nlt, andb_false_r
      || (replace (i <? 0) with false by (symmetry; apply Nat.ltb_ge; lia);
          rewrite andb_false_r).
    reflexivity.
  - destruct i as [|i], g as [|g]; cbn; try reflexivity.
    rewrite IH. reflexivity.
Qed.

Lemma set_nth_split {A : Type} (l : list A) (i : nat) (x y : A) :
  nth_error l i = Some y ->
  exists l1 l2, l = l1 ++ y :: l2 /\ set_nth i x l = l1 ++ x :: l2.
Proof.
  revert i. induction l as [|z l IH]; intros [|i] H; cbn in H;
    try discriminate.
  - injection H as ->. exists [], l. split; reflexivity.
  - destruct (IH i H) as (l1 & l2 & -> & E).
    exists (z :: l1), l2. split; [reflexivity|]. cbn. now rewrite E.
Qed.

(** Pushing a team into the group at a valid index. *)
Lemma pushTeam_spec (gs : list GeneratedGroup) (gi t : Z) :
  (0 <= gi < Z.of_nat (List.length gs))%Z ->
  List.length (pushTeam gs gi t) = List.length gs /\
  map name (pushTeam gs gi t) = map name gs /\
  Permutation (flat_map teamIndices (pushTeam gs gi t))
              (t :: flat_map teamIndices gs) /\
  forall g, groupSize (pushTeam gs gi t) g
            = groupSize gs g + (if g =? Z.to_nat gi then 1 else 0).
Proof.
  intros Hgi. unfold pushTeam.
  destruct (get_in_range gs gi Hgi) as [group Hg]. rewrite Hg.
  destruct (get_Some_lt _ _ _ Hg) as (_ & Hlt & Hn).
  unfold JsArray.set. destruct (Z.ltb_spec gi 0); [lia|].
  set (group' := {| name := name group;
                    teamIndices := teamIndices group ++ [t] |}).
  destruct (set_nth_split gs (Z.to_nat gi) group' group Hn)
    as (l1 & l2 & E & E').
  split; [apply length_set_nth|]. split; [|split].
  - rewrite E', E, !map_app. reflexivity.
  - rewrite E', E, !flat_map_app. cbn [flat_map teamIndices group'].
    rewrite <- !app_assoc. cbn [app].
    rewrite (app_assoc (flat_map teamIndices l1) (teamIndices group)
               (t :: flat_map teamIndices l2)).
    apply Permutation_sym, Permutation_cons_app.
    rewrite <- app_assoc. reflexivity.
  - intros g. unfold groupSize. rewrite nth_error_set_nth.
    destruct (Nat.eqb_spec g (Z.to_nat gi)) as [-> | Hne].
    + destruct (Nat.ltb_spec (Z.to_nat gi) (List.length gs)); [|lia].
      cbn [andb]. rewrite Hn. unfold group'. cbn [teamIndices].
      rewrite length_app. cbn. lia.
    + cbn [andb]. destruct (nth_error gs g); lia.
Qed.

Lemma draftStep_invariant (G : nat) (ts : list Z) (st : DraftState) (t : Z) :
  draftInvariant G ts st -> draftInvariant G (t :: ts) (draftStep G st t).
Proof.
  intros (Hlen & Hnames & Hperm & Hdir & Hgi & m & Hsizes).
  destruct (pushTeam_spec (d_groups st) (d_groupIndex st) t ltac:(lia))
    as (Plen & Pnames & Pperm & Psize).
  unfold draftStep. cbv zeta.
  set (gs := pushTeam (d_groups st) (d_groupIndex st) t) in *.
  assert (Hbase : List.length gs = G /\
                  map name gs = map groupName (seq 0 G) /\
                  Permutation (flat_map teamIndices gs) (t :: ts)).
  { split; [congruence|]. split; [congruence|].
    rewrite Pperm. now constructor. }
  destruct Hbase as (B1 & B2 & B3).
  assert (Hsz : forall g, g < G ->
            groupSize gs g
            = m + (if (d_direction st =? 1)%Z
                   then (if (Z.of_nat g <? d_groupIndex st)%Z then 1 else 0)
                   else (if (d_groupIndex st <? Z.of_nat g)%Z then 1 else 0))
              + (if g =? Z.to_nat (d_groupIndex st) then 1 else 0)).
  { intros g Hg. rewrite Psize, (Hsizes g Hg). reflexivity. }
  destruct (Z.geb_spec (d_groupIndex st + d_direction st) (Z.of_nat G));
    destruct (Z.ltb_spec (d_groupIndex st + d_direction st) 0);
    cbn [orb]; unfold draftInvariant;
    cbn [d_groups d_direction d_groupIndex];
    (split; [exact B1|]); (split; [exact B2|]); (split; [exact B3|]);
    (split; [lia|]); (split; [lia|]).
  all: destruct Hdir as [Hd | Hd]; rewrite Hd in *; try lia.
  all: try (exists (m + 1); intros g Hg; rewrite (Hsz g Hg);
            repeat match goal with
                   | |- context [(?a =? ?b)%Z] => destruct (Z.eqb_spec a b)
                   | |- context [(?a <? ?b)%Z] => destruct (Z.ltb_spec a b)
                   | |- context [?a =? ?b] => destruct (Nat.eqb_spec a b)
                   end; lia).
  all: exists m; intros g Hg; rewrite (Hsz g Hg);
       repeat match goal with
              | |- context [(?a =? ?b)%Z] => destruct (Z.eqb_spec a b)
              | |- context [(?a <? ?b)%Z] => destruct (Z.ltb_spec a b)
              | |- context [?a =? ?b] => destruct (Nat.eqb_spec a b)
              end; lia.
Qed.

Lemma draft_fold_invariant (G : nat) (l : list Z) :
  forall ts st,
  draftInvariant G ts st ->
  draftInvariant G (rev l ++ ts) (fold_left (draftStep G) l st).
Proof.
  induction l as [|t l IH]; intros ts st H; [exact H|].
  cbn [fold_left rev]. rewrite <- app_assoc. cbn [app].
  apply IH. now apply draftStep_invariant.
Qed.

Lemma snakeDraft_invariant (teamCount G : nat) :
  1 <= G ->
  draftInvariant G (rev (map Z.of_nat (seq 0 teamCount)))
    (fold_left (draftStep G) (map Z.of_nat (seq 0 teamCount))
       {| d_groups := map (fun g => {| name := groupName g;
                                       teamIndices := [] |}) (seq 0 G);
          d_direction := 1; d_groupIndex := 0 |}).
Proof.
  intros HG.
  rewrite <- (app_nil_r (rev _)). apply draft_fold_invariant.
  unfold draftInvariant. cbn [d_groups d_direction d_groupIndex].
  split; [now rewrite length_map, length_seq|].
  split; [now rewrite map_map|].
  split.
  - induction (seq 0 G) as [|g l IH]; [constructor | exact IH].
  - split; [now left|]. split; [lia|]. exists 0. intros g Hg.
    unfold groupSize. rewrite nth_error_map, nth_error_seq.
    destruct (Nat.ltb_spec g G); [|lia]. cbn.
    destruct (Z.ltb_spec (Z.of_nat g) 0); [lia | reflexivity].
Qed.

Lemma groupKnockout_groups (teamCount G adv : nat) (t : GeneratedTournament) :
  generateGroupKnockout teamCount G adv = Some t ->
  groups t = snakeDraft teamCount G.
Proof.
  unfold generateGroupKnockout.
  destruct (fold_left groupStageStep _ _) as [groupMs mn].
  destruct (generateSingleElimination (G * adv)) as [ko|]; [|discriminate].
  destruct (fold_left _ (matches ko) (groupMs, mn)) as [allMs mn'].
  intros E. injection E as <-. reflexivity.
Qed.

(** ** Group + knockout: the groups *)

Lemma groupName_inj (g g' : nat) :
  (Z.of_nat g < 65536)%Z -> (Z.of_nat g' < 65536)%Z ->
  groupName g = groupName g' -> g = g'.
Proof.
  intros Hg Hg' H. unfold groupName, JsString.fromCharCode in H.
  apply app_inv_head in H.
  apply (f_equal (fun l => Z.of_N (hd 0%N l))) in H. cbn [hd] in H.
  rewrite !N2Z.inj_mod, !nat_N_Z in H.
  change (Z.of_N 65536) with 65536%Z in H.
  pose proof (Z.mod_pos_bound (Z.of_nat (65 + g)) 65536 ltac:(lia)) as B1.
  pose proof (Z.mod_pos_bound (Z.of_nat (65 + g')) 65536 ltac:(lia)) as B2.
  pose proof (Z.div_mod (Z.of_nat (65 + g)) 65536 ltac:(lia)) as E1.
  pose proof (Z.div_mod (Z.of_nat (65 + g')) 65536 ltac:(lia)) as E2.
  lia.
Qed.

Lemma NoDup_groupNames (G : nat) :
  (Z.of_nat G <= 65536)%Z -> NoDup (map groupName (seq 0 G)).
Proof.
  intros HG.
  assert (H : forall n start, start + n <= G ->
            NoDup (map groupName (seq start n))).
  { induction n as [|n IH]; intros start Hle; cbn [seq map]; constructor.
    - intros Hin. apply in_map_iff in Hin. destruct Hin as (g & Hg & Hin).
      apply in_seq in Hin. apply groupName_inj in Hg; lia.
    - apply IH. lia. }
  apply H. lia.
Qed.

(** The snake draft puts every team into exactly one group: for a positive
    group count the generator returns that many groups; group [g] is named
    "Group " followed by the character with code [65 + g] (A, B, C, ...;
    [String.fromCharCode] takes the code modulo 2^16, so the names are
    pairwise different for up to 65536 groups); and the team indices of
    all groups together are a rearrangement of [0 .. teamCount - 1]. *)
Theorem groupKnockout_groups_partition (teamCount G adv : nat)
    (t : GeneratedTournament) :
  1 <= G ->
  generateGroupKnockout teamCount G adv = Some t ->
  List.length (groups t) = G /\
  map name (groups t)
  = map (fun g => JsString.literal "Group "
                  ++ [(N.of_nat (65 + g) mod 65536)%N]) (seq 0 G) /\
  Permutation (flat_map teamIndices (groups t))
              (map Z.of_nat (seq 0 teamCount)) /\
  ((Z.of_nat G <= 65536)%Z -> NoDup (map name (groups t))).
Proof.
  intros HG Ht. rewrite (groupKnockout_groups _ _ _ _ Ht).
  destruct (snakeDraft_invariant teamCount G HG) as (Hlen & Hn & Hp & _).
  unfold snakeDraft. cbv zeta.
  split; [exact Hlen|]. split; [exact Hn|].
  split; [rewrite Hp; apply Permutation_sym, Permutation_rev|].
  intros H16. unfold snakeDraft in Hn. cbv zeta in Hn. rewrite Hn.
  apply NoDup_groupNames, H16.
Qed.

Lemma groupKnockout_groups_partition_witness :
  exists t,
    generateGroupKnockout 7 3 2 = Some t /\
    List.length (groups t) = 3 /\
    Permutation (flat_map teamIndices (groups t)) (map Z.of_nat (seq 0 7)).
Proof.
  eexists. split; [reflexivity|].
  destruct (groupKnockout_groups_partition 7 3 2 _ ltac:(lia) eq_refl)
    as (Hlen & _ & Hp & _).
  split; assumption.
Defined.

(** The snake draft balances the groups: the sizes of any two groups
    differ by at most one team. *)
Theorem groupKnockout_groups_balanced (teamCount G adv : nat)
    (t : GeneratedTournament) (g g' : nat) :
  generateGroupKnockout teamCount G adv = Some t ->
  g < G -> g' < G ->
  groupSize (groups t) g <= groupSize (groups t) g' + 1.
Proof.
  intros Ht Hg Hg'. rewrite (groupKnockout_groups _ _ _ _ Ht).
  destruct (snakeDraft_invariant teamCount G ltac:(lia))
    as (_ & _ & _ & _ & _ & m & Hs).
  unfold snakeDraft. cbv zeta.
  rewrite (Hs g Hg), (Hs g' Hg').
  repeat match goal with
         | |- context [(?a =? ?b)%Z] => destruct (Z.eqb_spec a b)
         | |- context [(?a <? ?b)%Z] => destruct (Z.ltb_spec a b)
         end; lia.
Qed.

Lemma groupKnockout_groups_balanced_witness :
  exists t,
    generateGroupKnockout 7 3 2 = Some t /\
    groupSize (groups t) 0 <= groupSize (groups t) 2 + 1.
Proof.
  eexists. split; [reflexivity|].
  apply (groupKnockout_groups_balanced 7 3 2 _ 0 2 eq_refl); lia.
Defined.

(** ** Group + knockout: the matches *)

Lemma fold_numbered (f : nat -> GeneratedMatch -> GeneratedMatch)
    (l : list GeneratedMatch) :
  forall ms mn,
  fold_left
    (fun (a : list GeneratedMatch * nat) (m : GeneratedMatch) =>
       let '(ms', mn') := a in (ms' ++ [f mn' m], mn' + 1))
    l (ms, mn)
  = (ms ++ numbered f mn l, mn + List.length l).
Proof.
  induction l as [|m l IH]; intros ms mn; cbn [fold_left numbered List.length].
  - now rewrite app_nil_r, Nat.add_0_r.
  - rewrite IH, <- app_assoc. cbn [app]. f_equal; [|lia].
    now rewrite Nat.add_1_r.
Qed.

Lemma length_numbered f mn l : List.length (numbered f mn l) = List.length l.
Proof. revert mn. induction l; intros; cbn; auto. Qed.

Lemma in_numbered f mn l x :
  In x (numbered f mn l) -> exists k m, In m l /\ x = f k m.
Proof.
  revert mn. induction l as [|m l IH]; intros mn H; [contradiction|].
  destruct H as [<- | H].
  - exists mn, m. split; [now left | reflexivity].
  - destruct (IH _ H) as (k & m' & Hin & ->). exists k, m'.
    split; [now right | reflexivity].
Qed.

Lemma numbers_of_numbered f mn l :
  (forall k m, matchNumber (f k m) = k) ->
  map matchNumber (numbered f mn l) = seq mn (List.length l).
Proof.
  intros Hf. revert mn. induction l as [|m l IH]; intros mn; cbn;
    [reflexivity|].
  now rewrite Hf, IH.
Qed.

Lemma groupStage_fold (ggs : list (nat * GeneratedGroup)) :
  forall ms mn,
  fold_left groupStageStep ggs (ms, mn)
  = (ms ++ groupStage mn ggs, mn + List.length (groupStage mn ggs)).
Proof.
  induction ggs as [|[g group] rest IH]; intros ms mn;
    cbn [fold_left groupStage List.length].
  - now rewrite app_nil_r, Nat.add_0_r.
  - unfold groupStageStep at 2. cbv zeta.
    change (fun (a : list GeneratedMatch * nat) (m : GeneratedMatch) =>
              let '(ms', mn0) := a in
              (ms' ++ [ {| homeTeamIndex := remapTeam (teamIndices group)
                                              (homeTeamIndex m);
                           awayTeamIndex := remapTeam (teamIndices group)
                                              (awayTeamIndex m);
                           round := round m; matchNumber := mn0;
                           stage := GROUP; groupIndex := Some g |} ],
               mn0 + 1))
      with (fun (a : list GeneratedMatch * nat) (m : GeneratedMatch) =>
              let '(ms', mn0) := a in
              (ms' ++ [regroup g (teamIndices group) mn0 m], mn0 + 1)).
    rewrite fold_numbered, IH, <- app_assoc.
    rewrite length_app, length_numbered. f_equal. lia.
Qed.

Lemma numbers_of_groupStage (ggs : list (nat * GeneratedGroup)) :
  forall mn,
  map matchNumber (groupStage mn ggs)
  = seq mn (List.length (groupStage mn ggs)).
Proof.
  induction ggs as [|[g group] rest IH]; intros mn; cbn [groupStage];
    [reflexivity|].
  rewrite map_app, length_app, seq_app, IH, length_numbered.
  rewrite numbers_of_numbered by reflexivity. reflexivity.
Qed.

(** The indices of a round-robin match. *)
Lemma roundRobin_match_indices (n : nat) (m : GeneratedMatch) :
  In m (matches (generateRoundRobin n)) ->
  exists a b : nat,
    homeTeamIndex m = Some (Z.of_nat a) /\
    awayTeamIndex m = Some (Z.of_nat b) /\
    a < n /\ b < n /\ a <> b /\ 1 <= round m.
Proof.
  intros Hm. destruct n as [|n']; [contradiction|].
  destruct (even_padding (S n') ltac:(lia)) as [h HN].
  assert (Hp : In (pairingOf m) (map liftPairing (schedule (S n') (2 * h + 1)))).
  { rewrite <- (roundRobin_schedule (S n') h HN). now apply in_map. }
  apply in_map_iff in Hp. destruct Hp as (c & Hc & Hin).
  apply in_schedule in Hin.
  destruct Hin as (r & k & Hr & Hk & Ha & Hb & ->).
  pose proof (pairing_distinct h r k Hr Hk) as Hd.
  unfold pairingOf in Hc. cbn [liftPairing] in Hc.
  exists (posAfter (2 * h + 1) r k), (posAfter (2 * h + 1) r (2 * h + 1 - k)).
  repeat split; try congruence; try assumption.
  assert (round m = r + 1) by congruence. lia.
Qed.

(** Every match of the group stage is played inside its group. *)
Lemma in_groupStage (ggs : list (nat * GeneratedGroup)) :
  forall mn x,
  In x (groupStage mn ggs) ->
  stage x = GROUP /\ 1 <= round x /\
  exists g group a b ta tb,
    In (g, group) ggs /\ groupIndex x = Some g /\
    homeTeamIndex x = Some ta /\ awayTeamIndex x = Some tb /\
    nth_error (teamIndices group) a = Some ta /\
    nth_error (teamIndices group) b = Some tb /\ a <> b.
Proof.
  induction ggs as [|[g group] rest IH]; intros mn x Hx; [contradiction|].
  cbn [groupStage] in Hx. apply in_app_or in Hx. destruct Hx as [Hx | Hx].
  - apply in_numbered in Hx. destruct Hx as (k & m & Hm & ->).
    apply roundRobin_match_indices in Hm.
    destruct Hm as (a & b & Hh & Ha & Hlt & Hlt' & Hne & Hr).
    split; [reflexivity|]. split; [exact Hr|].
    destruct (nth_error (teamIndices group) a) as [ta|] eqn:Ea;
      [|apply nth_error_None in Ea; lia].
    destruct (nth_error (teamIndices group) b) as [tb|] eqn:Eb;
      [|apply nth_error_None in Eb; lia].
    exists g, group, a, b, ta, tb.
    split; [now left|]. split; [reflexivity|].
    unfold regroup. cbn [homeTeamIndex awayTeamIndex].
    rewrite Hh, Ha. unfold remapTeam, get.
    destruct (Z.ltb_spec (Z.of_nat a) 0); [lia|].
    destruct (Z.ltb_spec (Z.of_nat b) 0); [lia|].
    rewrite !Nat2Z.id. auto.
  - destruct (IH _ _ Hx)
      as (Hs & Hr & g' & group' & a & b & ta & tb & Hin & Hrest).
    split; [exact Hs|]. split; [exact Hr|].
    exists g', group', a, b, ta, tb. split; [now right | exact Hrest].
Qed.

Lemma lastGroupRound_bound (ms : list GeneratedMatch) (m : GeneratedMatch) :
  In m ms -> round m <= lastGroupRoundOf ms.
Proof.
  unfold lastGroupRoundOf.
  assert (H : forall l acc x,
            (x <= acc \/ In x l) -> x <= fold_left Nat.max l acc).
  { induction l as [|y l IH]; intros acc x [Hx | Hx]; cbn [fold_left].
    - exact Hx.
    - contradiction.
    - apply IH. left. lia.
    - destruct Hx as [-> | Hx]; apply IH; [left; lia | now right]. }
  intros Hm. apply H. right. now apply in_map.
Qed.

(** The matches of a group + knockout tournament. *)
Lemma groupKnockout_matches_shape (teamCount G adv : nat)
    (t : GeneratedTournament) :
  generateGroupKnockout teamCount G adv = Some t ->
  exists ko,
    generateSingleElimination (G * adv) = Some ko /\
    let gs := snakeDraft teamCount G in
    let groupMs := groupStage 1 (combine (seq 0 (List.length gs)) gs) in
    matches t
    = groupMs ++
      numbered (knockoutPlaceholder (lastGroupRoundOf groupMs))
               (1 + List.length groupMs) (matches ko).
Proof.
  unfold generateGroupKnockout. rewrite groupStage_fold. cbn [app].
  destruct (generateSingleElimination (G * adv)) as [ko|]; [|discriminate].
  change (fun (a : list GeneratedMatch * nat) (m : GeneratedMatch) =>
            let '(ms', mn) := a in
            (ms' ++ [ {| homeTeamIndex := None; awayTeamIndex := None;
                         round := lastGroupRoundOf ?gm + round m;
                         matchNumber := mn; stage := stage m;
                         groupIndex := groupIndex m |} ], mn + 1))
    with (fun (a : list GeneratedMatch * nat) (m : GeneratedMatch) =>
            let '(ms', mn) := a in
            (ms' ++ [knockoutPlaceholder (lastGroupRoundOf gm) mn m], mn + 1)).
  rewrite fold_numbered. intros E. injection E as <-.
  exists ko. split; reflexivity.
Qed.

Lemma singleElimination_returns (teamCount : nat) :
  1 <= teamCount -> exists t, generateSingleElimination teamCount = Some t.
Proof.
  intros H. destruct (Nat.eq_dec teamCount 1) as [-> | Hne];
    [eexists; reflexivity|].
  destruct (elimination_shape teamCount ltac:(lia)) as (e & _ & _ & ->).
  eexists; reflexivity.
Qed.

Lemma laterRounds_ungrouped (count : nat) :
  forall r rs mp mn m,
  In m (laterRounds count r rs mp mn) -> groupIndex m = None.
Proof.
  induction count as [|c IH]; intros r rs mp mn m Hin; simpl in Hin;
    [contradiction|].
  apply in_app_or in Hin. destruct Hin as [Hin | Hin].
  - apply in_map_iff in Hin. destruct Hin as (i & <- & _). reflexivity.
  - now apply IH in Hin.
Qed.

(** Bracket matches carry no group tag and a round of at least 1. *)
Lemma singleElimination_ungrouped (teamCount : nat) (t : GeneratedTournament)
    (m : GeneratedMatch) :
  generateSingleElimination teamCount = Some t ->
  In m (matches t) -> groupIndex m = None /\ 1 <= round m.
Proof.
  unfold generateSingleElimination.
  destruct (generateSeededBracket (bracketSizeOf teamCount)); [|discriminate].
  intros E. injection E as <-. cbn [matches]. intros Hm.
  apply in_app_or in Hm. destruct Hm as [Hm | Hm].
  - apply in_map_iff in Hm. destruct Hm as (i & <- & _). cbn. split; [|lia].
    reflexivity.
  - split; [exact (laterRounds_ungrouped _ _ _ _ _ _ Hm)|].
    apply laterRounds_rounds in Hm. lia.
Qed.

Lemma in_combine_seq {A : Type} (l : list A) (s i : nat) (x : A) :
  In (i, x) (combine (seq s (List.length l)) l) ->
  s <= i /\ nth_error l (i - s) = Some x.
Proof.
  revert s. induction l as [|y l IH]; intros s H; [contradiction|].
  cbn in H. destruct H as [E | H].
  - injection E as <- <-. rewrite Nat.sub_diag. split; [lia | reflexivity].
  - apply IH in H. destruct H as [Hs Hn]. split; [lia|].
    replace (i - s) with (S (i - S s)) by lia. exact Hn.
Qed.

Lemma NoDup_flat_map_inner {A B : Type} (f : A -> list B) (l : list A)
    (x : A) :
  NoDup (flat_map f l) -> In x l -> NoDup (f x).
Proof.
  induction l as [|y l IH]; intros Hnd Hx; [contradiction|].
  cbn in Hnd. destruct Hx as [-> | Hx].
  - now apply NoDup_app_remove_r in Hnd.
  - apply IH; [now apply NoDup_app_remove_l in Hnd | exact Hx].
Qed.

(** The group + knockout generator returns exactly when the knockout
    bracket has a participant, that is when both the group count and the
    number advancing per group are positive. *)
Theorem groupKnockout_returns_iff (teamCount G adv : nat) :
  generateGroupKnockout teamCount G adv <> None <-> 1 <= G /\ 1 <= adv.
Proof.
  unfold generateGroupKnockout.
  destruct (fold_left groupStageStep _ _) as [groupMs mn].
  split.
  - intros H. destruct (G * adv) as [|k] eqn:E; [|nia].
    exfalso. apply H. reflexivity.
  - intros [HG Ha].
    destruct (singleElimination_returns (G * adv) ltac:(nia)) as [ko ->].
    destruct (fold_left _ (matches ko) (groupMs, mn)). discriminate.
Qed.

(** Group-stage matches carry their group's index, are tagged GROUP and
    pair two different teams of that group; the knockout matches carry no
    group index, have both sides open, and come in rounds after every
    group-stage round. *)
Theorem groupKnockout_match_kinds (teamCount G adv : nat)
    (t : GeneratedTournament) (m : GeneratedMatch) :
  1 <= G ->
  generateGroupKnockout teamCount G adv = Some t ->
  In m (matches t) ->
  match groupIndex m with
  | Some g =>
      stage m = GROUP /\
      exists group ta tb,
        nth_error (groups t) g = Some group /\
        homeTeamIndex m = Some ta /\ awayTeamIndex m = Some tb /\
        In ta (teamIndices group) /\ In tb (teamIndices group) /\ ta <> tb
  | None =>
      homeTeamIndex m = None /\ awayTeamIndex m = None /\
      forall m', In m' (matches t) -> groupIndex m' <> None ->
                 round m' < round m
  end.
Proof.
  intros HG Ht Hm.
  destruct (groupKnockout_matches_shape _ _ _ _ Ht) as (ko & Hko & Hshape).
  cbv zeta in Hshape.
  pose proof (groupKnockout_groups _ _ _ _ Ht) as Hgroups.
  set (gs := snakeDraft teamCount G) in *.
  set (groupMs := groupStage 1 (combine (seq 0 (List.length gs)) gs)) in *.
  assert (Hnd : NoDup (flat_map teamIndices gs)).
  { destruct (snakeDraft_invariant teamCount G HG) as (_ & _ & Hp & _).
    apply (Permutation_NoDup (Permutation_sym Hp)).
    apply (Permutation_NoDup (Permutation_rev _)).
    apply NoDup_map_injective; [intros x y; lia | apply seq_NoDup]. }
  assert (Hgroup : forall x, In x groupMs ->
            stage x = GROUP /\ 1 <= round x /\
            exists g group ta tb,
              groupIndex x = Some g /\ nth_error gs g = Some group /\
              homeTeamIndex x = Some ta /\ awayTeamIndex x = Some tb /\
              In ta (teamIndices group) /\ In tb (teamIndices group) /\
              ta <> tb).
  { intros x Hx. apply in_groupStage in Hx.
    destruct Hx as (Hs & Hr & g & group & a & b & ta & tb
                    & Hin & Hgi & Hh & Ha & Ea & Eb & Hne).
    split; [exact Hs|]. split; [exact Hr|].
    apply in_combine_seq in Hin. destruct Hin as [_ Hn].
    rewrite Nat.sub_0_r in Hn.
    exists g, group, ta, tb. repeat split; try assumption.
    - eapply nth_error_In; eassumption.
    - eapply nth_error_In; eassumption.
    - intros ->.
      assert (Hg : NoDup (teamIndices group)).
      { apply (NoDup_flat_map_inner teamIndices gs group Hnd).
        eapply nth_error_In; eassumption. }
      apply Hne.
      apply (proj1 (NoDup_nth_error _) Hg);
        [apply nth_error_Some | ]; congruence. }
  assert (Hknock : forall x,
            In x (numbered (knockoutPlaceholder (lastGroupRoundOf groupMs))
                    (1 + List.length groupMs) (matches ko)) ->
            groupIndex x = None /\ homeTeamIndex x = None /\
            awayTeamIndex x = None /\ lastGroupRoundOf groupMs < round x).
  { intros x Hx. apply in_numbered in Hx. destruct Hx as (k & m0 & Hm0 & ->).
    destruct (singleElimination_ungrouped _ _ _ Hko Hm0) as [Hg Hr].
    cbn. repeat split; try assumption. lia. }
  rewrite Hshape in Hm. apply in_app_or in Hm. destruct Hm as [Hm | Hm].
  - destruct (Hgroup m Hm)
      as (Hs & _ & g & group & ta & tb & Hgi & Hrest).
    rewrite Hgi. split; [exact Hs|].
    exists group, ta, tb. rewrite Hgroups. exact Hrest.
  - destruct (Hknock m Hm) as (Hgi & Hh & Ha & Hr).
    rewrite Hgi. split; [exact Hh|]. split; [exact Ha|].
    intros m' Hm' Hgi'. rewrite Hshape in Hm'.
    apply in_app_or in Hm'. destruct Hm' as [Hm' | Hm'].
    + pose proof (lastGroupRound_bound groupMs m' Hm'). lia.
    + destruct (Hknock m' Hm') as (E & _). contradiction.
Qed.

Lemma groupKnockout_match_kinds_witness :
  exists t m,
    generateGroupKnockout 8 2 2 = Some t /\
    nth_error (matches t) 0 = Some m /\
    groupIndex m = Some 0 /\ stage m = GROUP.
Proof.
  eexists. eexists. split; [reflexivity|]. split; [reflexivity|].
  split; [reflexivity|].
  pose proof (groupKnockout_match_kinds 8 2 2 _ _ ltac:(lia) eq_refl
                (or_introl eq_refl)) as H.
  cbn [groupIndex] in H. exact (proj1 H).
Defined.

(** The matches of a group + knockout tournament are numbered 1, 2, 3, ...
    in list order, across the group stage and the knockout stage. *)
Theorem groupKnockout_match_numbers (teamCount G adv : nat)
    (t : GeneratedTournament) :
  generateGroupKnockout teamCount G adv = Some t ->
  map matchNumber (matches t) = seq 1 (List.length (matches t)).
Proof.
  intros Ht.
  destruct (groupKnockout_matches_shape _ _ _ _ Ht) as (ko & _ & Hshape).
  cbv zeta in Hshape. rewrite Hshape.
  rewrite map_app, length_app, seq_app, numbers_of_groupStage.
  rewrite numbers_of_numbered by reflexivity.
  now rewrite length_numbered.
Qed.

Lemma groupKnockout_match_numbers_witness :
  exists t,
    generateGroupKnockout 8 2 2 = Some t /\
    map matchNumber (matches t) = seq 1 (List.length (matches t)).
Proof.
  eexists. split; [reflexivity|].
  apply (groupKnockout_match_numbers 8 2 2). reflexivity.
Defined.

Lemma groupKnockout_returns (teamCount G adv : nat) :
  1 <= G -> 1 <= adv ->
  exists t, generateGroupKnockout teamCount G adv = Some t.
Proof.
  intros HG Ha. unfold generateGroupKnockout.
  destruct (fold_left groupStageStep _ _) as [groupMs mn].
  destruct (singleElimination_returns (G * adv) ltac:(nia)) as [ko ->].
  destruct (fold_left _ (matches ko) (groupMs, mn)). eexists; reflexivity.
Qed.

(** ** The format dispatcher *)

(** Behind the guards of the generate route (at least one team; group count
    and advancing count, when given, at least 1) the generator returns a
    tournament for every format, also when the options are left out and
    the group + knockout format falls back to [max 2 (teamCount / 4)]
    groups with 2 advancing. *)
Theorem generateTournamentMatches_returns (format : TournamentFormat)
    (teamCount : nat) (options : option GenerateOptions) :
  1 <= teamCount -> optionsValid options ->
  exists t, generateTournamentMatches format teamCount options = Some t.
Proof.
  intros Htc Hopt. destruct format; cbn [generateTournamentMatches].
  - eexists; reflexivity.
  - now apply singleElimination_returns.
  - now apply singleElimination_returns.
  - apply groupKnockout_returns.
    + destruct options as [[[g|] [a|]]|];
        cbn [optionsValid opt_groupCount opt_advancingPerGroup] in Hopt;
        try (apply Nat.le_trans with 2; [lia | apply Nat.le_max_l]); lia.
    + destruct options as [[[g|] [a|]]|];
        cbn [optionsValid opt_groupCount opt_advancingPerGroup] in Hopt; lia.
Qed.

Lemma generateTournamentMatches_returns_witness :
  exists t, generateTournamentMatches GROUP_KNOCKOUT 9 None = Some t.
Proof.
  apply generateTournamentMatches_returns; [lia | exact I].
Defined.

(** ** Scoring engine: acceptance, buckets, alignment *)

Lemma bucket_extend (scores : list Z) (periodIndex i : Z) :
  bucket (extend scores periodIndex) i = bucket scores i.
Proof.
  rewrite extend_closed. unfold bucket, get.
  destruct (Z.ltb_spec i 0); [reflexivity|].
  rewrite nth_error_app.
  destruct (Nat.ltb_spec (Z.to_nat i) (List.length scores)) as [Hlt | Hge];
    [reflexivity|].
  assert (E : nth_error scores (Z.to_nat i) = None)
    by (apply nth_error_None; lia).
  rewrite E.
  destruct (nth_error (repeat 0%Z _) _) as [v|] eqn:Er; [|reflexivity].
  apply nth_error_In, repeat_spec in Er. now subst.
Qed.

Lemma bucket_updateBucket (scores : list Z) (idx i : Z) (f : Z -> Z) :
  (0 <= idx < Z.of_nat (List.length scores))%Z ->
  bucket (updateBucket scores idx f) i
  = if (i =? idx)%Z then f (bucket scores idx) else bucket scores i.
Proof.
  intros Hidx. destruct (get_in_range scores idx Hidx) as [cur Hc].
  unfold updateBucket. rewrite Hc.
  unfold bucket at 2. rewrite Hc.
  unfold bucket, get, JsArray.set.
  destruct (Z.ltb_spec idx 0); [lia|].
  destruct (Z.eqb_spec i idx) as [-> | Hne].
  - destruct (Z.ltb_spec idx 0); [lia|].
    rewrite nth_error_set_nth_eq by lia. reflexivity.
  - destruct (Z.ltb_spec i 0); [reflexivity|].
    rewrite nth_error_set_nth.
    destruct (Nat.eqb_spec (Z.to_nat i) (Z.to_nat idx)); [lia|].
    reflexivity.
Qed.

(** [applyScore] accepts exactly a configured increment on a LIVE match;
    when it rejects, it hands back the state it was given, saying which of
    the two checks failed. *)
Theorem applyScore_accepts_iff (h : SportHandler) (state : MatchState)
    (side : TeamSide) (points : Z) :
  (valid (applyScore h state side points) = true <->
   status state = LIVE /\ In points (scoreIncrements (config h))) /\
  (valid (applyScore h state side points) = false ->
   newState (applyScore h state side points) = state /\
   message (applyScore h state side points)
   = Some (if MatchStatus_eqb (status state) LIVE
           then "Invalid point value" else "Match is not live")%string).
Proof.
  assert (Hex : existsb (Z.eqb points) (scoreIncrements (config h)) = true
                <-> In points (scoreIncrements (config h))).
  { rewrite existsb_exists. split.
    - intros (x & Hx & E). apply Z.eqb_eq in E. now subst.
    - intros Hin. exists points. split; [exact Hin | apply Z.eqb_refl]. }
  unfold applyScore, validateAction.
  destruct (status state) eqn:Est; cbn [MatchStatus_eqb negb v_valid v_message];
    try (split; [split; [discriminate | intros [E _]; discriminate E]
                | intros _; split; reflexivity]).
  destruct (existsb (Z.eqb points) (scoreIncrements (config h))) eqn:Eex;
    cbn [negb v_valid v_message valid newState message].
  - split; [|discriminate]. split; [|reflexivity].
    intros _. split; [reflexivity | now apply Hex].
  - split; [|intros _; split; reflexivity].
    split; [discriminate|]. intros [_ Hin]. apply Hex in Hin. discriminate.
Qed.

(** A successful [applyScore] credits exactly [points]: to the scorer's
    total and to the scorer's bucket of the current period (period number
    at least 1); every other bucket of either side reads as before, and
    period number and status are untouched. *)
Theorem applyScore_credits_current_bucket (h : SportHandler)
    (state : MatchState) (scorer : TeamSide) (points : Z) :
  (1 <= currentPeriod state)%Z ->
  valid (applyScore h state scorer points) = true ->
  let state' := newState (applyScore h state scorer points) in
  homeScore state' = (homeScore state + creditTo HOME scorer points)%Z /\
  awayScore state' = (awayScore state + creditTo AWAY scorer points)%Z /\
  currentPeriod state' = currentPeriod state /\
  status state' = status state /\
  forall i : Z,
    bucket (homePeriodScores state') i
    = (bucket (homePeriodScores state) i
       + if (i =? currentPeriod state - 1)%Z
         then creditTo HOME scorer points else 0)%Z /\
    bucket (awayPeriodScores state') i
    = (bucket (awayPeriodScores state) i
       + if (i =? currentPeriod state - 1)%Z
         then creditTo AWAY scorer points else 0)%Z.
Proof.
  intros Hp Hv. cbv zeta. rewrite (applyScore_newState _ _ _ _ Hv). cbv zeta.
  set (idx := (currentPeriod state - 1)%Z).
  pose proof (length_extend (homePeriodScores state) idx) as Lh.
  pose proof (length_extend (awayPeriodScores state) idx) as La.
  destruct scorer; cbn [homeScore awayScore currentPeriod status
                          homePeriodScores awayPeriodScores creditTo];
    (split; [lia|]); (split; [lia|]); (split; [reflexivity|]);
    (split; [reflexivity|]); intros i;
    rewrite ?bucket_updateBucket by lia; rewrite ?bucket_extend;
    destruct (Z.eqb_spec i idx); subst; split; lia.
Qed.

Lemma applyScore_credits_current_bucket_witness :
  bucket (homePeriodScores
            (newState (applyScore createBasketballHandler
                         (volleyballAt [10; 4]%Z [8; 6]%Z 2) HOME 3))) 1
  = (4 + 3)%Z.
Proof.
  destruct (applyScore_credits_current_bucket createBasketballHandler
              (volleyballAt [10; 4]%Z [8; 6]%Z 2) HOME 3)
    as (_ & _ & _ & _ & Hb); [cbn; lia | reflexivity |].
  exact (proj1 (Hb 1%Z)).
Defined.

Lemma applyScore_rejected (h : SportHandler) (state : MatchState)
    (side : TeamSide) (points : Z) :
  valid (applyScore h state side points) = false ->
  newState (applyScore h state side points) = state.
Proof.
  unfold applyScore.
  destruct (v_valid (validateAction h state side points));
    cbn [negb valid newState]; [discriminate | reflexivity].
Qed.

Lemma length_extend_max (scores : list Z) (idx : Z) :
  List.length (extend scores idx)
  = Nat.max (List.length scores) (Z.to_nat (idx + 1)).
Proof. rewrite extend_closed, length_app, repeat_length. lia. Qed.

(** The engine keeps the period arrays aligned with the period number: if
    both arrays have exactly [currentPeriod] entries, they still do after
    [applyScore] (accepted or not), after [undoScore] with any arguments
    and after [nextPeriod]. *)
Theorem engine_keeps_arrays_aligned (h : SportHandler) (state : MatchState)
    (side : TeamSide) (points period : Z) :
  periodArraysAligned state ->
  periodArraysAligned (newState (applyScore h state side points)) /\
  periodArraysAligned (undoScore state side points period) /\
  periodArraysAligned (nextPeriod h state).
Proof.
  intros [Hh Ha]. split; [|split].
  - destruct (valid (applyScore h state side points)) eqn:Hv.
    + rewrite (applyScore_newState _ _ _ _ Hv). cbv zeta.
      destruct side; split;
        cbn [homePeriodScores awayPeriodScores currentPeriod];
        rewrite ?length_updateBucket, length_extend_max; lia.
    + rewrite (applyScore_rejected _ _ _ _ Hv). split; assumption.
  - destruct side; split;
      cbn [undoScore homePeriodScores awayPeriodScores currentPeriod];
      rewrite ?length_updateBucket; assumption.
  - unfold nextPeriod.
    destruct (currentPeriod state >=? periods (config h))%Z;
      [split; assumption|].
    split; cbn [homePeriodScores awayPeriodScores currentPeriod];
      rewrite length_app; cbn [List.length]; lia.
Qed.

Lemma engine_keeps_arrays_aligned_witness :
  periodArraysAligned
    (newState (applyScore createVolleyballHandler
                 (volleyballAt [3]%Z [2]%Z 1) HOME 1)) /\
  periodArraysAligned
    (nextPeriod createVolleyballHandler (volleyballAt [3]%Z [2]%Z 1)).
Proof.
  destruct (engine_keeps_arrays_aligned createVolleyballHandler
              (volleyballAt [3]%Z [2]%Z 1) HOME 1 1) as (H1 & _ & H3).
  - split; reflexivity.
  - split; assumption.
Defined.

(** ** Scoring engine: undo, periods, endings, actions *)

(** [undoScore] clamps at zero: from a state without negative numbers it
    never produces one, whatever points and period it is given (also out
    of order); and with non-negative points it never raises a total or a
    bucket. *)
Theorem undoScore_clamps (state : MatchState) (side : TeamSide)
    (points period : Z) :
  nonNegative state ->
  nonNegative (undoScore state side points period) /\
  ((0 <= points)%Z ->
   let state' := undoScore state side points period in
   (homeScore state' <= homeScore state)%Z /\
   (awayScore state' <= awayScore state)%Z /\
   forall i : Z,
     (bucket (homePeriodScores state') i
      <= bucket (homePeriodScores state) i)%Z /\
     (bucket (awayPeriodScores state') i
      <= bucket (awayPeriodScores state) i)%Z).
Proof.
  intros (Hh & Ha & Fh & Fa).
  assert (Hbucket : forall l i, Forall (fun v => 0 <= v)%Z l ->
            (0 <= bucket l i)%Z).
  { intros l i Fl. unfold bucket.
    destruct (get l i) as [v|] eqn:E; [|lia].
    destruct (get_Some_lt _ _ _ E) as (_ & _ & Hn).
    apply nth_error_In in Hn.
    exact (proj1 (Forall_forall _ _) Fl v Hn). }
  assert (Hupd : forall l i j, Forall (fun v => 0 <= v)%Z l ->
            (0 <= points)%Z ->
            (bucket (updateBucket l i (fun cur => Z.max 0 (cur - points))) j
             <= bucket l j)%Z).
  { intros l i j Fl Hp.
    destruct (Z.ltb_spec i 0) as [Hneg | Hpos];
      [|destruct (Z.ltb_spec i (Z.of_nat (List.length l))) as [Hin | Hout]].
    - unfold updateBucket, get. destruct (Z.ltb_spec i 0); [lia | lia].
    - rewrite bucket_updateBucket by lia.
      destruct (Z.eqb_spec j i); [subst|lia].
      specialize (Hbucket l i Fl). lia.
    - unfold updateBucket, get. destruct (Z.ltb_spec i 0); [lia|].
      assert (E : nth_error l (Z.to_nat i) = None)
        by (apply nth_error_None; lia).
      rewrite E. lia. }
  split.
  - destruct side; unfold nonNegative, undoScore;
      cbn [homeScore awayScore homePeriodScores awayPeriodScores];
      repeat split; try lia; try assumption;
      apply Forall_updateBucket; try assumption; intros; lia.
  - intros Hp. cbv zeta.
    destruct side; unfold undoScore;
      cbn [homeScore awayScore homePeriodScores awayPeriodScores];
      (split; [lia|]); (split; [lia|]); intros i; split;
      try lia; apply Hupd; assumption.
Qed.

Lemma undoScore_clamps_witness :
  nonNegative (undoScore (volleyballAt [3]%Z [2]%Z 1) HOME 5 1).
Proof.
  apply (undoScore_clamps (volleyballAt [3]%Z [2]%Z 1) HOME 5 1).
  unfold nonNegative. cbn. repeat split; try lia; repeat constructor; lia.
Defined.

(** Advancing the period [k] times stops at the sport's period count: from
    a period number not above the count, the period number after [k] calls
    of [nextPeriod] is the smaller of [currentPeriod + k] and the count,
    and the arrays have grown by exactly the periods advanced. *)
Theorem nextPeriod_iterated (h : SportHandler) (state : MatchState) (k : nat) :
  (currentPeriod state <= periods (config h))%Z ->
  let state' := Nat.iter k (nextPeriod h) state in
  currentPeriod state'
  = Z.min (currentPeriod state + Z.of_nat k) (periods (config h)) /\
  Z.of_nat (List.length (homePeriodScores state'))
  = (Z.of_nat (List.length (homePeriodScores state))
     + (currentPeriod state' - currentPeriod state))%Z /\
  Z.of_nat (List.length (awayPeriodScores state'))
  = (Z.of_nat (List.length (awayPeriodScores state))
     + (currentPeriod state' - currentPeriod state))%Z /\
  homeScore state' = homeScore state /\ awayScore state' = awayScore state.
Proof.
  intros Hle. cbv zeta. induction k as [|k IH].
  - cbn [Nat.iter nat_rect]. repeat split; lia.
  - rewrite Nat.iter_succ.
    destruct IH as (Hc & Lh & La & Sh & Sa).
    set (s := Nat.iter k (nextPeriod h) state) in *.
    unfold nextPeriod.
    destruct (Z.geb_spec (currentPeriod s) (periods (config h))).
    + repeat split; try assumption; lia.
    + cbn [currentPeriod homePeriodScores awayPeriodScores homeScore awayScore].
      rewrite !length_app. cbn [List.length].
      repeat split; try assumption; lia.
Qed.

Lemma nextPeriod_iterated_witness :
  currentPeriod (Nat.iter 7 (nextPeriod createVolleyballHandler)
                   (volleyballAt [3]%Z [2]%Z 1))
  = Z.min (1 + 7) 5.
Proof.
  apply (nextPeriod_iterated createVolleyballHandler
           (volleyballAt [3]%Z [2]%Z 1) 7).
  cbn. lia.
Defined.

(** Only volleyball ends anything by itself: whatever the sport row, the
    handler found for it reports an ended period or an ended match only if
    the slug is "volleyball"; for every other sport [applyScore] never
    flags a period or match end. *)
Theorem only_volleyball_ends (sport : Sport) (state : MatchState) :
  sp_slug sport <> "volleyball"%string ->
  shouldEndPeriod (getSportHandler sport) state = false /\
  ended (shouldEndMatch (getSportHandler sport) state) = false /\
  forall side points,
    valid (applyScore (getSportHandler sport) state side points) = true ->
    periodEnded (applyScore (getSportHandler sport) state side points)
      = Some false /\
    matchEnded (applyScore (getSportHandler sport) state side points)
      = Some false.
Proof.
  intros Hslug.
  assert (Hall : forall st,
            shouldEndPeriod (getSportHandler sport) st = false /\
            ended (shouldEndMatch (getSportHandler sport) st) = false).
  { intros st. unfold getSportHandler.
    destruct (String.eqb_spec (sp_slug sport) "basketball").
    - split; [reflexivity|]. cbn. destruct (_ && _); reflexivity.
    - destruct (String.eqb_spec (sp_slug sport) "volleyball");
        [contradiction|].
      destruct (String.eqb_spec (sp_slug sport) "soccer").
      + split; [reflexivity|]. cbn.
        destruct (_ >=? _)%Z; [|reflexivity].
        destruct (_ >? _)%Z; [reflexivity|].
        destruct (_ >? _)%Z; reflexivity.
      + split; reflexivity. }
  split; [apply Hall|]. split; [apply Hall|].
  intros side points Hv. unfold applyScore in *.
  destruct (negb (v_valid (validateAction (getSportHandler sport) state
                             side points))); [discriminate|].
  cbn [periodEnded matchEnded].
  match goal with
  | |- Some (shouldEndPeriod _ ?st) = _ /\ _ =>
      destruct (Hall st) as [-> ->]
  end.
  split; reflexivity.
Qed.

Lemma only_volleyball_ends_witness :
  ended (shouldEndMatch
           (getSportHandler
              {| sp_slug := "basketball"; sp_periods := 4;
                 sp_periodName := "Quarter";
                 sp_scoreIncrements := [1; 2; 3]%Z;
                 sp_scoreLabels := []; sp_pointsToWinPeriod := None;
                 sp_canTie := false |})
           (volleyballAt [30; 20; 25; 31]%Z [20; 20; 20; 20]%Z 4))
  = false.
Proof.
  apply only_volleyball_ends. discriminate.
Defined.

(** A winner named by the basketball or soccer handler has strictly the
    higher total, and is named only from the last regular period on. *)
Theorem tentative_winner_leads (state : MatchState) (w : Winner) :
  (winner (shouldEndMatch createBasketballHandler state) = Some w ->
   (4 <= currentPeriod state)%Z /\
   match w with
   | home => (awayScore state < homeScore state)%Z
   | away => (homeScore state < awayScore state)%Z
   end) /\
  (winner (shouldEndMatch createSoccerHandler state) = Some w ->
   (2 <= currentPeriod state)%Z /\
   match w with
   | home => (awayScore state < homeScore state)%Z
   | away => (homeScore state < awayScore state)%Z
   end).
Proof.
  split; cbn.
  - destruct (Z.geb_spec (currentPeriod state) 4);
      destruct (Z.eqb_spec (homeScore state) (awayScore state));
      cbn [andb negb winner]; try discriminate.
    destruct (Z.gtb_spec (homeScore state) (awayScore state));
      intros E; injection E as <-; split; lia.
  - destruct (Z.geb_spec (currentPeriod state) 2); cbn [winner];
      [|discriminate].
    destruct (Z.gtb_spec (homeScore state) (awayScore state)); cbn [winner];
      [intros E; injection E as <-; split; lia|].
    destruct (Z.gtb_spec (awayScore state) (homeScore state)); cbn [winner];
      [intros E; injection E as <-; split; lia | discriminate].
Qed.

Lemma countSets_total (state : MatchState) (l : list nat) (acc : nat * nat) :
  let r := fold_left
    (fun (acc : nat * nat) (i : nat) =>
       let '(homeSets, awaySets) := acc in
       let homeSetScore := bucket (homePeriodScores state) (Z.of_nat i) in
       let awaySetScore := bucket (awayPeriodScores state) (Z.of_nat i) in
       if (homeSetScore >? awaySetScore)%Z then (homeSets + 1, awaySets)
       else if (awaySetScore >? homeSetScore)%Z then (homeSets, awaySets + 1)
       else acc) l acc in
  fst r + snd r <= fst acc + snd acc + List.length l.
Proof.
  revert acc. induction l as [|i l IH]; intros [hs as_]; cbv zeta;
    [cbn; lia|].
  cbn [fold_left List.length].
  destruct (_ >? _)%Z;
    [specialize (IH (hs + 1, as_))
    | destruct (_ >? _)%Z;
      [specialize (IH (hs, as_ + 1)) | specialize (IH (hs, as_))]];
    cbv zeta in IH; cbn [fst snd] in *; lia.
Qed.

(** A volleyball match is never reported ended before the third period,
    and it is reported ended exactly when a winner is named. *)
Theorem volleyball_end_needs_three_periods (state : MatchState) :
  (ended (shouldEndMatch createVolleyballHandler state) = true ->
   (3 <= currentPeriod state)%Z) /\
  (ended (shouldEndMatch createVolleyballHandler state) = true <->
   winner (shouldEndMatch createVolleyballHandler state) <> None).
Proof.
  pose proof (countSets_total state
                (seq 0 (Z.to_nat (currentPeriod state))) (0, 0)) as Ht.
  cbv zeta in Ht. fold (countSets state) in Ht.
  rewrite length_seq in Ht. cbn [fst snd] in Ht.
  cbn [shouldEndMatch createVolleyballHandler].
  unfold volleyball_shouldEndMatch.
  destruct (countSets state) as [hs as_]. cbn [fst snd] in Ht.
  destruct (Nat.leb_spec 3 hs); cbn [ended winner].
  - split; [intros _; lia|]. split; [discriminate | reflexivity].
  - destruct (Nat.leb_spec 3 as_); cbn [ended winner].
    + split; [intros _; lia|]. split; [discriminate | reflexivity].
    + split; [discriminate|]. split; [discriminate | intros E; now elim E].
Qed.

(** The actions offered are exactly the actions that would be accepted:
    some offered action has points [p] for [side] if and only if
    [validateAction] accepts [p] for [side]; a LIVE match is offered two
    actions per configured increment and any other match none. *)
Theorem availableActions_are_the_valid_ones (h : SportHandler)
    (state : MatchState) (side : TeamSide) (p : Z) :
  ((exists a, In a (getAvailableActions h state) /\
              a_points a = p /\ a_teamSide a = side)
   <-> v_valid (validateAction h state side p) = true) /\
  List.length (getAvailableActions h state)
  = if MatchStatus_eqb (status state) LIVE
    then 2 * List.length (scoreIncrements (config h)) else 0.
Proof.
  unfold getAvailableActions, validateAction.
  destruct (MatchStatus_eqb (status state) LIVE); cbn [negb];
    [|split; [split; [intros (a & [] & _) | discriminate] | reflexivity]].
  split.
  - destruct (existsb (Z.eqb p) (scoreIncrements (config h))) eqn:Eex;
      cbn [negb v_valid].
    + split; [reflexivity|]. intros _.
      apply existsb_exists in Eex. destruct Eex as (x & Hx & E).
      apply Z.eqb_eq in E. subst x.
      apply In_nth_error in Hx. destruct Hx as [i Hi].
      assert (Hlt : i < List.length (scoreIncrements (config h)))
        by (apply nth_error_Some; congruence).
      eexists {| a_points := p; a_label := _; a_teamSide := side |}.
      split; [|split; reflexivity].
      apply in_flat_map. exists i. split; [apply in_seq; lia|].
      rewrite Hi. destruct side; [left | right; left]; reflexivity.
    + split; [|discriminate]. intros (a & Ha & Hp & _). exfalso.
      apply in_flat_map in Ha. destruct Ha as (i & _ & Ha).
      destruct (nth_error (scoreIncrements (config h)) i) as [q|] eqn:Hi;
        [|contradiction].
      assert (Hq : q = p)
        by (destruct Ha as [<- | [<- | []]]; exact Hp).
      subst q. apply nth_error_In in Hi.
      assert (existsb (Z.eqb p) (scoreIncrements (config h)) = true);
        [|congruence].
      apply existsb_exists. exists p. split; [exact Hi | apply Z.eqb_refl].
  - rewrite (length_flat_map_const _ 2), length_seq; [reflexivity|].
    intros i Hi. apply in_seq in Hi.
    destruct (nth_error (scoreIncrements (config h)) i) eqn:E;
      [reflexivity|].
    apply nth_error_None in E. lia.
Qed.

(** ** Routes: the event log *)

Lemma lastActive_Some (events : list ScoreEventRow) :
  forall pos0 p e,
  lastActive events pos0 = Some (p, e) ->
  pos0 <= p /\ nth_error events (p - pos0) = Some e /\ e_undone e = false /\
  forall j e', p - pos0 < j -> nth_error events j = Some e' ->
               e_undone e' = true.
Proof.
  induction events as [|x rest IH]; intros pos0 p e H; [discriminate|].
  cbn [lastActive] in H.
  destruct (lastActive rest (S pos0)) as [[p' e']|] eqn:Er.
  - injection H as -> ->. destruct (IH _ _ _ Er) as (Hle & Hn & Hu & Hlater).
    split; [lia|].
    replace (p - pos0) with (S (p - S pos0)) by lia.
    split; [exact Hn|]. split; [exact Hu|].
    intros [|j] e'' Hj Hnth; [lia|]. cbn in Hnth.
    apply (Hlater j); [lia | exact Hnth].
  - destruct (e_undone x) eqn:Eu; [discriminate|].
    injection H as <- <-. rewrite Nat.sub_diag.
    split; [lia|]. split; [reflexivity|]. split; [exact Eu|].
    intros [|j] e'' Hj Hnth; [lia|]. cbn in Hnth.
    assert (Hall : forall l q, lastActive l q = None ->
              forall y, In y l -> e_undone y = true).
    { clear. induction l as [|y l IH]; intros q H z Hz; [contradiction|].
      cbn [lastActive] in H.
      destruct (lastActive l (S q)) eqn:E; [discriminate|].
      destruct (e_undone y) eqn:Ey; [|discriminate].
      destruct Hz as [<- | Hz]; [exact Ey | exact (IH _ E _ Hz)]. }
    apply (Hall rest (S pos0) Er). eapply nth_error_In; eassumption.
Qed.

Lemma lastActive_None (events : list ScoreEventRow) (pos0 : nat) :
  lastActive events pos0 = None <->
  forall e, In e events -> e_undone e = true.
Proof.
  revert pos0. induction events as [|x rest IH]; intros pos0.
  - split; [intros _ e [] | reflexivity].
  - cbn [lastActive]. split.
    + intros H e He.
      destruct (lastActive rest (S pos0)) eqn:E; [discriminate|].
      destruct (e_undone x) eqn:Ex; [|discriminate].
      destruct He as [<- | He]; [exact Ex | exact (proj1 (IH _) E e He)].
    + intros H.
      rewrite (proj2 (IH (S pos0)) (fun e He => H e (or_intror He))).
      now rewrite (H x (or_introl eq_refl)).
Qed.

Lemma lastActive_snoc (events : list ScoreEventRow) (e : ScoreEventRow)
    (pos0 : nat) :
  e_undone e = false ->
  lastActive (events ++ [e]) pos0 = Some (pos0 + List.length events, e).
Proof.
  intros He. revert pos0. induction events as [|x rest IH]; intros pos0.
  - cbn. rewrite He. f_equal. f_equal. lia.
  - cbn [app lastActive List.length]. rewrite IH. f_equal. f_equal. lia.
Qed.

Lemma nth_error_markUndone (events : list ScoreEventRow) (p j : nat) :
  nth_error (markUndone events p) j
  = if j =? p then option_map undone (nth_error events p)
    else nth_error events j.
Proof.
  revert p j. induction events as [|x rest IH]; intros p j.
  - destruct p, j; cbn; try reflexivity; now destruct (j =? p).
  - destruct p, j; cbn; try reflexivity. apply IH.
Qed.

Lemma length_markUndone (events : list ScoreEventRow) (p : nat) :
  List.length (markUndone events p) = List.length events.
Proof.
  revert p. induction events as [|x rest IH]; intros [|p]; cbn; auto.
Qed.

Lemma markUndone_snoc (events : list ScoreEventRow) (e : ScoreEventRow) :
  markUndone (events ++ [e]) (List.length events) = events ++ [undone e].
Proof. induction events as [|x rest IH]; cbn; [reflexivity | now rewrite IH]. Qed.

(** ** Routes: scoring and undo *)

(** The score route answers [Ok] only for an existing match, an
    authenticated admin, a well-formed body and an action the sport's
    handler accepts (LIVE match, configured increment); then it stores the
    engine's new totals and period arrays and appends one event that
    records side, points, the period the match is in, and the action.  In
    every other case the store is left exactly as it was. *)
Theorem scoreRoute_outcome (sport : Sport) (store : Store) (auth : Auth)
    (body : ScoreBody) (parseError : string) :
  match scoreRoute sport store auth body parseError with
  | (Ok updated, store') =>
      exists m side points action,
        s_match store = Some m /\ auth = GoodPassword /\
        b_teamSide body = Some side /\ b_points body = points /\
        b_action body = action /\ (0 < points)%Z /\
        m_status m = LIVE /\
        In points (scoreIncrements (config (getSportHandler sport))) /\
        updated = withScores m
                    (newState (applyScore (getSportHandler sport) (stateOf m)
                                 side points)) /\
        s_match store' = Some updated /\
        s_events store'
        = s_events store ++ [eventOf side points (m_currentPeriod m) action]
  | (Failure _ _, store') => store' = store
  end.
Proof.
  unfold scoreRoute.
  destruct (s_match store) as [m|] eqn:Em; [|reflexivity].
  destruct auth; try reflexivity.
  unfold parseAddScore.
  destruct (b_teamSide body) as [side|] eqn:Es; [|reflexivity].
  destruct (Z.ltb_spec 0 (b_points body)); [|reflexivity].
  cbv zeta.
  destruct (valid (applyScore (getSportHandler sport) (stateOf m) side
                     (b_points body))) eqn:Hv; cbn [negb]; [|reflexivity].
  destruct (applyScore_valid_inv _ _ _ _ Hv) as [Hlive Hin].
  exists m, side, (b_points body), (b_action body).
  repeat split; try assumption; reflexivity.
Qed.

(** The undo route answers [Ok] only when the match has an event that is
    not undone; it then takes the newest such event, stores the engine's
    [undoScore] for that event's side, points and period, and flips the
    undone flag of that one event.  It is not gated on the status, and it
    leaves status, period number and winner as they were.  With good
    credentials and an existing match it fails only when every event is
    already undone; a failed call leaves the store as it was. *)
Theorem undoRoute_outcome (sport : Sport) (store : Store) (auth : Auth) :
  match undoRoute sport store auth with
  | (Ok updated, store') =>
      exists m pos e,
        s_match store = Some m /\ auth = GoodPassword /\
        nth_error (s_events store) pos = Some e /\ e_undone e = false /\
        (forall j e', pos < j -> nth_error (s_events store) j = Some e' ->
                      e_undone e' = true) /\
        updated = withScores m
                    (undoScore (stateOf m) (e_teamSide e) (e_points e)
                       (e_period e)) /\
        m_status updated = m_status m /\
        m_currentPeriod updated = m_currentPeriod m /\
        m_winnerId updated = m_winnerId m /\
        s_match store' = Some updated /\
        List.length (s_events store') = List.length (s_events store) /\
        forall j, nth_error (s_events store') j
                  = if j =? pos then Some (undone e)
                    else nth_error (s_events store) j
  | (Failure code msg, store') =>
      store' = store /\
      (auth = GoodPassword -> s_match store <> None ->
       code = 400 /\ msg = "No score events to undo"%string /\
       forall e, In e (s_events store) -> e_undone e = true)
  end.
Proof.
  unfold undoRoute.
  destruct (s_match store) as [m|] eqn:Em;
    [|split; [reflexivity | intros _ H; now elim H]].
  destruct auth; try (split; [reflexivity | discriminate]).
  destruct (lastActive (s_events store) 0) as [[pos e]|] eqn:El.
  - cbv zeta. destruct (lastActive_Some _ _ _ _ El) as (_ & Hn & Hu & Hlater).
    rewrite Nat.sub_0_r in *.
    exists m, pos, e. repeat split; try assumption.
    + apply length_markUndone.
    + intros j. cbn [s_events]. rewrite nth_error_markUndone, Hn. reflexivity.
  - split; [reflexivity|]. intros _ _. split; [reflexivity|].
    split; [reflexivity|]. exact (proj1 (lastActive_None _ _) El).
Qed.

Lemma stateOf_withScores (m : Match) (st : MatchState) :
  currentPeriod st = m_currentPeriod m -> status st = m_status m ->
  stateOf (withScores m st) = st.
Proof. intros Hc Hs. destruct st. cbn in *. subst. reflexivity. Qed.

(** Score, then undo, through the routes: if a score request succeeds on a
    match without negative numbers whose period arrays reach the current
    period, an undo request right after it restores the match row exactly,
    and the log ends with the new event, flagged undone. *)
Theorem score_then_undo_restores_row (sport : Sport) (store store1 : Store)
    (m updated : Match) (body : ScoreBody) (parseError : string) :
  s_match store = Some m ->
  nonNegative (stateOf m) -> bucketsReachPeriod (stateOf m) ->
  scoreRoute sport store GoodPassword body parseError = (Ok updated, store1) ->
  exists side,
    b_teamSide body = Some side /\
    undoRoute sport store1 GoodPassword
    = (Ok m,
       {| s_match := Some m;
          s_events := s_events store ++
                      [undone (eventOf side (b_points body)
                                 (m_currentPeriod m) (b_action body))] |}).
Proof.
  intros Hm Hnn Hreach Hscore.
  unfold scoreRoute, parseAddScore in Hscore. rewrite Hm in Hscore.
  destruct (b_teamSide body) as [side|]; [|discriminate].
  destruct (Z.ltb_spec 0 (b_points body)) as [Hpos|]; [|discriminate].
  cbv zeta in Hscore.
  destruct (valid (applyScore (getSportHandler sport) (stateOf m) side
                     (b_points body))) eqn:Hv; cbn [negb] in Hscore;
    [|discriminate].
  injection Hscore as <- <-.
  exists side. split; [reflexivity|].
  destruct (undoScore_applyScore (getSportHandler sport) (stateOf m) side
              (b_points body) Hnn Hreach ltac:(lia) Hv) as (Hundo & _ & _ & Hcp).
  unfold undoRoute. cbn [s_match s_events].
  rewrite lastActive_snoc by reflexivity. cbv zeta.
  cbn [e_teamSide e_points e_period Nat.add].
  rewrite markUndone_snoc.
  rewrite stateOf_withScores.
  - change (currentPeriod (stateOf m)) with (m_currentPeriod m) in Hundo.
    rewrite Hundo.
    assert (E : withScores
              (withScores m
                 (newState (applyScore (getSportHandler sport) (stateOf m)
                              side (b_points body)))) (stateOf m) = m)
      by (destruct m; reflexivity).
    rewrite E. reflexivity.
  - exact Hcp.
  - rewrite (applyScore_newState _ _ _ _ Hv). cbv zeta.
    destruct side; reflexivity.
Qed.

Lemma score_then_undo_restores_row_witness :
  let sport := {| sp_slug := "volleyball"; sp_periods := 5;
                  sp_periodName := "Set"; sp_scoreIncrements := [1%Z];
                  sp_scoreLabels := []; sp_pointsToWinPeriod := Some 25%Z;
                  sp_canTie := false |} in
  let m := {| m_status := LIVE; m_homeScore := 3; m_awayScore := 2;
              m_homePeriodScores := [3%Z]; m_awayPeriodScores := [2%Z];
              m_currentPeriod := 1; m_homeTeamId := None;
              m_awayTeamId := None; m_winnerId := None;
              m_startedAt := None; m_endedAt := None |} in
  let body := {| b_teamSide := Some HOME; b_points := 1;
                 b_action := "Point" |} in
  let store := {| s_match := Some m; s_events := [] |} in
  let scored := scoreRoute sport store GoodPassword body "bad body" in
  exists side,
    b_teamSide body = Some side /\
    undoRoute sport (snd scored) GoodPassword
    = (Ok m,
       {| s_match := Some m;
          s_events := [undone (eventOf side 1 1 "Point")] |}).
Proof.
  intros sport m body store scored.
  refine (score_then_undo_restores_row sport store (snd scored) m
            (withScores m (newState (applyScore (getSportHandler sport)
                                       (stateOf m) HOME 1)))
            body "bad body"%string eq_refl _ _ eq_refl).
  - unfold nonNegative. cbn. repeat split; try lia; repeat constructor; lia.
  - unfold bucketsReachPeriod. cbn. lia.
Defined.
(** ** Routes: what a request may change *)

Lemma handleAll_cons (sport : Sport) (store : Store) (ar : Auth * Request)
    (reqs : list (Auth * Request)) :
  handleAll sport store (ar :: reqs)
  = handleAll sport (snd (handle sport (fst ar) store (snd ar))) reqs.
Proof. reflexivity. Qed.

Lemma store_eta (store : Store) :
  {| s_match := s_match store; s_events := s_events store |} = store.
Proof. now destruct store. Qed.

Lemma handle_refused (sport : Sport) (auth : Auth) (store : Store)
    (req : Request) :
  s_match store = None \/ auth <> GoodPassword ->
  handle sport auth store req = (refusal (s_match store) auth, store).
Proof.
  intros H.
  unfold handle, liftOutcome, startRoute, pauseRoute, endRoute,
    nextPeriodRoute, scoreRoute, undoRoute, guarded, refusal.
  destruct (s_match store) as [m|] eqn:Em.
  - destruct H as [H | H]; [discriminate|].
    destruct auth; [| |now elim H];
      destruct req; cbn [fst snd]; rewrite <- ?Em, ?store_eta; reflexivity.
  - destruct req; cbn [fst snd]; rewrite <- ?Em, ?store_eta; reflexivity.
Qed.

(** Requests for a match that does not exist, or without the tournament's
    admin password, change nothing in the store, neither the match row nor
    the event log, however many of them are sent; each is answered 404
    for a missing match, otherwise 401. *)
Theorem refused_requests_write_nothing (sport : Sport) (store : Store)
    (reqs : list (Auth * Request)) :
  s_match store = None \/ Forall (fun ar => fst ar <> GoodPassword) reqs ->
  handleAll sport store reqs = store /\
  Forall (fun ar => handle sport (fst ar) store (snd ar)
                    = (refusal (s_match store) (fst ar), store)) reqs.
Proof.
  intros H. induction reqs as [|[auth req] reqs IH]; [split; constructor|].
  assert (Hone : handle sport auth store req
                 = (refusal (s_match store) auth, store)).
  { apply handle_refused. destruct H as [H | H]; [now left | right].
    now inversion H. }
  assert (Hrest : s_match store = None
                  \/ Forall (fun ar => fst ar <> GoodPassword) reqs).
  { destruct H as [H | H]; [now left | right]. now inversion H. }
  destruct (IH Hrest) as [Hall Heach].
  split.
  - rewrite handleAll_cons. cbn [fst snd]. rewrite Hone. exact Hall.
  - constructor; [exact Hone | exact Heach].
Qed.

Lemma refused_requests_write_nothing_witness :
  let m := {| m_status := LIVE; m_homeScore := 3; m_awayScore := 2;
              m_homePeriodScores := [3%Z]; m_awayPeriodScores := [2%Z];
              m_currentPeriod := 1; m_homeTeamId := None;
              m_awayTeamId := None; m_winnerId := None;
              m_startedAt := None; m_endedAt := None |} in
  let sport := {| sp_slug := "soccer"; sp_periods := 2;
                  sp_periodName := "Half"; sp_scoreIncrements := [1%Z];
                  sp_scoreLabels := []; sp_pointsToWinPeriod := None;
                  sp_canTie := true |} in
  let body := {| b_teamSide := Some HOME; b_points := 1;
                 b_action := "Goal" |} in
  let store := {| s_match := Some m; s_events := [] |} in
  handleAll sport store
    [(WrongPassword, End_ 7); (NoHeader, Score body "bad"); (NoHeader, Undo)]
  = store.
Proof.
  intros m sport body store.
  apply (refused_requests_write_nothing sport store
           [(WrongPassword, End_ 7); (NoHeader, Score body "bad");
            (NoHeader, Undo)]).
  right. repeat constructor; discriminate.
Defined.

Lemma handle_status_step (sport : Sport) (auth : Auth)
    (store : Store) (req : Request) (m : Match) :
  s_match store = Some m ->
  exists m', s_match (snd (handle sport auth store req)) = Some m' /\
    (m_status m' = m_status m \/ statusChange req (m_status m) (m_status m')).
Proof.
  intros Em.
  unfold handle, liftOutcome, startRoute, pauseRoute, endRoute,
    nextPeriodRoute, scoreRoute, undoRoute, guarded, update.
  rewrite Em.
  destruct auth;
    try (destruct req; cbn [fst snd s_match]; rewrite ?Em;
         eexists; (split; [reflexivity | left; reflexivity])).
  destruct req; cbn [fst snd s_match].
  - destruct (m_status m) eqn:Es; cbn [MatchStatus_eqb negb andb fst snd];
      eexists; (split; [reflexivity|]); cbn [m_status];
      try (left; rewrite Es; reflexivity);
      right; cbn; split; auto.
  - destruct (m_status m) eqn:Es; cbn [MatchStatus_eqb negb andb fst snd];
      eexists; (split; [reflexivity|]); cbn [m_status];
      try (left; rewrite Es; reflexivity);
      right; cbn; split; auto.
  - eexists; split; [reflexivity|]. right. reflexivity.
  - destruct (parseAddScore body) as [[[side points] action]|];
      [|cbn [snd]; rewrite Em; eexists; split; [reflexivity | left; reflexivity]].
    cbv zeta.
    destruct (valid (applyScore (getSportHandler sport) (stateOf m) side
                       points)); cbn [negb snd s_match];
      rewrite ?Em; eexists; (split; [reflexivity | left; reflexivity]).
  - destruct (lastActive (s_events store) 0) as [[pos e]|];
      cbn [snd s_match]; rewrite ?Em;
      eexists; (split; [reflexivity | left; reflexivity]).
  - destruct (m_currentPeriod m >=? sp_periods sport)%Z; cbn [fst snd];
      eexists; (split; [reflexivity | left; reflexivity]).
Qed.

(** ** Routes: runs of requests *)


Lemma sameEventLater_refl (e : ScoreEventRow) : sameEventLater e e.
Proof. unfold sameEventLater. auto. Qed.

Lemma sameEventLater_trans (a b c : ScoreEventRow) :
  sameEventLater a b -> sameEventLater b c -> sameEventLater a c.
Proof.
  unfold sameEventLater.
  intros (H1 & H2 & H3 & H4 & H5) (K1 & K2 & K3 & K4 & K5).
  repeat split; try congruence. auto.
Qed.

Lemma handle_keeps_events (sport : Sport) (auth : Auth) (store : Store)
    (req : Request) (j : nat) (e : ScoreEventRow) :
  nth_error (s_events store) j = Some e ->
  exists e', nth_error (s_events (snd (handle sport auth store req))) j
             = Some e' /\ sameEventLater e e'.
Proof.
  intros Hj.
  assert (Hsame : exists e', nth_error (s_events store) j = Some e' /\
                             sameEventLater e e')
    by (exists e; split; [exact Hj | apply sameEventLater_refl]).
  unfold handle, liftOutcome, scoreRoute, undoRoute.
  destruct req; cbn [snd s_events]; try exact Hsame.
  - destruct (s_match store) as [m|]; [|exact Hsame].
    destruct auth; try exact Hsame.
    destruct (parseAddScore body) as [[[side points] action]|];
      [|exact Hsame].
    cbv zeta. destruct (negb _); [exact Hsame|]. cbn [snd s_events].
    exists e. split; [|apply sameEventLater_refl].
    rewrite nth_error_app1; [exact Hj|].
    apply nth_error_Some. congruence.
  - destruct (s_match store) as [m|]; [|exact Hsame].
    destruct auth; try exact Hsame.
    destruct (lastActive (s_events store) 0) as [[pos last]|] eqn:El;
      [|exact Hsame].
    cbv zeta. cbn [snd s_events]. rewrite nth_error_markUndone.
    destruct (lastActive_Some _ _ _ _ El) as (_ & Hn & _).
    rewrite Nat.sub_0_r in Hn.
    destruct (Nat.eqb_spec j pos) as [-> | Hne]; [|exact Hsame].
    rewrite Hn. cbn [option_map]. exists (undone last).
    split; [reflexivity|].
    assert (last = e) by congruence. subst last.
    unfold sameEventLater, undone. cbn. auto.
Qed.

(** The event log is append-only: over any run of requests an event keeps
    its position, side, points, period and action; the only change an
    event ever sees is its undone flag going from false to true. *)
Theorem event_log_is_append_only (sport : Sport)
    (reqs : list (Auth * Request)) (store : Store) (j : nat)
    (e : ScoreEventRow) :
  nth_error (s_events store) j = Some e ->
  exists e', nth_error (s_events (handleAll sport store reqs)) j = Some e' /\
             sameEventLater e e'.
Proof.
  revert store e. induction reqs as [|[auth req] reqs IH]; intros store e Hj.
  - exists e. split; [exact Hj | apply sameEventLater_refl].
  - rewrite handleAll_cons. cbn [fst snd].
    destruct (handle_keeps_events sport auth store req j e Hj)
      as (e1 & Hj1 & Hs1).
    destruct (IH _ e1 Hj1) as (e' & Hj' & Hs').
    exists e'. split; [exact Hj'|].
    eapply sameEventLater_trans; eassumption.
Qed.

Lemma event_log_is_append_only_witness :
  let m := {| m_status := LIVE; m_homeScore := 1; m_awayScore := 0;
              m_homePeriodScores := [1%Z]; m_awayPeriodScores := [0%Z];
              m_currentPeriod := 1; m_homeTeamId := None;
              m_awayTeamId := None; m_winnerId := None;
              m_startedAt := Some 5%Z; m_endedAt := None |} in
  let sport := {| sp_slug := "soccer"; sp_periods := 2;
                  sp_periodName := "Half"; sp_scoreIncrements := [1%Z];
                  sp_scoreLabels := []; sp_pointsToWinPeriod := None;
                  sp_canTie := true |} in
  let body := {| b_teamSide := Some AWAY; b_points := 1;
                 b_action := "Goal" |} in
  let e := eventOf HOME 1 1 "Goal" in
  let store := {| s_match := Some m; s_events := [e] |} in
  let reqs := [(GoodPassword, Score body "bad"); (GoodPassword, Undo);
               (GoodPassword, Undo)] in
  exists e', nth_error (s_events (handleAll sport store reqs)) 0 = Some e' /\
             sameEventLater e e'.
Proof.
  intros m sport body e store reqs.
  apply (event_log_is_append_only sport reqs store 0 e). reflexivity.
Defined.
(** ** Routes: the match row against its event log *)










Lemma bucket_get (scores : list Z) (i : Z) :
  match get scores i with
  | Some cur => cur
  | None => 0%Z
  end = bucket scores i.
Proof. reflexivity. Qed.




(** ** The whole router: who writes the status *)


(** Among the routes that address a match (the six POST routes, PUT and
    DELETE), the row is removed only by an authorised DELETE of a
    SCHEDULED match, and the status is written only by start (SCHEDULED or
    PAUSED to LIVE), pause (LIVE to PAUSED), end (anything to COMPLETED)
    and an authorised, stored PUT whose body carries a status (anything to
    that status, without a gate).  Score, undo and next-period never
    change the status. *)
Theorem status_written_only_by_start_pause_end_put (sport : Sport)
    (auth : Auth) (store : Store) (rreq : RouterRequest) (m : Match) :
  s_match store = Some m ->
  match s_match (snd (route sport auth store rreq)) with
  | Some m' =>
      m_status m' = m_status m \/
      (auth = GoodPassword /\
       routerStatusChange rreq (m_status m) (m_status m'))
  | None => rreq = Delete /\ auth = GoodPassword /\ m_status m = SCHEDULED
  end.
Proof.
  intros Em. destruct rreq as [req | parsed parseError dbAccepts |];
    cbn [route snd fst].
  - destruct auth;
      try (rewrite handle_refused by (right; discriminate);
           cbn [snd]; rewrite Em; left; reflexivity).
    destruct (handle_status_step sport GoodPassword store req m Em)
      as (m' & -> & [H | H]); [left; exact H | right; split; [reflexivity | exact H]].
  - unfold liftOutcome, updateRoute, guarded, update. rewrite Em.
    destruct auth; cbn [fst snd s_match]; try (left; reflexivity).
    destruct parsed as [data|]; cbn [fst snd s_match]; [|left; reflexivity].
    destruct dbAccepts; cbn [fst snd s_match m_status]; [|left; reflexivity].
    destruct (d_status data) as [s|] eqn:Es; [|left; reflexivity].
    right. split; [reflexivity|]. cbn [routerStatusChange]. exact Es.
  - unfold deleteRoute. rewrite Em.
    destruct auth; cbn [snd]; rewrite ?Em; try (left; reflexivity).
    destruct (m_status m) eqn:Es; cbn [MatchStatus_eqb snd s_match];
      rewrite ?Em; try (left; exact Es).
    repeat split.
Qed.

Lemma status_written_only_by_start_pause_end_put_witness :
  let m := {| m_status := COMPLETED; m_homeScore := 3; m_awayScore := 2;
              m_homePeriodScores := [3%Z]; m_awayPeriodScores := [2%Z];
              m_currentPeriod := 1; m_homeTeamId := None;
              m_awayTeamId := None; m_winnerId := None;
              m_startedAt := Some 5%Z; m_endedAt := Some 8%Z |} in
  let sport := {| sp_slug := "soccer"; sp_periods := 2;
                  sp_periodName := "Half"; sp_scoreIncrements := [1%Z];
                  sp_scoreLabels := []; sp_pointsToWinPeriod := None;
                  sp_canTie := true |} in
  let store := {| s_match := Some m; s_events := [] |} in
  let reopen := Put (Some {| d_homeTeamId := None; d_awayTeamId := None;
                             d_status := Some LIVE |}) "bad body" true in
  match s_match (snd (route sport GoodPassword store reopen)) with
  | Some m' =>
      m_status m' = COMPLETED \/
      (GoodPassword = GoodPassword /\
       routerStatusChange reopen COMPLETED (m_status m'))
  | None => reopen = Delete /\ GoodPassword = GoodPassword
            /\ COMPLETED = SCHEDULED
  end.
Proof.
  intros m sport store reopen.
  apply (status_written_only_by_start_pause_end_put sport GoodPassword store
           reopen m).
  reflexivity.
Defined.



